(** * Entropy sources of the fingerprinting library: a shallow embedding

    The sources under [src/sources] talk to the browser through host
    APIs.  A source is embedded as a finite interaction tree over the
    host calls it makes ([prog]); the browser is a handler that answers
    every call, normally or by throwing, and may change its own state
    while doing so ([host]).  JavaScript exceptions are part of the
    tree, so that [try]/[catch] is a tree transformer. *)

From stdpp Require Import base option numbers list gmap sets strings pretty.
From Stdlib Require Import ZArith Lia Ascii Sorted SpecFloat.
From Equations Require Import Equations.

Set Warnings "-register-all".

(** ** JavaScript values and exceptions *)

(** The values a parsed JSON document or an options object can hold. *)
Inductive jsval : Type :=
| VUndefined
| VNull
| VBool (b : bool)
| VNum (n : Z)
| VStr (s : string)
| VArr (items : list jsval)
| VObj (props : gmap string jsval).

(** A thrown value: an [Error] instance with its [message], or anything
    else ([throw] accepts every value). *)
Inductive exn : Type :=
| JsError (message : string)
| JsThrown (v : jsval).

Inductive outcome (A : Type) : Type :=
| Normal (a : A)
| Thrown (e : exn).
Arguments Normal {A} a.
Arguments Thrown {A} e.

(** ** Programs over host calls *)

Inductive prog (E : Type → Type) (R : Type) : Type :=
| Ret (r : R)
| Throw (e : exn)
| Vis (X : Type) (ev : E X) (k : outcome X → prog E R).
Arguments Ret {E R} r.
Arguments Throw {E R} e.
Arguments Vis {E R X} ev k.

Fixpoint bind {E A B} (p : prog E A) (f : A → prog E B) : prog E B :=
  match p with
  | Ret a => f a
  | Throw e => Throw e
  | Vis ev k => Vis ev (λ o, bind (k o) f)
  end.

(** A host call outside any [try]: a throw of the host propagates. *)
Definition call {E X} (ev : E X) : prog E X :=
  Vis ev (λ o, match o with Normal x => Ret x | Thrown e => Throw e end).

(** [try { p } catch (e) { handler e }] *)
Fixpoint try_catch {E R} (p : prog E R) (handler : exn → prog E R) : prog E R :=
  match p with
  | Ret r => Ret r
  | Throw e => handler e
  | Vis ev k => Vis ev (λ o, try_catch (k o) handler)
  end.

Global Instance prog_ret E : MRet (prog E) := λ A a, Ret a.
Global Instance prog_bind E : MBind (prog E) := λ A B f p, bind p f.

(** [for (const x of l) body x] *)
Fixpoint forEach {E A} (l : list A) (body : A → prog E unit) : prog E unit :=
  match l with
  | [] => Ret tt
  | x :: l' => bind (body x) (λ _, forEach l' body)
  end.

(** [for (let i = 0; i < n; i++) acc = body i acc], the loop state
    passed explicitly. *)
Fixpoint forRange {E A} (l : list nat) (body : nat → A → prog E A) (acc : A) : prog E A :=
  match l with
  | [] => Ret acc
  | i :: l' => bind (body i acc) (forRange l' body)
  end.

(** ** Hosts and runs *)

(** The browser: every call is answered, by a value or by a throw, and
    the answer may depend on and change the host's own state (noise
    injected per readback, counters, the DOM). *)
Definition host (E : Type → Type) (S : Type) : Type :=
  ∀ X, E X → S → outcome X * S.

(** One answered host call. *)
Inductive entry (E : Type → Type) : Type :=
| Entry (X : Type) (ev : E X) (o : outcome X).
Arguments Entry {E X} ev o.

Section Exec.
Context {E : Type → Type} {S : Type} (h : host E S).

(** Run a program against the host: outcome, final host state and the
    log of the calls made, in order. *)
Fixpoint exec {R} (p : prog E R) (s : S) : outcome R * S * list (entry E) :=
  match p with
  | Ret r => (Normal r, s, [])
  | Throw e => (Thrown e, s, [])
  | Vis ev k =>
      let '(o, s1) := h _ ev s in
      let '(r, s2, tr) := exec (k o) s1 in
      (r, s2, Entry ev o :: tr)
  end.

Definition yield {R} (p : prog E R) (s : S) : outcome R := (exec p s).1.1.
Definition final {R} (p : prog E R) (s : S) : S := (exec p s).1.2.
Definition trace {R} (p : prog E R) (s : S) : list (entry E) := (exec p s).2.

(** The throws of the host during a run. *)
Definition thrown_of (en : entry E) : option exn :=
  match en with
  | Entry _ (Thrown e) => Some e
  | Entry _ (Normal _) => None
  end.
Definition host_throws {R} (p : prog E R) (s : S) : list exn :=
  omap thrown_of (trace p s).
End Exec.

(** A program without [try]/[catch] and without [throw] of its own. *)
Inductive catch_free {E R} : prog E R → Prop :=
| catch_free_Ret r : catch_free (Ret r)
| catch_free_Vis X (ev : E X) k :
    (∀ x, catch_free (k (Normal x))) →
    (∀ e, k (Thrown e) = Throw e) →
    catch_free (Vis ev k).

(** Every call the program can make is in the class [P], whatever the
    host answers. *)
Inductive calls_only {E R} (P : ∀ X, E X → bool) : prog E R → Prop :=
| calls_only_Ret r : calls_only P (Ret r)
| calls_only_Throw e : calls_only P (Throw e)
| calls_only_Vis X (ev : E X) k :
    P X ev = true → (∀ o, calls_only P (k o)) → calls_only P (Vis ev k).

Definition entry_in {E} (P : ∀ X, E X → bool) (en : entry E) : bool :=
  match en with Entry ev _ => P _ ev end.

(** The number of host calls of the runs of [p] that return lies
    between [lo] and [hi]. *)
Definition within {E S R} (h : host E S) (lo hi : nat) (p : prog E R) : Prop :=
  ∀ s, match yield h p s with
       | Normal _ => lo ≤ length (trace h p s) ≤ hi
       | Thrown _ => True
       end.

(** [tr] is the log of a run of [p] that ended with [r], whatever
    host it was: the calls of [p] in their order, each with an
    answer. *)
Inductive logs {E R} : prog E R → list (entry E) → outcome R → Prop :=
| logs_Ret r : logs (Ret r) [] (Normal r)
| logs_Throw e : logs (Throw e) [] (Thrown e)
| logs_Vis X (ev : E X) k o tr r :
    logs (k o) tr r → logs (Vis ev k) (Entry ev o :: tr) r.

(** ** Answers without handles *)

(** [valueOf] says what of an answer is a value: a handle of a host
    object is not, only that there is one. *)
Section Answers.
Context {E : Type → Type} {V : Type} (valueOf : ∀ X, E X → X → V).

Definition answerOf (en : entry E) : outcome V :=
  match en with
  | Entry ev (Normal x) => Normal (valueOf _ ev x)
  | Entry ev (Thrown e) => Thrown e
  end.

(** What the host answered during a run, call by call. *)
Definition answers (tr : list (entry E)) : list (outcome V) := answerOf <$> tr.

(** Two programs that go the same way as long as they get the same
    answers, and then end with results related by [rel]. *)
Inductive aligned {R1 R2} (rel : R1 → R2 → Prop) : prog E R1 → prog E R2 → Prop :=
| aligned_Ret r1 r2 : rel r1 r2 → aligned rel (Ret r1) (Ret r2)
| aligned_Throw e : aligned rel (Throw e) (Throw e)
| aligned_Vis X1 X2 (ev1 : E X1) (ev2 : E X2) k1 k2 :
    (∀ o1 o2, answerOf (Entry ev1 o1) = answerOf (Entry ev2 o2) → aligned rel (k1 o1) (k2 o2)) →
    aligned rel (Vis ev1 k1) (Vis ev2 k2).
End Answers.

(** ** Typed arrays *)

(** A [Uint8ClampedArray]: reading out of range gives [undefined],
    which a clamped array stores as 0; writing out of range is ignored
    (stdpp's list insert does the same). *)
Abbreviation u8array := (list Byte.byte).

Definition u8get (a : u8array) (i : nat) : Byte.byte :=
  default Byte.x00 (a !! i).

Definition u8new (n : nat) : u8array := replicate n Byte.x00.

(** * canvas.ts *)
Module Canvas.

Record CanvasFingerprint : Type := {
  winding : bool;
  geometry : string;
  text : string;
}.

Module ImageStatus.
Definition Unsupported : string := "unsupported".
Definition Skipped : string := "skipped".
Definition Unstable : string := "unstable".
End ImageStatus.

(** DOM objects are handles into the host. *)
Inductive HTMLCanvasElement : Type := CanvasRef (id : nat).
Inductive CanvasRenderingContext2D : Type := ContextRef (id : nat).
Inductive ImageData : Type := ImageDataRef (id : nat).

(** [Math.PI * k] *)
Inductive angle : Type := PiTimes (k : Z).

(** The host calls of canvas.ts.  Canvas sizes are [unsigned long];
    coordinates are the integer literals of the source. *)
Inductive canvasE : Type → Type :=
(* ../utils/browser *)
| IsWebKit : canvasE bool
| IsWebKit616OrNewer : canvasE bool
| IsSafariWebKit : canvasE bool
(* document and HTMLCanvasElement *)
| CreateCanvas : canvasE HTMLCanvasElement
| SetWidth (c : HTMLCanvasElement) (w : nat) : canvasE unit
| SetHeight (c : HTMLCanvasElement) (h : nat) : canvasE unit
| GetWidth (c : HTMLCanvasElement) : canvasE nat
| GetHeight (c : HTMLCanvasElement) : canvasE nat
| GetContext2d (c : HTMLCanvasElement) : canvasE (option CanvasRenderingContext2D)
| HasToDataURL (c : HTMLCanvasElement) : canvasE bool
| ToDataURL (c : HTMLCanvasElement) : canvasE string
(* CanvasRenderingContext2D *)
| Rect (ctx : CanvasRenderingContext2D) (x y w h : Z) : canvasE unit
| IsPointInPath (ctx : CanvasRenderingContext2D) (x y : Z) (fillRule : string) : canvasE bool
| SetTextBaseline (ctx : CanvasRenderingContext2D) (v : string) : canvasE unit
| SetFillStyle (ctx : CanvasRenderingContext2D) (v : string) : canvasE unit
| SetFont (ctx : CanvasRenderingContext2D) (v : string) : canvasE unit
| FillRect (ctx : CanvasRenderingContext2D) (x y w h : Z) : canvasE unit
| FillText (ctx : CanvasRenderingContext2D) (t : string) (x y : Z) : canvasE unit
| SetGlobalCompositeOperation (ctx : CanvasRenderingContext2D) (v : string) : canvasE unit
| BeginPath (ctx : CanvasRenderingContext2D) : canvasE unit
| Arc (ctx : CanvasRenderingContext2D) (x y radius startAngle : Z) (endAngle : angle)
      (counterclockwise : bool) : canvasE unit
| ClosePath (ctx : CanvasRenderingContext2D) : canvasE unit
| Fill (ctx : CanvasRenderingContext2D) (fillRule : option string) : canvasE unit
| SetImageSmoothingEnabled (ctx : CanvasRenderingContext2D) (v : bool) : canvasE unit
| DrawImage (ctx : CanvasRenderingContext2D) (image : HTMLCanvasElement) (dx dy : Z) (dw dh : nat) : canvasE unit
| GetImageData (ctx : CanvasRenderingContext2D) (sx sy : Z) (sw sh : nat) : canvasE u8array
| CreateImageData (ctx : CanvasRenderingContext2D) (sw sh : nat) : canvasE ImageData
| ImageDataSet (img : ImageData) (source : u8array) : canvasE unit
| PutImageData (ctx : CanvasRenderingContext2D) (img : ImageData) (dx dy : Z) : canvasE unit.

Definition makeCanvasContext : prog canvasE (HTMLCanvasElement * option CanvasRenderingContext2D) :=
  canvas ← call CreateCanvas;
  call (SetWidth canvas 1);;
  call (SetHeight canvas 1);;
  context ← call (GetContext2d canvas);
  mret (canvas, context).

(** [!!(context && canvas.toDataURL)]; a type guard, so the narrowed
    context is what a positive answer carries. *)
Definition isSupported (canvas : HTMLCanvasElement) (context : option CanvasRenderingContext2D)
  : prog canvasE (option CanvasRenderingContext2D) :=
  match context with
  | None => mret None
  | Some ctx =>
      has ← call (HasToDataURL canvas);
      mret (if has : bool then Some ctx else None)
  end.

Definition doesSupportWinding (context : CanvasRenderingContext2D) : prog canvasE bool :=
  call (Rect context 0 0 10 10);;
  call (Rect context 2 2 6 6);;
  inside ← call (IsPointInPath context 5 5 "evenodd");
  mret (negb inside).

Definition canvasToString (canvas : HTMLCanvasElement) : prog canvasE string :=
  call (ToDataURL canvas).

(** [String.fromCharCode(55357, 56835)], the surrogate pair of
    U+1F603, written as its UTF-8 bytes. *)
Definition smiley : string :=
  String (Ascii.ascii_of_nat 240) (String (Ascii.ascii_of_nat 159)
    (String (Ascii.ascii_of_nat 152) (String (Ascii.ascii_of_nat 131) EmptyString))).

(** The double quote character, for string literals that hold one. *)
Definition dquote : string := String (Ascii.ascii_of_nat 34) EmptyString.

Definition renderTextImage (canvas : HTMLCanvasElement) (context : CanvasRenderingContext2D) : prog canvasE unit :=
  call (SetWidth canvas 240);;
  call (SetHeight canvas 60);;
  call (SetTextBaseline context "alphabetic");;
  call (SetFillStyle context "#f60");;
  call (FillRect context 100 1 62 20);;
  call (SetFillStyle context "#069");;
  call (SetFont context ("11pt " +:+ dquote +:+ "Times New Roman" +:+ dquote));;
  let printedText := "Cwm fjordbank gly " +:+ smiley in
  call (FillText context printedText 2 15);;
  call (SetFillStyle context "rgba(102, 204, 0, 0.2)");;
  call (SetFont context "18pt Arial");;
  call (FillText context printedText 4 45).

Definition renderGeometryImage (canvas : HTMLCanvasElement) (context : CanvasRenderingContext2D) : prog canvasE unit :=
  call (SetWidth canvas 122);;
  call (SetHeight canvas 110);;
  call (SetGlobalCompositeOperation context "multiply");;
  forEach [("#f2f", 40, 40); ("#2ff", 80, 40); ("#ff2", 60, 80)]%Z
    (λ '(color, x, y),
      call (SetFillStyle context color);;
      call (BeginPath context);;
      call (Arc context x y 40 0 (PiTimes 2) true);;
      call (ClosePath context);;
      call (Fill context None));;
  call (SetFillStyle context "#f9c");;
  call (Arc context 60 60 60 0 (PiTimes 2) true);;
  call (Arc context 60 60 20 0 (PiTimes 2) true);;
  call (Fill context (Some "evenodd")).

Definition renderImages (canvas : HTMLCanvasElement) (context : CanvasRenderingContext2D)
  : prog canvasE (string * string) :=
  renderTextImage canvas context;;
  textImage1 ← canvasToString canvas;
  textImage2 ← canvasToString canvas;
  if negb (bool_decide (textImage1 = textImage2)) then
    mret (ImageStatus.Unstable, ImageStatus.Unstable)
  else
    renderGeometryImage canvas context;;
    geometryImage ← canvasToString canvas;
    mret (geometryImage, textImage1).

Definition getUnstableCanvasFingerprint (skipImages : bool) : prog canvasE CanvasFingerprint :=
  '(canvas, context) ← makeCanvasContext;
  supported ← isSupported canvas context;
  match supported with
  | None =>
      mret {| winding := false;
              geometry := ImageStatus.Unsupported; text := ImageStatus.Unsupported |}
  | Some context =>
      winding ← doesSupportWinding context;
      if skipImages then
        mret {| winding := winding;
                geometry := ImageStatus.Skipped; text := ImageStatus.Skipped |}
      else
        '(geometry, text) ← renderImages canvas context;
        mret {| winding := winding; geometry := geometry; text := text |}
  end.

(** [a() && b() && c()], evaluated left to right with short circuit. *)
Definition doesBrowserPerformAntifingerprinting : prog canvasE bool :=
  a ← call IsWebKit;
  if a : bool then
    b ← call IsWebKit616OrNewer;
    if b : bool then call IsSafariWebKit else mret false
  else mret false.

Definition DENOISE_SCALE : nat := 3.

(** The body of the two nested loops of step 6: one original pixel.
    [scaledCanvas.width] is read from the host at every pixel. *)
Definition denoisePixel (scaledCanvas : HTMLCanvasElement) (scaledImageData : u8array)
    (originalWidth : nat) (y x : nat) (denoisedData : u8array) : prog canvasE u8array :=
  let scaledX := x * DENOISE_SCALE + DENOISE_SCALE / 2 in
  let scaledY := y * DENOISE_SCALE + DENOISE_SCALE / 2 in
  scaledWidth ← call (GetWidth scaledCanvas);
  let scaledIdx := (scaledY * scaledWidth + scaledX) * 4 in
  let originalIdx := (y * originalWidth + x) * 4 in
  let d0 := <[originalIdx := u8get scaledImageData scaledIdx]> denoisedData in
  let d1 := <[originalIdx + 1 := u8get scaledImageData (scaledIdx + 1)]> d0 in
  let d2 := <[originalIdx + 2 := u8get scaledImageData (scaledIdx + 2)]> d1 in
  let d3 := <[originalIdx + 3 := u8get scaledImageData (scaledIdx + 3)]> d2 in
  mret d3.

(** Step 6: the center pixel of each block. *)
Definition extractCenterPixels (scaledCanvas : HTMLCanvasElement) (scaledImageData : u8array)
    (originalWidth originalHeight : nat) : prog canvasE u8array :=
  forRange (seq 0 originalHeight)
    (λ y, forRange (seq 0 originalWidth)
            (denoisePixel scaledCanvas scaledImageData originalWidth y))
    (u8new (originalWidth * originalHeight * 4)).

Definition getDenoisedCanvasData (canvas : HTMLCanvasElement) (context : CanvasRenderingContext2D)
    (renderFn : HTMLCanvasElement → CanvasRenderingContext2D → prog canvasE unit) : prog canvasE string :=
  (* Step 1 *)
  renderFn canvas context;;
  originalWidth ← call (GetWidth canvas);
  originalHeight ← call (GetHeight canvas);
  (* Step 2 *)
  scaledCanvas ← call CreateCanvas;
  call (SetWidth scaledCanvas (originalWidth * DENOISE_SCALE));;
  call (SetHeight scaledCanvas (originalHeight * DENOISE_SCALE));;
  scaledContext ← call (GetContext2d scaledCanvas);
  match scaledContext with
  | None => call (ToDataURL canvas)
  | Some scaledContext =>
      (* Step 3 *)
      call (SetImageSmoothingEnabled scaledContext false);;
      (* Step 4 *)
      dw ← call (GetWidth scaledCanvas);
      dh ← call (GetHeight scaledCanvas);
      call (DrawImage scaledContext canvas 0 0 dw dh);;
      (* Step 5 *)
      sw ← call (GetWidth scaledCanvas);
      sh ← call (GetHeight scaledCanvas);
      scaledImageData ← call (GetImageData scaledContext 0 0 sw sh);
      (* Step 6 *)
      denoisedData ←
        extractCenterPixels scaledCanvas scaledImageData originalWidth originalHeight;
      (* Step 7 *)
      outputCanvas ← call CreateCanvas;
      call (SetWidth outputCanvas originalWidth);;
      call (SetHeight outputCanvas originalHeight);;
      outputContext ← call (GetContext2d outputCanvas);
      match outputContext with
      | None => call (ToDataURL canvas)
      | Some outputContext =>
          outputImageData ← call (CreateImageData outputContext originalWidth originalHeight);
          call (ImageDataSet outputImageData denoisedData);;
          call (PutImageData outputContext outputImageData 0 0);;
          call (ToDataURL outputCanvas)
      end
  end.

Definition getNoiseResistantCanvasFingerprint : prog canvasE CanvasFingerprint :=
  '(canvas, context) ← makeCanvasContext;
  supported ← isSupported canvas context;
  match supported with
  | None =>
      mret {| winding := false;
              geometry := ImageStatus.Unsupported; text := ImageStatus.Unsupported |}
  | Some context =>
      winding ← doesSupportWinding context;
      geometry ← getDenoisedCanvasData canvas context renderGeometryImage;
      text ← getDenoisedCanvasData canvas context renderTextImage;
      mret {| winding := winding; geometry := geometry; text := text |}
  end.

Definition getCanvasFingerprint : prog canvasE CanvasFingerprint :=
  antifingerprinting ← doesBrowserPerformAntifingerprinting;
  if antifingerprinting : bool then getNoiseResistantCanvasFingerprint
  else getUnstableCanvasFingerprint false.

(** ** What the facts below speak of *)

(** The four writes of [denoisePixel], for a scaled width [sw]. *)
Definition copyPixel (scaledImageData : u8array) (originalWidth sw : nat) (y x : nat)
    (denoisedData : u8array) : u8array :=
  let scaledX := x * DENOISE_SCALE + DENOISE_SCALE / 2 in
  let scaledY := y * DENOISE_SCALE + DENOISE_SCALE / 2 in
  let scaledIdx := (scaledY * sw + scaledX) * 4 in
  let originalIdx := (y * originalWidth + x) * 4 in
  <[originalIdx + 3 := u8get scaledImageData (scaledIdx + 3)]>
    (<[originalIdx + 2 := u8get scaledImageData (scaledIdx + 2)]>
       (<[originalIdx + 1 := u8get scaledImageData (scaledIdx + 1)]>
          (<[originalIdx := u8get scaledImageData scaledIdx]> denoisedData))).

(** Channel [c] of pixel [(x, y)] of an RGBA image of width [w], as a
    read of its typed array. *)
Definition pixelChannel (data : u8array) (w x y c : nat) : Byte.byte :=
  u8get data ((y * w + x) * 4 + c).

(** The pixels written so far by step 6: the rows above [y0], and the
    pixels left of [x0] in row [y0], hold the centers of their
    blocks. *)
Definition centersUpTo (scaled : u8array) (W H sw : nat) (d : u8array) (y0 x0 : nat) : Prop :=
  length d = W * H * 4 ∧
  ∀ x y c, x < W → y < H → c < 4 → y < y0 ∨ (y = y0 ∧ x < x0) →
    d !! ((y * W + x) * 4 + c) = Some (pixelChannel scaled sw (3 * x + 1) (3 * y + 1) c).

(** A call of [getContext('2d')] that gave [null]. *)
Definition contextAllocationFailed (en : entry canvasE) : bool :=
  match en with
  | @Entry _ X ev o =>
      match ev in canvasE X return outcome X → bool with
      | GetContext2d _ => λ o, match o with Normal None => true | _ => false end
      | _ => λ _, false
      end o
  end.

(** What [toDataURL] returned, call by call. *)
Definition dataURL (en : entry canvasE) : option string :=
  match en with
  | @Entry _ X ev o =>
      match ev in canvasE X return outcome X → option string with
      | ToDataURL _ => λ o, match o with Normal url => Some url | Thrown _ => None end
      | _ => λ _, None
      end o
  end.
Definition dataURLs (tr : list (entry canvasE)) : list string := omap dataURL tr.

(** [isSupported] saw a context and found [canvas.toDataURL]. *)
Definition foundToDataURL (en : entry canvasE) : bool :=
  match en with
  | @Entry _ X ev o =>
      match ev in canvasE X return outcome X → bool with
      | HasToDataURL _ => λ o, match o with Normal true => true | _ => false end
      | _ => λ _, false
      end o
  end.

(** The calls that only [renderGeometryImage] makes. *)
Definition geometrySceneCall (en : entry canvasE) : bool :=
  match en with
  | Entry (SetWidth _ 122) _ | Entry (SetHeight _ 110) _
  | Entry (SetGlobalCompositeOperation _ _) _ | Entry (BeginPath _) _
  | Entry (Arc _ _ _ _ _ _ _) _ | Entry (ClosePath _) _ | Entry (Fill _ _) _ => true
  | _ => false
  end.

Definition notGetContext2d (X : Type) (ev : canvasE X) : bool :=
  match ev with
  | GetContext2d _ => false
  | _ => true
  end.

(** The run ended with [canvas.toDataURL()], and its outcome is the
    outcome of the run. *)
Definition returnsDirectReadback (canvas : HTMLCanvasElement)
    (tr : list (entry canvasE)) (r : outcome string) : Prop :=
  last tr = Some (Entry (ToDataURL canvas) r).

(** The calls of [makeCanvasContext] and [isSupported]. *)
Definition setupCall (en : entry canvasE) : bool :=
  match en with
  | Entry CreateCanvas _ | Entry (SetWidth _ _) _ | Entry (SetHeight _ _) _
  | Entry (GetContext2d _) _ | Entry (HasToDataURL _) _ => true
  | _ => false
  end.

(** What [isPointInPath] answered, call by call. *)
Definition pointInPath (en : entry canvasE) : option bool :=
  match en with
  | @Entry _ X ev o =>
      match ev in canvasE X return outcome X → option bool with
      | IsPointInPath _ _ _ _ => λ o, match o with Normal b => Some b | Thrown _ => None end
      | _ => λ _, None
      end o
  end.

Definition unsupported : CanvasFingerprint :=
  {| winding := false; geometry := ImageStatus.Unsupported; text := ImageStatus.Unsupported |}.

(** Step 7 of [getDenoisedCanvasData] when the output context is
    there: the calls and what they answered. *)
Definition outputStage (outputCanvas : HTMLCanvasElement)
    (outputContext : CanvasRenderingContext2D) (outputImageData : ImageData)
    (originalWidth originalHeight : nat) (denoisedData : u8array) (url : string)
  : list (entry canvasE) :=
  [ Entry CreateCanvas (Normal outputCanvas);
    Entry (SetWidth outputCanvas originalWidth) (Normal tt);
    Entry (SetHeight outputCanvas originalHeight) (Normal tt);
    Entry (GetContext2d outputCanvas) (Normal (Some outputContext));
    Entry (CreateImageData outputContext originalWidth originalHeight) (Normal outputImageData);
    Entry (ImageDataSet outputImageData denoisedData) (Normal tt);
    Entry (PutImageData outputContext outputImageData 0 0) (Normal tt);
    Entry (ToDataURL outputCanvas) (Normal url) ].

(** The block centers of a [W] by [H] image in a readback of its
    3-fold enlargement: the only bytes step 6 reads. *)
Definition sameCenters (W H : nat) (d1 d2 : u8array) : Prop :=
  ∀ x y c, x < W → y < H → c < 4 →
    pixelChannel d1 (3 * W) (3 * x + 1) (3 * y + 1) c
    = pixelChannel d2 (3 * W) (3 * x + 1) (3 * y + 1) c.

(** The opening shared by [getUnstableCanvasFingerprint] and
    [getNoiseResistantCanvasFingerprint]: make the canvas, test the
    support, and go on with [supported] or return [otherwise]. *)
Definition withCanvas {R} (otherwise : R)
    (supported : HTMLCanvasElement → CanvasRenderingContext2D → prog canvasE R) : prog canvasE R :=
  '(canvas, context) ← makeCanvasContext;
  found ← isSupported canvas context;
  match found with
  | None => mret otherwise
  | Some context => supported canvas context
  end.

(** The calls of the scenes and of the pixel loop: drawing calls and
    reads and writes of canvas sizes. *)
Definition quietCall (X : Type) (ev : canvasE X) : bool :=
  match ev with
  | CreateCanvas | GetContext2d _ | HasToDataURL _ | ToDataURL _
  | IsPointInPath _ _ _ _ | GetImageData _ _ _ _ _
  | IsWebKit | IsWebKit616OrNewer | IsSafariWebKit => false
  | _ => true
  end.

(** The calls that make a canvas or read pixels back as an array. *)
Definition scratchCall (X : Type) (ev : canvasE X) : bool :=
  match ev with
  | CreateCanvas | GetImageData _ _ _ _ _ => true
  | _ => false
  end.

Definition notScratchCall (X : Type) (ev : canvasE X) : bool := negb (scratchCall X ev).

(** The calls of [makeCanvasContext], [isSupported] and
    [doesSupportWinding] on a canvas that is supported, [inside] being
    what [isPointInPath] answered. *)
Definition opening (canvas : HTMLCanvasElement) (context : CanvasRenderingContext2D)
    (inside : bool) : list (entry canvasE) :=
  [ Entry CreateCanvas (Normal canvas);
    Entry (SetWidth canvas 1) (Normal tt);
    Entry (SetHeight canvas 1) (Normal tt);
    Entry (GetContext2d canvas) (Normal (Some context));
    Entry (HasToDataURL canvas) (Normal true);
    Entry (Rect context 0 0 10 10) (Normal tt);
    Entry (Rect context 2 2 6 6) (Normal tt);
    Entry (IsPointInPath context 5 5 "evenodd") (Normal inside) ].

(** [canvas.toDataURL()] gave [url]. *)
Definition encoding (canvas : HTMLCanvasElement) (url : string) : entry canvasE :=
  Entry (ToDataURL canvas) (Normal url).

(** Steps 1 to 5 of [getDenoisedCanvasData] after the scene, when the
    scaled canvas gets its context: the calls and what they
    answered. *)
Definition scalingStage (canvas : HTMLCanvasElement) (originalWidth originalHeight : nat)
    (scaledCanvas : HTMLCanvasElement) (scaledContext : CanvasRenderingContext2D)
    (dw dh sw sh : nat) (scaledImageData : u8array) : list (entry canvasE) :=
  [ Entry (GetWidth canvas) (Normal originalWidth);
    Entry (GetHeight canvas) (Normal originalHeight);
    Entry CreateCanvas (Normal scaledCanvas);
    Entry (SetWidth scaledCanvas (originalWidth * DENOISE_SCALE)) (Normal tt);
    Entry (SetHeight scaledCanvas (originalHeight * DENOISE_SCALE)) (Normal tt);
    Entry (GetContext2d scaledCanvas) (Normal (Some scaledContext));
    Entry (SetImageSmoothingEnabled scaledContext false) (Normal tt);
    Entry (GetWidth scaledCanvas) (Normal dw);
    Entry (GetHeight scaledCanvas) (Normal dh);
    Entry (DrawImage scaledContext canvas 0 0 dw dh) (Normal tt);
    Entry (GetWidth scaledCanvas) (Normal sw);
    Entry (GetHeight scaledCanvas) (Normal sh);
    Entry (GetImageData scaledContext 0 0 sw sh) (Normal scaledImageData) ].

(** Reads of [c.width] that gave [widths], one after the other: the
    calls of the pixel loop. *)
Definition widthReads (c : HTMLCanvasElement) (widths : list nat) : list (entry canvasE) :=
  (λ w, Entry (GetWidth c) (Normal w)) <$> widths.

(** The first [k] pixels of [d], a [W] by [H] image, in row order:
    pixel [(x, y)] holds the pixel [(3x + 1, 3y + 1)] of [scaled],
    found with the row length that was read for it, the entry of
    [widths] at its place. *)
Definition centersRead (scaled : u8array) (W H : nat) (widths : list nat) (d : u8array)
    (k : nat) : Prop :=
  length d = W * H * 4 ∧ length widths = k ∧
  ∀ x y c, x < W → y < H → c < 4 → y * W + x < k →
    ∃ scaledWidth, widths !! (y * W + x) = Some scaledWidth
      ∧ d !! ((y * W + x) * 4 + c)
        = Some (pixelChannel scaled scaledWidth (3 * x + 1) (3 * y + 1) c).

(** The value of an answer of the host.  A canvas, a context or an
    image is an object of the page: which object it is, is no part of
    the value. *)
Inductive answer : Type :=
| AUndefined
| ABoolean (b : bool)
| ANumber (n : nat)
| AString (s : string)
| ABytes (data : u8array)
| AObject
| ANull.

Definition valueOf (X : Type) (ev : canvasE X) : X → answer :=
  match ev in canvasE X return X → answer with
  | IsWebKit | IsWebKit616OrNewer | IsSafariWebKit
  | HasToDataURL _ | IsPointInPath _ _ _ _ => ABoolean
  | CreateCanvas => λ _, AObject
  | CreateImageData _ _ _ => λ _, AObject
  | GetContext2d _ => λ context, match context with Some _ => AObject | None => ANull end
  | GetWidth _ | GetHeight _ => ANumber
  | ToDataURL _ => AString
  | GetImageData _ _ _ _ _ => ABytes
  | SetWidth _ _ | SetHeight _ _ | Rect _ _ _ _ _ | SetTextBaseline _ _ | SetFillStyle _ _
  | SetFont _ _ | FillRect _ _ _ _ _ | FillText _ _ _ _ | SetGlobalCompositeOperation _ _
  | BeginPath _ | Arc _ _ _ _ _ _ _ | ClosePath _ | Fill _ _
  | SetImageSmoothingEnabled _ _ | DrawImage _ _ _ _ _ _ | ImageDataSet _ _
  | PutImageData _ _ _ _ => λ _, AUndefined
  end.

(** Two optional handles are both there or both missing. *)
Definition bothOrNeither {A B} (a : option A) (b : option B) : Prop :=
  match a, b with
  | Some _, Some _ | None, None => True
  | _, _ => False
  end.

End Canvas.

(** * screen_media_queries.ts *)
Module ScreenMediaQueries.

(** The host calls: [matchMedia(query).matches] and, as the fallback
    of the pixel ratio only, [window.devicePixelRatio] ([None] when it
    is [undefined] or [NaN]). *)
Inductive mediaE : Type → Type :=
| MatchMedia (query : string) : mediaE bool
| DevicePixelRatio : mediaE (option Qcanon.Qc).

Record ScreenMediaQueries : Type := {
  viewportWidth : Z * Z;
  viewportHeight : Z * Z;
  pixelRatio : Qcanon.Qc;
  colorBits : Z;
  orientation : option string;
  displayMode : option string;
  pointer : option string;
  hover : option string;
  anyPointer : option string;
  anyHover : option string;
  overflowBlock : option string;
  overflowInline : option string;
  update : option string;
  scripting : option string;
}.

Inductive dimension : Type := width | height.

Definition matchMedia (query : string) : prog mediaE bool :=
  call (MatchMedia query).

(** [`(${name}: ${value}px)`] *)
Definition pxQuery (name : string) (value : Z) : string :=
  "(" +:+ name +:+ ": " +:+ pretty value +:+ "px)".

(** The first [while] loop of [detectDimensionRange]; it ends with
    [low]. *)
Equations? lowerBoundLoop (minQuery : string) (low high : Z) : prog mediaE Z
  by wf (Z.to_nat (high - low)) lt :=
lowerBoundLoop minQuery low high with decide (high - low > 10)%Z := {
  | left _ =>
      matches ← matchMedia (pxQuery minQuery ((low + high) `div` 2));
      if matches : bool
      then lowerBoundLoop minQuery ((low + high) `div` 2) high
      else lowerBoundLoop minQuery low ((low + high) `div` 2)
  | right _ => mret low }.
Proof.
  all: pose proof (Z.div_mod (low + high) 2 ltac:(lia));
    pose proof (Z.mod_pos_bound (low + high) 2 ltac:(lia)); lia.
Qed.

(** The second [while] loop; it ends with [high]. *)
Equations? upperBoundLoop (maxQuery : string) (low high : Z) : prog mediaE Z
  by wf (Z.to_nat (high - low)) lt :=
upperBoundLoop maxQuery low high with decide (high - low > 10)%Z := {
  | left _ =>
      matches ← matchMedia (pxQuery maxQuery ((low + high) `div` 2));
      if matches : bool
      then upperBoundLoop maxQuery low ((low + high) `div` 2)
      else upperBoundLoop maxQuery ((low + high) `div` 2) high
  | right _ => mret high }.
Proof.
  all: pose proof (Z.div_mod (low + high) 2 ltac:(lia));
    pose proof (Z.mod_pos_bound (low + high) 2 ltac:(lia)); lia.
Qed.

Definition detectDimensionRange (dimension : dimension) : prog mediaE (Z * Z) :=
  let minQuery := match dimension with width => "min-width" | height => "min-height" end in
  let maxQuery := match dimension with width => "max-width" | height => "max-height" end in
  minValue ← lowerBoundLoop minQuery 0%Z 8192%Z;
  maxValue ← upperBoundLoop maxQuery 0%Z 8192%Z;
  mret (minValue, maxValue).

(** [for (let i = table.length - 1; i >= 0; i--)] over a table given
    from its last entry to its first: the first entry whose query
    matches is returned, [None] when the loop falls through. *)
Fixpoint probeDown {A} (query : A → string) (fromTop : list A) : prog mediaE (option A) :=
  match fromTop with
  | [] => mret None
  | x :: rest =>
      matches ← matchMedia (query x);
      if matches : bool then mret (Some x) else probeDown query rest
  end.

Definition ratio (n : Z) (d : positive) : Qcanon.Qc :=
  Qcanon.Q2Qc (QArith_base.Qmake n d).

(** The ratios, each with the text JavaScript prints for it. *)
Definition ratios : list (Qcanon.Qc * string) :=
  [ (ratio 1 2, "0.5"); (ratio 3 4, "0.75"); (ratio 1 1, "1"); (ratio 5 4, "1.25");
    (ratio 3 2, "1.5"); (ratio 7 4, "1.75"); (ratio 2 1, "2"); (ratio 9 4, "2.25");
    (ratio 5 2, "2.5"); (ratio 11 4, "2.75"); (ratio 3 1, "3"); (ratio 7 2, "3.5");
    (ratio 4 1, "4") ].

Definition detectPixelRatio : prog mediaE Qcanon.Qc :=
  found ← probeDown (λ r, "(min-resolution: " +:+ r.2 +:+ "dppx)") (reverse ratios);
  match found with
  | Some r => mret r.1
  | None =>
      (* window.devicePixelRatio || 1 *)
      dpr ← call DevicePixelRatio;
      mret (match dpr with
            | Some r => if decide (r = ratio 0 1) then ratio 1 1 else r
            | None => ratio 1 1
            end)
  end.

Definition depths : list Z := [1; 4; 8; 12; 16; 24; 30; 48]%Z.

Definition detectColorBits : prog mediaE Z :=
  found ← probeDown (λ d, "(min-color: " +:+ pretty d +:+ ")") (reverse depths);
  mret (default 0%Z found).

(** The chain of [if (matchMedia(q).matches) return v], ending with
    [return undefined]. *)
Fixpoint firstMatch (feature : string) (values : list string) : prog mediaE (option string) :=
  match values with
  | [] => mret None
  | v :: rest =>
      matches ← matchMedia ("(" +:+ feature +:+ ": " +:+ v +:+ ")");
      if matches : bool then mret (Some v) else firstMatch feature rest
  end.

Definition detectOrientation := firstMatch "orientation" ["portrait"; "landscape"].
Definition detectDisplayMode :=
  firstMatch "display-mode" ["fullscreen"; "standalone"; "minimal-ui"; "browser"].
Definition detectPointer := firstMatch "pointer" ["none"; "coarse"; "fine"].
Definition detectHover := firstMatch "hover" ["none"; "hover"].
Definition detectAnyPointer := firstMatch "any-pointer" ["fine"; "coarse"; "none"].
Definition detectAnyHover := firstMatch "any-hover" ["hover"; "none"].
Definition detectOverflowBlock := firstMatch "overflow-block" ["none"; "scroll"; "paged"].
Definition detectOverflowInline := firstMatch "overflow-inline" ["none"; "scroll"].
Definition detectUpdate := firstMatch "update" ["none"; "slow"; "fast"].
Definition detectScripting := firstMatch "scripting" ["none"; "initial-only"; "enabled"].

Definition getScreenMediaQueries : prog mediaE ScreenMediaQueries :=
  viewportWidth ← detectDimensionRange width;
  viewportHeight ← detectDimensionRange height;
  pixelRatio ← detectPixelRatio;
  colorBits ← detectColorBits;
  orientation ← detectOrientation;
  displayMode ← detectDisplayMode;
  pointer ← detectPointer;
  hover ← detectHover;
  anyPointer ← detectAnyPointer;
  anyHover ← detectAnyHover;
  overflowBlock ← detectOverflowBlock;
  overflowInline ← detectOverflowInline;
  update ← detectUpdate;
  scripting ← detectScripting;
  mret {| viewportWidth := viewportWidth; viewportHeight := viewportHeight;
          pixelRatio := pixelRatio; colorBits := colorBits;
          orientation := orientation; displayMode := displayMode;
          pointer := pointer; hover := hover;
          anyPointer := anyPointer; anyHover := anyHover;
          overflowBlock := overflowBlock; overflowInline := overflowInline;
          update := update; scripting := scripting |}.

(** [window.devicePixelRatio || 1] *)
Definition ratioOrOne (dpr : option Qcanon.Qc) : Qcanon.Qc :=
  match dpr with
  | Some r => if decide (r = ratio 0 1) then ratio 1 1 else r
  | None => ratio 1 1
  end.

(** The value of an answer of the host: all of it. *)
Inductive answer : Type :=
| AMatches (b : bool)
| ARatio (r : option Qcanon.Qc).

Definition valueOf (X : Type) (ev : mediaE X) : X → answer :=
  match ev in mediaE X return X → answer with
  | MatchMedia _ => AMatches
  | DevicePixelRatio => ARatio
  end.

End ScreenMediaQueries.

(** ** JavaScript object and truthiness helpers *)

(** [ToBoolean]: [undefined], [null], [false], [0] and the empty string
    are falsy. *)
Definition truthy (v : jsval) : bool :=
  match v with
  | VUndefined | VNull => false
  | VBool b => b
  | VNum n => negb (n =? 0)%Z
  | VStr s => negb (bool_decide (s = ""))
  | VArr _ | VObj _ => true
  end.

(** [a || b] *)
Definition jsor (a b : jsval) : jsval := if truthy a then a else b.

(** [{ ...a, ...b }]: the own properties of [b] over those of [a]. *)
Definition spread (a b : gmap string jsval) : gmap string jsval := b ∪ a.

(** [o.name] on an object literal held as its own properties. *)
Definition field (o : gmap string jsval) (name : string) : jsval :=
  default VUndefined (o !! name).

(** [v.name] on any value: a [TypeError] on [undefined] and [null]
    (V8's wording of the message), the own property of an object, and
    [undefined] for the names read here on primitives and arrays. *)
Definition getProp {E} (v : jsval) (name : string) : prog E jsval :=
  match v with
  | VUndefined =>
      Throw (JsError ("Cannot read properties of undefined (reading '" +:+ name +:+ "')"))
  | VNull =>
      Throw (JsError ("Cannot read properties of null (reading '" +:+ name +:+ "')"))
  | VObj props => Ret (field props name)
  | VBool _ | VNum _ | VStr _ | VArr _ => Ret VUndefined
  end.

(** * tls_fingerprint.ts *)
Module TLS.

Record TLSFingerprint : Type := {
  ja3 : jsval;
  ja3Full : jsval;
  ja4 : jsval;
  success : bool;
  error : option string;
}.

(** [TLSFingerprintOptions] values are object literals: a field may be
    absent, or present with any value, [undefined] included. *)
Definition defaultOptions : gmap string jsval :=
  {[ "endpoint" := VUndefined; "timeout" := VNum 3000 ]}.

(** The module state: [let configuredOptions]. *)
Record module_state : Type := { configuredOptions : gmap string jsval }.

Definition initial_state : module_state :=
  {| configuredOptions := spread defaultOptions ∅ |}.

Definition configureTLSFingerprint (options : gmap string jsval) (st : module_state)
  : module_state :=
  {| configuredOptions := spread defaultOptions options |}.

Inductive AbortController : Type := AbortControllerRef (id : nat).
Inductive TimeoutId : Type := TimeoutRef (id : nat).

(** What the source reads of a [Response]. *)
Record Response : Type := { ok : bool; status : Z; body : nat }.

Record RequestInit : Type := {
  method : string;
  signal : AbortController;
  credentials : string;
  cache : string;
}.

(** Host calls; an awaited promise that rejects is a call that
    throws. *)
Inductive tlsE : Type → Type :=
| NewAbortController : tlsE AbortController
| SetTimeoutAbort (controller : AbortController) (delay : jsval) : tlsE TimeoutId
| Fetch (input : jsval) (init : RequestInit) : tlsE Response
| ClearTimeout (id : TimeoutId) : tlsE unit
| ResponseJson (response : Response) : tlsE jsval.

Definition failure (message : string) : TLSFingerprint :=
  {| ja3 := VUndefined; ja3Full := VUndefined; ja4 := VUndefined;
     success := false; error := Some message |}.

(** [a.x || a.y || ... || undefined], the reads short-circuited. *)
Fixpoint firstTruthyProp (data : jsval) (names : list string) : prog tlsE jsval :=
  match names with
  | [] => mret VUndefined
  | name :: rest =>
      v ← getProp data name;
      if truthy v then mret v else firstTruthyProp data rest
  end.

(** [error instanceof Error ? error.message : 'Unknown error'] *)
Definition errorMessage (e : exn) : string :=
  match e with
  | JsError message => message
  | JsThrown _ => "Unknown error"
  end.

Definition getTLSFingerprint (st : module_state) : prog tlsE TLSFingerprint :=
  let endpoint := field (configuredOptions st) "endpoint" in
  let timeout := field (configuredOptions st) "timeout" in
  if negb (truthy endpoint) then
    mret (failure "No TLS fingerprint endpoint configured")
  else
    try_catch
      (controller ← call NewAbortController;
       timeoutId ← call (SetTimeoutAbort controller (jsor timeout (VNum 3000)));
       response ← call (Fetch endpoint
                          {| method := "GET"; signal := controller;
                             credentials := "omit"; cache := "no-store" |});
       call (ClearTimeout timeoutId);;
       if negb (ok response) then
         mret (failure ("HTTP " +:+ pretty (status response)))
       else
         data ← call (ResponseJson response);
         ja3 ← firstTruthyProp data ["ja3_hash"; "ja3Hash"; "ja3"];
         ja3Full ← firstTruthyProp data ["ja3_full"; "ja3Full"; "ja3_string"];
         ja4 ← firstTruthyProp data ["ja4"];
         mret {| ja3 := ja3; ja3Full := ja3Full; ja4 := ja4;
                 success := true; error := None |})
      (λ error, mret (failure (errorMessage error))).

(** ** What the facts below speak of *)

(** The response the fetch resolved with, if it did. *)
Definition fetchedResponse (en : entry tlsE) : option Response :=
  match en with
  | @Entry _ X ev o =>
      match ev in tlsE X return outcome X → option Response with
      | Fetch _ _ => λ o, match o with Normal r => Some r | Thrown _ => None end
      | _ => λ _, None
      end o
  end.
Definition fetched (tr : list (entry tlsE)) : option Response :=
  head (omap fetchedResponse tr).

(** The value [response.json()] resolved with, if it did. *)
Definition parsedBody (en : entry tlsE) : option jsval :=
  match en with
  | @Entry _ X ev o =>
      match ev in tlsE X return outcome X → option jsval with
      | ResponseJson _ => λ o, match o with Normal v => Some v | Thrown _ => None end
      | _ => λ _, None
      end o
  end.
Definition parsed (tr : list (entry tlsE)) : option jsval :=
  head (omap parsedBody tr).

(** The claim's [a | b | c]: the first of the named fields of the
    response that is truthy, [undefined] when none is. *)
Definition propOf (data : jsval) (name : string) : jsval :=
  match data with
  | VObj props => field props name
  | _ => VUndefined
  end.
Definition fieldUnion (data : jsval) (names : list string) : jsval :=
  default VUndefined (head (List.filter truthy (propOf data <$> names))).

(** The requests a run made: what [fetch] was called with. *)
Definition fetchCall (en : entry tlsE) : option (jsval * RequestInit) :=
  match en with
  | Entry (Fetch input init) _ => Some (input, init)
  | _ => None
  end.
Definition fetchCalls (tr : list (entry tlsE)) : list (jsval * RequestInit) :=
  omap fetchCall tr.

(** The timers a run armed, each with the controller it aborts, its
    delay and its id, and the timers it cleared. *)
Definition timerSet (en : entry tlsE) : option (AbortController * jsval * TimeoutId) :=
  match en with
  | @Entry _ X ev o =>
      match ev in tlsE X return outcome X → option (AbortController * jsval * TimeoutId) with
      | SetTimeoutAbort controller delay =>
          λ o, match o with Normal id => Some (controller, delay, id) | Thrown _ => None end
      | _ => λ _, None
      end o
  end.
Definition timersSet (tr : list (entry tlsE)) : list (AbortController * jsval * TimeoutId) :=
  omap timerSet tr.

Definition timerCleared (en : entry tlsE) : option TimeoutId :=
  match en with
  | Entry (ClearTimeout id) _ => Some id
  | _ => None
  end.
Definition timersCleared (tr : list (entry tlsE)) : list TimeoutId :=
  omap timerCleared tr.

(** The controllers a run made. *)
Definition controllerMade (en : entry tlsE) : option AbortController :=
  match en with
  | @Entry _ X ev o =>
      match ev in tlsE X return outcome X → option AbortController with
      | NewAbortController =>
          λ o, match o with Normal c => Some c | Thrown _ => None end
      | _ => λ _, None
      end o
  end.
Definition controllersMade (tr : list (entry tlsE)) : list AbortController :=
  omap controllerMade tr.

(** [options.name], [undefined] when the literal has no such field. *)
Definition option_ (options : gmap string jsval) (name : string) : jsval :=
  default VUndefined (options !! name).

(** The second argument of [fetch]. *)
Definition requestInit (controller : AbortController) : RequestInit :=
  {| method := "GET"; signal := controller; credentials := "omit"; cache := "no-store" |}.

(** The host's part in a run with the configuration [st] from the
    state [s], up to the end of [fetch]: it makes a controller, arms
    the timer [timeoutId], and answers the request with [answer],
    which leaves it in [s']. *)
Definition fetchAnswers {S} (h : host tlsE S) (st : module_state) (s : S)
    (answer : outcome Response) (timeoutId : TimeoutId) (s' : S) : Prop :=
  ∃ controller s1 s2,
    h _ NewAbortController s = (Normal controller, s1)
    ∧ h _ (SetTimeoutAbort controller
             (jsor (field (configuredOptions st) "timeout") (VNum 3000))) s1
      = (Normal timeoutId, s2)
    ∧ h _ (Fetch (field (configuredOptions st) "endpoint") (requestInit controller)) s2
      = (answer, s').

End TLS.

(** ** Strings and the regular expression of the candidate line *)

Definition isDigit (c : Ascii.ascii) : bool :=
  (48 <=? Ascii.nat_of_ascii c) && (Ascii.nat_of_ascii c <=? 57).

(** [[a-f0-9]] under the [i] flag *)
Definition isHexDigit (c : Ascii.ascii) : bool :=
  isDigit c
  || ((97 <=? Ascii.nat_of_ascii c) && (Ascii.nat_of_ascii c <=? 102))
  || ((65 <=? Ascii.nat_of_ascii c) && (Ascii.nat_of_ascii c <=? 70)).

Definition lowerChar (c : Ascii.ascii) : Ascii.ascii :=
  if (65 <=? Ascii.nat_of_ascii c) && (Ascii.nat_of_ascii c <=? 90)
  then Ascii.ascii_of_nat (Ascii.nat_of_ascii c + 32) else c.

(** [s.toLowerCase()] on the ASCII letters *)
Fixpoint toLowerCase (s : string) : string :=
  match s with
  | EmptyString => EmptyString
  | String c s' => String (lowerChar c) (toLowerCase s')
  end.

(** [s.startsWith(p)] *)
Fixpoint startsWith (s p : string) : bool :=
  match p, s with
  | EmptyString, _ => true
  | String _ _, EmptyString => false
  | String a p', String b s' => bool_decide (a = b) && startsWith s' p'
  end.

(** [s.includes(p)] *)
Fixpoint includes (s p : string) : bool :=
  startsWith s p ||
  match s with
  | EmptyString => false
  | String _ s' => includes s' p
  end.

(** [s.endsWith(p)] *)
Fixpoint endsWith (s p : string) : bool :=
  bool_decide (s = p) ||
  match s with
  | EmptyString => false
  | String _ s' => endsWith s' p
  end.

(** [s.split(sep)] for a one-character separator *)
Fixpoint split (sep : Ascii.ascii) (s : string) : list string :=
  match s with
  | EmptyString => [EmptyString]
  | String c s' =>
      if bool_decide (c = sep) then EmptyString :: split sep s'
      else match split sep s' with
           | first :: rest => String c first :: rest
           | [] => [String c EmptyString]
           end
  end.

(** [Number(s)] on the strings that reach it here, runs of decimal
    digits (the empty string gives 0); [None] is [NaN].  Signs,
    exponents, hexadecimal literals and blanks are not modelled. *)
Fixpoint parseDigits (acc : Z) (s : string) : option Z :=
  match s with
  | EmptyString => Some acc
  | String c s' =>
      if isDigit c then parseDigits (10 * acc + (Z.of_nat (Ascii.nat_of_ascii c) - 48)) s'
      else None
  end.
Definition Number (s : string) : option Z := parseDigits 0 s.

(** A backtracking matcher with JavaScript's priorities: alternatives
    left to right, quantifiers greedy.  [rmatch r s k] matches [r] at
    the start of [s] and hands the rest to [k]. *)
Inductive regex : Type :=
| RClass (p : Ascii.ascii → bool)
| RSeq (r1 r2 : regex)
| RAlt (r1 r2 : regex)
| RRepeat (r : regex) (min max : nat).

Fixpoint rmatch {A} (r : regex) (s : string) (k : string → option A) : option A :=
  match r with
  | RClass p =>
      match s with
      | String c s' => if p c then k s' else None
      | EmptyString => None
      end
  | RSeq r1 r2 => rmatch r1 s (λ s', rmatch r2 s' k)
  | RAlt r1 r2 =>
      match rmatch r1 s k with
      | Some x => Some x
      | None => rmatch r2 s k
      end
  | RRepeat r1 lo hi =>
      (fix rep (lo hi : nat) (s : string) {struct hi} : option A :=
         match hi with
         | 0 => if lo is 0 then k s else None
         | S hi' =>
             match rmatch r1 s (λ s', rep (pred lo) hi' s') with
             | Some x => Some x
             | None => if lo is 0 then k s else None
             end
         end) lo hi s
  end.

(** [s.match(r)] without the [g] flag: the leftmost match, as text. *)
Fixpoint regexMatch (r : regex) (s : string) : option string :=
  match rmatch r s Some with
  | Some rest => Some (String.substring 0 (String.length s - String.length rest) s)
  | None =>
      match s with
      | EmptyString => None
      | String _ s' => regexMatch r s'
      end
  end.

Definition RChar (c : Ascii.ascii) : regex := RClass (λ x, bool_decide (x = c)).

(** [/([0-9]{1,3}(\.[0-9]{1,3}){3}|[a-f0-9]{1,4}(:[a-f0-9]{1,4}){7})/i];
    group 1 spans the whole expression. *)
Definition ipRegex : regex :=
  RAlt
    (RSeq (RRepeat (RClass isDigit) 1 3)
          (RRepeat (RSeq (RChar "."%char) (RRepeat (RClass isDigit) 1 3)) 3 3))
    (RSeq (RRepeat (RClass isHexDigit) 1 4)
          (RRepeat (RSeq (RChar ":"%char) (RRepeat (RClass isHexDigit) 1 4)) 7 7)).

(** The strings a regular expression matches: what [rmatch] can
    consume. *)
Inductive matches : regex → string → Prop :=
| matches_class p c : p c = true → matches (RClass p) (String c EmptyString)
| matches_seq r1 r2 s1 s2 :
    matches r1 s1 → matches r2 s2 → matches (RSeq r1 r2) (s1 +:+ s2)
| matches_alt_l r1 r2 s : matches r1 s → matches (RAlt r1 r2) s
| matches_alt_r r1 r2 s : matches r2 s → matches (RAlt r1 r2) s
| matches_rep_0 r hi : matches (RRepeat r 0 hi) EmptyString
| matches_rep_S r lo hi s1 s2 :
    matches r s1 → matches (RRepeat r (pred lo) hi) s2 →
    matches (RRepeat r lo (S hi)) (s1 +:+ s2).

(** One to three decimal digits. *)
Definition digitGroup (s : string) : Prop :=
  1 ≤ String.length s ≤ 3 ∧ forallb isDigit (String.list_ascii_of_string s) = true.

(** Four groups of one to three decimal digits, with dots between
    them. *)
Definition fourDigitGroups (ip : string) : Prop :=
  ∃ a b c d, ip = a +:+ "." +:+ b +:+ "." +:+ c +:+ "." +:+ d
    ∧ digitGroup a ∧ digitGroup b ∧ digitGroup c ∧ digitGroup d.

(** [`${a}.${b}.${c}.${d}`] *)
Definition dottedQuad (a b c d : Z) : string :=
  pretty a +:+ "." +:+ pretty b +:+ "." +:+ pretty c +:+ "." +:+ pretty d.

(** The last character of a string. *)
Fixpoint lastChar (s : string) : option Ascii.ascii :=
  match s with
  | EmptyString => None
  | String c EmptyString => Some c
  | String _ s' => lastChar s'
  end.

(** * webrtc_ips.ts *)
Module WebRTC.

Record WebRTCIPs : Type := {
  localIPv4 : list string;
  localIPv6 : list string;
  supported : bool;
}.

Inductive PeerConnectionCtor : Type := CtorRef (id : nat).
Inductive PeerConnection : Type := PeerConnectionRef (id : nat).

(** [window] seen as [WindowWithRTC]. *)
Record WindowWithRTC : Type := {
  RTCPeerConnection : option PeerConnectionCtor;
  webkitRTCPeerConnection : option PeerConnectionCtor;
  mozRTCPeerConnection : option PeerConnectionCtor;
}.

(** [Check if an IPv4 address is in private ranges.] *)
Definition isPrivateIPv4 (ip : string) : bool :=
  let parts := Number <$> split "."%char ip in
  let part (i : nat) : option Z := mjoin (parts !! i) in
  if negb (bool_decide (length parts = 4)) then false
  else if bool_decide (part 0 = Some 10%Z) then true
  else if bool_decide (part 0 = Some 172%Z)
          && from_option (λ n, bool_decide (16 ≤ n)%Z) false (part 1)
          && from_option (λ n, bool_decide (n ≤ 31)%Z) false (part 1) then true
  else if bool_decide (part 0 = Some 192%Z) && bool_decide (part 1 = Some 168%Z) then true
  else if bool_decide (part 0 = Some 169%Z) && bool_decide (part 1 = Some 254%Z) then true
  else false.

(** [Check if an IPv6 address is link-local (fe80::/10).] *)
Definition isLinkLocalIPv6 (ip : string) : bool :=
  startsWith (toLowerCase ip) "fe80:".

(** Where the chain [pc.createOffer().then(..).catch(..)] stands. *)
Inductive offerChain : Type :=
| NoChain
| AwaitingOffer (pc : PeerConnection)
| AwaitingLocalDescription (pc : PeerConnection).

(** What lives in the closure of the promise executor and in the
    JavaScript runtime around it.  [result] is one object: the
    promise is resolved with a reference to it, so what the consumer
    holds is [result] as it is now. *)
Record local : Type := {
  result : WebRTCIPs;
  seenIPs : gset string;
  resolved : bool;
  (* the timer of [setTimeout(finish, 1000)] is pending *)
  timerArmed : bool;
  (* the connection whose [onicecandidate] was assigned *)
  onicecandidateOf : option PeerConnection;
  (* the connection whose [onicegatheringstatechange] was assigned *)
  onicegatheringstatechangeOf : option PeerConnection;
  chain : offerChain;
  (* number of calls of the promise's [resolve] *)
  resolveCalls : nat;
  (* [result] as it was at the first call of [resolve] *)
  settledWith : option WebRTCIPs;
}.

Definition initial : local :=
  {| result := {| localIPv4 := []; localIPv6 := []; supported := false |};
     seenIPs := ∅; resolved := false; timerArmed := false;
     onicecandidateOf := None; onicegatheringstatechangeOf := None;
     chain := NoChain; resolveCalls := 0; settledWith := None |}.

Definition setResult (r : WebRTCIPs) (l : local) : local :=
  {| result := r; seenIPs := seenIPs l; resolved := resolved l;
     timerArmed := timerArmed l; onicecandidateOf := onicecandidateOf l;
     onicegatheringstatechangeOf := onicegatheringstatechangeOf l;
     chain := chain l; resolveCalls := resolveCalls l; settledWith := settledWith l |}.

Definition setSeenIPs (seen : gset string) (l : local) : local :=
  {| result := result l; seenIPs := seen; resolved := resolved l;
     timerArmed := timerArmed l; onicecandidateOf := onicecandidateOf l;
     onicegatheringstatechangeOf := onicegatheringstatechangeOf l;
     chain := chain l; resolveCalls := resolveCalls l; settledWith := settledWith l |}.

Definition setResolved (v : bool) (l : local) : local :=
  {| result := result l; seenIPs := seenIPs l; resolved := v;
     timerArmed := timerArmed l; onicecandidateOf := onicecandidateOf l;
     onicegatheringstatechangeOf := onicegatheringstatechangeOf l;
     chain := chain l; resolveCalls := resolveCalls l; settledWith := settledWith l |}.

Definition setTimerArmed (v : bool) (l : local) : local :=
  {| result := result l; seenIPs := seenIPs l; resolved := resolved l;
     timerArmed := v; onicecandidateOf := onicecandidateOf l;
     onicegatheringstatechangeOf := onicegatheringstatechangeOf l;
     chain := chain l; resolveCalls := resolveCalls l; settledWith := settledWith l |}.

Definition setHandlers (candidate gathering : option PeerConnection) (l : local) : local :=
  {| result := result l; seenIPs := seenIPs l; resolved := resolved l;
     timerArmed := timerArmed l; onicecandidateOf := candidate;
     onicegatheringstatechangeOf := gathering;
     chain := chain l; resolveCalls := resolveCalls l; settledWith := settledWith l |}.

Definition setChain (c : offerChain) (l : local) : local :=
  {| result := result l; seenIPs := seenIPs l; resolved := resolved l;
     timerArmed := timerArmed l; onicecandidateOf := onicecandidateOf l;
     onicegatheringstatechangeOf := onicegatheringstatechangeOf l;
     chain := c; resolveCalls := resolveCalls l; settledWith := settledWith l |}.

(** A call of the promise's [resolve] with [result]; only the first
    one settles the promise. *)
Definition resolveWithResult (l : local) : local :=
  {| result := result l; seenIPs := seenIPs l; resolved := resolved l;
     timerArmed := timerArmed l; onicecandidateOf := onicecandidateOf l;
     onicegatheringstatechangeOf := onicegatheringstatechangeOf l;
     chain := chain l; resolveCalls := S (resolveCalls l);
     settledWith := match settledWith l with
                    | Some r => Some r
                    | None => Some (result l)
                    end |}.

(** Reads and writes of the closure and calls into the runtime; none
    of them throws. *)
Inductive localE : Type → Type :=
| SetSupported (v : bool) : localE unit
| GetResolved : localE bool
| SetResolved (v : bool) : localE unit
| Resolve : localE unit
| SeenHas (ip : string) : localE bool
| SeenAdd (ip : string) : localE unit
| PushIPv4 (ip : string) : localE unit
| PushIPv6 (ip : string) : localE unit
| SetTimeoutFinish (ms : Z) : localE unit
| ClearTimeout : localE unit
| SetOnIceCandidate (pc : PeerConnection) : localE unit
| SetOnIceGatheringStateChange (pc : PeerConnection) : localE unit
| ThenCatch (pc : PeerConnection) : localE unit
| ThenReturned (pc : PeerConnection) : localE unit.

(** Calls into the browser's WebRTC implementation; each may throw. *)
Inductive hostE : Type → Type :=
| NewPeerConnection (ctor : PeerConnectionCtor) (stunUrl : string) : hostE PeerConnection
| CreateDataChannel (pc : PeerConnection) (label : string) : hostE unit
| CreateOffer (pc : PeerConnection) : hostE unit
| SetLocalDescription (pc : PeerConnection) : hostE unit
| Close (pc : PeerConnection) : hostE unit
| IceGatheringState (pc : PeerConnection) : hostE string.

Inductive rtcE (X : Type) : Type :=
| Local (e : localE X)
| Host (e : hostE X).
Arguments Local {X} e.
Arguments Host {X} e.

Definition stepLocal {X} (e : localE X) (l : local) : X * local :=
  match e in localE X return X * local with
  | SetSupported v =>
      (tt, setResult {| localIPv4 := localIPv4 (result l);
                        localIPv6 := localIPv6 (result l); supported := v |} l)
  | GetResolved => (resolved l, l)
  | SetResolved v => (tt, setResolved v l)
  | Resolve => (tt, resolveWithResult l)
  | SeenHas ip => (bool_decide (ip ∈ seenIPs l), l)
  | SeenAdd ip => (tt, setSeenIPs ({[ ip ]} ∪ seenIPs l) l)
  | PushIPv4 ip =>
      (tt, setResult {| localIPv4 := localIPv4 (result l) ++ [ip];
                        localIPv6 := localIPv6 (result l);
                        supported := supported (result l) |} l)
  | PushIPv6 ip =>
      (tt, setResult {| localIPv4 := localIPv4 (result l);
                        localIPv6 := localIPv6 (result l) ++ [ip];
                        supported := supported (result l) |} l)
  | SetTimeoutFinish _ => (tt, setTimerArmed true l)
  | ClearTimeout => (tt, setTimerArmed false l)
  | SetOnIceCandidate pc => (tt, setHandlers (Some pc) (onicegatheringstatechangeOf l) l)
  | SetOnIceGatheringStateChange pc => (tt, setHandlers (onicecandidateOf l) (Some pc) l)
  | ThenCatch pc => (tt, setChain (AwaitingOffer pc) l)
  | ThenReturned pc => (tt, setChain (AwaitingLocalDescription pc) l)
  end.

(** The handler of a WebRTC run: the closure and runtime answer the
    local calls, the browser [h] the others. *)
Definition handle {S} (h : host hostE S) : host rtcE (local * S) :=
  λ X e w,
    match e with
    | Local e' => let '(x, l') := stepLocal e' w.1 in (Normal x, (l', w.2))
    | Host e' => let '(o, s') := h X e' w.2 in (o, (w.1, s'))
    end.

Definition finish : prog rtcE unit :=
  resolved ← call (Local GetResolved);
  if negb resolved then
    call (Local (SetResolved true));;
    call (Local Resolve)
  else mret tt.

(** [pc.onicecandidate], [event.candidate] being [null] or an object
    with the candidate line. *)
Definition onicecandidate (pc : PeerConnection) (candidate : option string)
  : prog rtcE unit :=
  match candidate with
  | None =>
      call (Local ClearTimeout);;
      call (Host (Close pc));;
      finish
  | Some candidate =>
      match regexMatch ipRegex candidate with
      | Some ip =>
          seen ← call (Local (SeenHas ip));
          if seen : bool then mret tt else
          call (Local (SeenAdd ip));;
          if endsWith ip ".local" then mret tt else
          if includes ip ":" then
            if negb (isLinkLocalIPv6 ip) then call (Local (PushIPv6 ip)) else mret tt
          else
            if isPrivateIPv4 ip then call (Local (PushIPv4 ip)) else mret tt
      | None => mret tt
      end
  end.

Definition onicegatheringstatechange (pc : PeerConnection) : prog rtcE unit :=
  state ← call (Host (IceGatheringState pc));
  if bool_decide (state = "complete") then
    call (Local ClearTimeout);;
    call (Host (Close pc));;
    finish
  else mret tt.

(** The [.catch] callback of the offer chain. *)
Definition offerCatch : prog rtcE unit :=
  call (Local ClearTimeout);;
  finish.

(** The [.then] callback of the offer chain, with the [.catch] behind
    it: a throw of [setLocalDescription] goes to the [.catch] at once,
    the promise it returns is awaited by the chain. *)
Definition offerThen (pc : PeerConnection) : prog rtcE unit :=
  try_catch
    (call (Host (SetLocalDescription pc));;
     call (Local (ThenReturned pc)))
    (λ _, offerCatch).

(** The executor passed to [new Promise]; a throw that leaves it
    rejects the promise. *)
Definition getWebRTCIPs (window : WindowWithRTC) : prog rtcE unit :=
  let PeerConnection :=
    (* a || b || c on values that are objects or undefined *)
    match RTCPeerConnection window with
    | Some c => Some c
    | None =>
        match webkitRTCPeerConnection window with
        | Some c => Some c
        | None => mozRTCPeerConnection window
        end
    end in
  match PeerConnection with
  | None => call (Local Resolve)
  | Some PeerConnection =>
      call (Local (SetSupported true));;
      call (Local (SetTimeoutFinish 1000));;
      try_catch
        (pc ← call (Host (NewPeerConnection PeerConnection "stun:stun.l.google.com:19302"));
         call (Local (SetOnIceCandidate pc));;
         call (Local (SetOnIceGatheringStateChange pc));;
         call (Host (CreateDataChannel pc ""));;
         call (Host (CreateOffer pc));;
         call (Local (ThenCatch pc)))
        (λ _, call (Local ClearTimeout);; finish)
  end.

(** What the event loop can deliver once the executor has returned. *)
Inductive asyncEvent : Type :=
| TimerFired
| IceCandidate (candidate : option string)
| IceGatheringStateChange
| OfferResolved
| LocalDescriptionSet
| OfferChainRejected.

(** The callback an event runs, and the bookkeeping of its delivery:
    a timer fires once and only while pending, a handler runs only
    once assigned, the offer chain moves on or settles. *)
Definition callbackOf (a : asyncEvent) (l : local) : option (prog rtcE unit * local) :=
  match a with
  | TimerFired =>
      if timerArmed l then Some (finish, setTimerArmed false l) else None
  | IceCandidate candidate =>
      (λ pc, (onicecandidate pc candidate, l)) <$> onicecandidateOf l
  | IceGatheringStateChange =>
      (λ pc, (onicegatheringstatechange pc, l)) <$> onicegatheringstatechangeOf l
  | OfferResolved =>
      match chain l with
      | AwaitingOffer pc => Some (offerThen pc, setChain NoChain l)
      | _ => None
      end
  | LocalDescriptionSet =>
      match chain l with
      | AwaitingLocalDescription pc => Some (mret tt, setChain NoChain l)
      | _ => None
      end
  | OfferChainRejected =>
      match chain l with
      | AwaitingOffer _ | AwaitingLocalDescription _ => Some (offerCatch, setChain NoChain l)
      | NoChain => None
      end
  end.

(** One turn of the event loop; a throw that leaves a callback is
    reported by the runtime and changes nothing else. *)
Definition deliver {S} (h : host hostE S) (a : asyncEvent) (w : local * S) : local * S :=
  match callbackOf a w.1 with
  | Some (callback, l) => final (handle h) callback (l, w.2)
  | None => w
  end.

(** A page: the call of [getWebRTCIPs] and the events delivered after
    it. *)
Definition promiseRejected {S} (h : host hostE S) (window : WindowWithRTC) (s : S) : bool :=
  match yield (handle h) (getWebRTCIPs window) (initial, s) with
  | Normal _ => false
  | Thrown _ => true
  end.

Definition afterCall {S} (h : host hostE S) (window : WindowWithRTC) (s : S) : local * S :=
  final (handle h) (getWebRTCIPs window) (initial, s).

Definition afterEvents {S} (h : host hostE S) (window : WindowWithRTC) (s : S)
    (events : list asyncEvent) : local * S :=
  foldl (λ w a, deliver h a w) (afterCall h window s) events.

(** ** What the facts below speak of *)

(** The addresses collected so far. *)
Definition collected (l : local) : list string :=
  localIPv4 (result l) ++ localIPv6 (result l).

(** The claim's ranges, on an address read as four octets: a dotted
    quad is four runs of digits, each at most 255, and it lies in a
    block when its leading bits are those of the block. *)
Definition octets (ip : string) : option (Z * Z * Z * Z) :=
  match split "."%char ip with
  | [a; b; c; d] =>
      if forallb (λ s, negb (bool_decide (s = "")) && forallb isDigit (String.list_ascii_of_string s))
           [a; b; c; d]
      then
        match Number a, Number b, Number c, Number d with
        | Some a, Some b, Some c, Some d =>
            if forallb (λ n, bool_decide (n ≤ 255)%Z) [a; b; c; d]
            then Some (a, b, c, d) else None
        | _, _, _, _ => None
        end
      else None
  | _ => None
  end.

Definition address (o : Z * Z * Z * Z) : Z :=
  let '(a, b, c, d) := o in (((a * 256 + b) * 256 + c) * 256 + d)%Z.

(** [base/len]: the addresses whose first [len] bits are those of
    [base]. *)
Definition inBlock (base : Z * Z * Z * Z) (len : Z) (ip : string) : bool :=
  match octets ip with
  | Some o => bool_decide (address o `div` 2 ^ (32 - len) = address base `div` 2 ^ (32 - len))%Z
  | None => false
  end.

Definition inPrivateRange (ip : string) : bool :=
  inBlock (10, 0, 0, 0)%Z 8 ip || inBlock (172, 16, 0, 0)%Z 12 ip
  || inBlock (192, 168, 0, 0)%Z 16 ip || inBlock (169, 254, 0, 0)%Z 16 ip.

(** No timer is pending and no callback is installed: nothing can run
    any more. *)
Definition dormant (l : local) : Prop :=
  timerArmed l = false ∧ onicecandidateOf l = None
  ∧ onicegatheringstatechangeOf l = None ∧ chain l = NoChain.

(** The guard of [finish]: [resolve] was called once and [resolved] is
    set, or it was not called and [resolved] is not set; the call that
    found no constructor resolved once and left nothing to run. *)
Definition guarded (l : local) : Prop :=
  (resolved l = true ∧ resolveCalls l = 1)
  ∨ (resolved l = false ∧ resolveCalls l = 0)
  ∨ (dormant l ∧ resolveCalls l = 1 ∧ supported (result l) = false).

(** What [isPrivateIPv4] looks at: four fields between the dots, of
    which the first reads 10, or the first two read 172 and 16 to 31,
    192 and 168, or 169 and 254. *)
Definition selectsPrivateRange (a b : string) : Prop :=
  Number a = Some 10%Z
  ∨ (Number a = Some 172%Z ∧ ∃ n, Number b = Some n ∧ (16 ≤ n ≤ 31)%Z)
  ∨ (Number a = Some 192%Z ∧ Number b = Some 168%Z)
  ∨ (Number a = Some 169%Z ∧ Number b = Some 254%Z).

Definition fieldsPrivate (ip : string) : Prop :=
  ∃ a b c d, split "."%char ip = [a; b; c; d] ∧ selectsPrivateRange a b.

(** What an element of [localIPv4] is: four groups of one to three
    decimal digits with dots between them, the first two of which
    select one of the four ranges.  No group is checked to be an
    octet. *)
Definition loosePrivateQuad (ip : string) : Prop :=
  ∃ a b c d, ip = a +:+ "." +:+ b +:+ "." +:+ c +:+ "." +:+ d
    ∧ digitGroup a ∧ digitGroup b ∧ digitGroup c ∧ digitGroup d
    ∧ selectsPrivateRange a b.

(** The addresses of [result]: no duplicates within or across the two
    lists, each one recorded in [seenIPs], the IPv4 ones loose quads
    of a private range, the IPv6 ones not starting with [fe80:] in any
    letter case. *)
Definition addressesOk (l : local) : Prop :=
  NoDup (collected l)
  ∧ (∀ ip, ip ∈ collected l → ip ∈ seenIPs l)
  ∧ Forall loosePrivateQuad (localIPv4 (result l))
  ∧ Forall (λ ip, startsWith (toLowerCase ip) "fe80:" = false) (localIPv6 (result l)).

(** No constructor under any of the three names. *)
Definition noPeerConnection (window : WindowWithRTC) : Prop :=
  RTCPeerConnection window = None ∧ webkitRTCPeerConnection window = None
  ∧ mozRTCPeerConnection window = None.

(** What holds of the closure between any two turns of the event
    loop. *)
Definition invariant (l : local) : Prop := guarded l ∧ addressesOk l.

(** The promise is pending with the timer armed, or settled with the
    timer gone. *)
Definition settles (l : local) : Prop :=
  (timerArmed l = true ∧ settledWith l = None ∧ resolved l = false)
  ∨ (timerArmed l = false ∧ is_Some (settledWith l)).

(** The connections a run closed. *)
Definition closeOf (en : entry rtcE) : option PeerConnection :=
  match en with
  | Entry (Host (Close pc)) _ => Some pc
  | _ => None
  end.
Definition closes (tr : list (entry rtcE)) : list PeerConnection := omap closeOf tr.

End WebRTC.

(** * JavaScript numbers *)

(** A Number is an IEEE 754 binary64 value; the operations are those
    of the standard library's executable specification of the format
    (round to nearest, ties to even), with one NaN. *)
Definition number : Type := spec_float.

Global Instance number_eq_dec : EqDecision number.
Proof. solve_decision. Defined.

Module Float64.
(** The Number of an integer literal, and of any integer: exact up to
    2^53. *)
Definition ofZ (n : Z) : number := binary_normalize 53 1024 n 0 false.
Definition mul (x y : number) : number := SFmul 53 1024 x y.
Definition div (x y : number) : number := SFdiv 53 1024 x y.

Definition NaN : number := S754_nan.
Definition POSITIVE_INFINITY : number := S754_infinity false.
Definition NEGATIVE_INFINITY : number := S754_infinity true.
End Float64.

(** [isNaN(x)] and [isFinite(x)] on a Float64. *)
Definition isNaN (x : number) : bool :=
  match x with S754_nan => true | _ => false end.
Definition isFinite (x : number) : bool :=
  match x with S754_nan | S754_infinity _ => false | _ => true end.

Module Math.
(** [Math.floor(x)] is not needed; [Math.round(x)]: [x] itself when it
    is not finite or is an integer, and otherwise the integer nearest
    to [x], the larger one on a tie; a result of zero keeps the sign
    of [x].  The value of a finite [x] is [± m * 2^e], so the nearest
    integer is computed on integers. *)
Definition round (x : number) : number :=
  match x with
  | S754_finite s m e =>
      if (0 <=? e)%Z then x
      else
        let scale := (2 ^ (- e))%Z in
        if (Z.pos m `mod` scale =? 0)%Z then x
        else
          let signed := (if s then Z.neg m else Z.pos m) in
          let n := ((2 * signed + scale) `div` (2 * scale))%Z in
          if (n =? 0)%Z then S754_zero s else Float64.ofZ n
  | _ => x
  end.
End Math.

(** * battery.ts *)
Module Battery.

Record BatteryInfo : Type := {
  charging : option bool;
  level : option number;
  chargingTime : option number;
  dischargingTime : option number;
}.

Module BatteryManager.
Record BatteryManager : Type := {
  charging : bool;
  level : number;
  chargingTime : number;
  dischargingTime : number;
}.
End BatteryManager.
Abbreviation BatteryManager := BatteryManager.BatteryManager.

(** The function [navigator.getBattery], when the browser has it. *)
Inductive GetBatteryFn : Type := GetBatteryRef (id : nat).

Record NavigatorWithBattery : Type := {
  getBattery : option GetBatteryFn;
}.

(** The one host call: [await nav.getBattery()]; a promise that
    rejects is a call that throws. *)
Inductive batteryE : Type → Type :=
| AwaitGetBattery (fn : GetBatteryFn) : batteryE BatteryManager.

Definition roundBatteryLevel (level : number) : number :=
  Float64.div (Math.round (Float64.mul level (Float64.ofZ 20))) (Float64.ofZ 20).

Definition normalizeTime (time : number) : option number :=
  if negb (isFinite time) || isNaN time then None
  else Some (Float64.mul (Math.round (Float64.div time (Float64.ofZ 60))) (Float64.ofZ 60)).

Definition unavailable : BatteryInfo :=
  {| charging := None; level := None; chargingTime := None; dischargingTime := None |}.

Definition getBatteryInfo (nav : NavigatorWithBattery) : prog batteryE BatteryInfo :=
  match getBattery nav with
  | None => mret unavailable
  | Some getBattery =>
      try_catch
        (battery ← call (AwaitGetBattery getBattery);
         mret {| charging := Some (BatteryManager.charging battery);
                 level := Some (roundBatteryLevel (BatteryManager.level battery));
                 chargingTime := normalizeTime (BatteryManager.chargingTime battery);
                 dischargingTime := normalizeTime (BatteryManager.dischargingTime battery) |})
        (λ _, mret unavailable)
  end.

End Battery.

(** * The Network Information source (in tls_fingerprint.ts) *)
Module Network.

Record NetworkInformation : Type := {
  type : option string;
  effectiveType : option string;
  downlink : option number;
  downlinkMax : option number;
  rtt : option number;
  saveData : option bool;
}.

(** [NetworkConnectionInfo] has the same six optional fields. *)
Definition NetworkConnectionInfo : Type := NetworkInformation.

Record NavigatorNetworkInfo : Type := {
  connection : option NetworkConnectionInfo;
  mozConnection : option NetworkConnectionInfo;
  webkitConnection : option NetworkConnectionInfo;
}.

Definition roundRtt (rtt : option number) : option number :=
  match rtt with
  | None => None
  | Some rtt => Some (Float64.mul (Math.round (Float64.div rtt (Float64.ofZ 25))) (Float64.ofZ 25))
  end.

Definition getNetworkInformation (nav : NavigatorNetworkInfo) : NetworkInformation :=
  let connection :=
    (* a || b || c on values that are objects or undefined *)
    match connection nav with
    | Some c => Some c
    | None =>
        match mozConnection nav with
        | Some c => Some c
        | None => webkitConnection nav
        end
    end in
  match connection with
  | None =>
      {| type := None; effectiveType := None; downlink := None; downlinkMax := None;
         rtt := None; saveData := None |}
  | Some connection =>
      {| type := type connection;
         effectiveType := effectiveType connection;
         downlink := downlink connection;
         downlinkMax := downlinkMax connection;
         rtt := roundRtt (rtt connection);
         saveData := saveData connection |}
  end.

End Network.

(** * Browsers to run the sources against *)
Module Browsers.
Import Canvas.

(** A browser for canvas.ts.  It numbers the canvases it creates,
    keeps their sizes (a size above 8 is stored as 2, so that runs
    stay small), answers readbacks from the canvas number and size
    and, when [noisy], from the number of readbacks so far. *)
Record profile : Type := {
  safari17 : bool;
  noisy : bool;
  getImageDataThrows : bool;
  hasContext : nat → bool;
}.

Record dom : Type := {
  sizes : list (nat * nat);
  readbacks : nat;
}.

Definition emptyDom : dom := {| sizes := []; readbacks := 0 |}.

Definition stored (n : nat) : nat := if n <=? 8 then n else 2.

Definition sizeOf (d : dom) (c : HTMLCanvasElement) : nat * nat :=
  let 'CanvasRef id := c in default (300, 150) (sizes d !! id).

Definition resize (f : nat * nat → nat * nat) (c : HTMLCanvasElement) (d : dom) : dom :=
  let 'CanvasRef id := c in
  {| sizes := alter f id (sizes d); readbacks := readbacks d |}.

Definition pixelByte (i : nat) : Byte.byte :=
  default Byte.x00 (Byte.of_nat (i `mod` 251)).

Definition encoded (p : profile) (d : dom) (c : HTMLCanvasElement) : string :=
  let 'CanvasRef id := c in
  "data:image/png;base64," +:+ pretty id +:+ "/" +:+ pretty (sizeOf d c).1
    +:+ (if noisy p then "/" +:+ pretty (readbacks d) else "").

Definition countReadback (d : dom) : dom :=
  {| sizes := sizes d; readbacks := S (readbacks d) |}.

Definition browser (p : profile) : host canvasE dom :=
  λ X ev d,
    match ev in canvasE X return outcome X * dom with
    | IsWebKit | IsWebKit616OrNewer | IsSafariWebKit => (Normal (safari17 p), d)
    | CreateCanvas =>
        (Normal (CanvasRef (length (sizes d))),
         {| sizes := sizes d ++ [(300, 150)]; readbacks := readbacks d |})
    | SetWidth c w => (Normal tt, resize (λ wh, (stored w, wh.2)) c d)
    | SetHeight c h => (Normal tt, resize (λ wh, (wh.1, stored h)) c d)
    | GetWidth c => (Normal (sizeOf d c).1, d)
    | GetHeight c => (Normal (sizeOf d c).2, d)
    | GetContext2d (CanvasRef id) =>
        (Normal (if hasContext p id then Some (ContextRef id) else None), d)
    | HasToDataURL _ => (Normal true, d)
    | ToDataURL c => (Normal (encoded p d c), countReadback d)
    | IsPointInPath _ _ _ _ => (Normal false, d)
    | GetImageData _ _ _ sw sh =>
        if getImageDataThrows p
        then (Thrown (JsError "The operation is insecure."), d)
        else (Normal (pixelByte <$> seq (if noisy p then readbacks d else 0) (sw * sh * 4)),
              countReadback d)
    | CreateImageData _ _ _ => (Normal (ImageDataRef 0), d)
    | Rect _ _ _ _ _ | SetTextBaseline _ _ | SetFillStyle _ _ | SetFont _ _
    | FillRect _ _ _ _ _ | FillText _ _ _ _ | SetGlobalCompositeOperation _ _
    | BeginPath _ | Arc _ _ _ _ _ _ _ | ClosePath _ | Fill _ _
    | SetImageSmoothingEnabled _ _ | DrawImage _ _ _ _ _ _ | ImageDataSet _ _
    | PutImageData _ _ _ _ => (Normal tt, d)
    end.

Definition chrome : profile :=
  {| safari17 := false; noisy := false; getImageDataThrows := false;
     hasContext := λ _, true |}.
Definition noisyBrowser : profile :=
  {| safari17 := false; noisy := true; getImageDataThrows := false;
     hasContext := λ _, true |}.
Definition safari : profile :=
  {| safari17 := true; noisy := false; getImageDataThrows := false;
     hasContext := λ _, true |}.
Definition safariReadbackThrows : profile :=
  {| safari17 := true; noisy := false; getImageDataThrows := true;
     hasContext := λ _, true |}.
(** Only the first canvas of the page gets a 2D context. *)
Definition safariNoScratchContext : profile :=
  {| safari17 := true; noisy := false; getImageDataThrows := false;
     hasContext := λ id, bool_decide (id = 0) |}.

(** The same browser with encodings made of what a canvas holds, here
    its size, and not of which canvas of the page it is. *)
Definition steady (p : profile) : host canvasE dom :=
  λ X ev d,
    match ev in canvasE X return outcome X * dom with
    | ToDataURL c =>
        (Normal ("data:image/png;base64," +:+ pretty (sizeOf d c).1 +:+ "x"
                 +:+ pretty (sizeOf d c).2), countReadback d)
    | ev' => browser p _ ev' d
    end.


(** A browser for screen_media_queries.ts: a viewport, and the feature
    queries that match on it.  A dimension query is answered from the
    number it holds. *)
Record viewport : Type := {
  innerWidth : Z;
  innerHeight : Z;
  devicePixelRatio : option Qcanon.Qc;
  matching : list string;
}.

Fixpoint dropPrefix (p s : string) : option string :=
  match p, s with
  | EmptyString, _ => Some s
  | String a p', String b s' => if bool_decide (a = b) then dropPrefix p' s' else None
  | String _ _, EmptyString => None
  end.

(** The number of [prefix ++ digits ++ "px)"]. *)
Definition pxValue (prefix q : string) : option Z :=
  match dropPrefix prefix q with
  | Some rest =>
      match split "p"%char rest with
      | [digits; "x)"] => if bool_decide (digits = "") then None else Number digits
      | _ => None
      end
  | None => None
  end.

Definition matchesOn (v : viewport) (q : string) : bool :=
  match pxValue "(min-width: " q, pxValue "(max-width: " q,
        pxValue "(min-height: " q, pxValue "(max-height: " q with
  | Some m, _, _, _ => bool_decide (m ≤ innerWidth v)%Z
  | _, Some m, _, _ => bool_decide (innerWidth v ≤ m)%Z
  | _, _, Some m, _ => bool_decide (m ≤ innerHeight v)%Z
  | _, _, _, Some m => bool_decide (innerHeight v ≤ m)%Z
  | _, _, _, _ => bool_decide (q ∈ matching v)
  end.

Definition mediaBrowser (v : viewport) : host ScreenMediaQueries.mediaE unit :=
  λ X ev s,
    match ev in ScreenMediaQueries.mediaE X return outcome X * unit with
    | ScreenMediaQueries.MatchMedia q => (Normal (matchesOn v q), s)
    | ScreenMediaQueries.DevicePixelRatio => (Normal (devicePixelRatio v), s)
    end.

Definition laptop : viewport :=
  {| innerWidth := 1280; innerHeight := 720;
     devicePixelRatio := Some (ScreenMediaQueries.ratio 2 1);
     matching := [ "(min-resolution: 2dppx)"; "(min-resolution: 1dppx)"; "(min-color: 8)";
                   "(orientation: landscape)"; "(display-mode: browser)";
                   "(pointer: fine)"; "(hover: hover)"; "(any-pointer: fine)";
                   "(any-hover: hover)"; "(overflow-block: scroll)";
                   "(overflow-inline: scroll)"; "(update: fast)"; "(scripting: enabled)" ] |}.


(** A browser for webrtc_ips.ts: calls can be made to throw, and
    [iceGatheringState] is fixed. *)
Record rtcProfile : Type := {
  constructorThrows : bool;
  createOfferThrows : bool;
  gatheringState : string;
}.

Definition rtcBrowser (p : rtcProfile) : host WebRTC.hostE unit :=
  λ X ev s,
    match ev in WebRTC.hostE X return outcome X * unit with
    | WebRTC.NewPeerConnection _ _ =>
        if constructorThrows p
        then (Thrown (JsError "Failed to construct 'RTCPeerConnection'"), s)
        else (Normal (WebRTC.PeerConnectionRef 0), s)
    | WebRTC.CreateOffer _ =>
        if createOfferThrows p then (Thrown (JsError "InvalidStateError"), s)
        else (Normal tt, s)
    | WebRTC.IceGatheringState _ => (Normal (gatheringState p), s)
    | WebRTC.CreateDataChannel _ _ | WebRTC.SetLocalDescription _ | WebRTC.Close _ =>
        (Normal tt, s)
    end.

Definition webrtcOk : rtcProfile :=
  {| constructorThrows := false; createOfferThrows := false; gatheringState := "complete" |}.
Definition webrtcBlocked : rtcProfile :=
  {| constructorThrows := true; createOfferThrows := false; gatheringState := "new" |}.

Definition chromeWindow : WebRTC.WindowWithRTC :=
  {| WebRTC.RTCPeerConnection := Some (WebRTC.CtorRef 0);
     WebRTC.webkitRTCPeerConnection := Some (WebRTC.CtorRef 1);
     WebRTC.mozRTCPeerConnection := None |}.
Definition bareWindow : WebRTC.WindowWithRTC :=
  {| WebRTC.RTCPeerConnection := None;
     WebRTC.webkitRTCPeerConnection := None;
     WebRTC.mozRTCPeerConnection := None |}.


(** A server behind the TLS endpoint: the fetch is rejected, or
    resolves with a response whose body parses or not. *)
Record endpointServer : Type := {
  response : option TLS.Response;
  json : option jsval;
}.

Definition tlsBrowser (srv : endpointServer) : host TLS.tlsE unit :=
  λ X ev s,
    match ev in TLS.tlsE X return outcome X * unit with
    | TLS.NewAbortController => (Normal (TLS.AbortControllerRef 0), s)
    | TLS.SetTimeoutAbort _ _ => (Normal (TLS.TimeoutRef 0), s)
    | TLS.Fetch _ _ =>
        match response srv with
        | Some r => (Normal r, s)
        | None => (Thrown (JsError "Failed to fetch"), s)
        end
    | TLS.ClearTimeout _ => (Normal tt, s)
    | TLS.ResponseJson _ =>
        match json srv with
        | Some v => (Normal v, s)
        | None => (Thrown (JsError "Unexpected token < in JSON at position 0"), s)
        end
    end.

Definition ja3Server : endpointServer :=
  {| response := Some {| TLS.ok := true; TLS.status := 200; TLS.body := 0 |};
     json := Some (VObj {[ "ja3" := VStr "771,4866-4867"; "ja3_hash" := VStr "cd08e314";
                           "ja4" := VStr "t13d1517h2" ]}) |}.
Definition missingServer : endpointServer :=
  {| response := Some {| TLS.ok := false; TLS.status := 404; TLS.body := 0 |};
     json := None |}.

(** A browser that matches every query. *)
Definition yesBrowser : host ScreenMediaQueries.mediaE unit :=
  λ X ev s,
    match ev in ScreenMediaQueries.mediaE X return outcome X * unit with
    | ScreenMediaQueries.MatchMedia _ => (Normal true, s)
    | ScreenMediaQueries.DevicePixelRatio => (Normal None, s)
    end.

(** A desktop screen: 1920 by 1080 at a pixel ratio of 2 and 8 bits
    per color. *)
Definition desktop : viewport :=
  {| innerWidth := 1920; innerHeight := 1080;
     devicePixelRatio := Some (ScreenMediaQueries.ratio 2 1);
     matching :=
       [ "(min-resolution: 0.5dppx)"; "(min-resolution: 0.75dppx)"; "(min-resolution: 1dppx)";
         "(min-resolution: 1.25dppx)"; "(min-resolution: 1.5dppx)";
         "(min-resolution: 1.75dppx)"; "(min-resolution: 2dppx)";
         "(min-color: 1)"; "(min-color: 4)"; "(min-color: 8)";
         "(orientation: landscape)"; "(display-mode: browser)";
         "(pointer: fine)"; "(hover: hover)"; "(any-pointer: fine)";
         "(any-hover: hover)"; "(overflow-block: scroll)";
         "(overflow-inline: scroll)"; "(update: fast)"; "(scripting: enabled)" ] |}.

(** A browser whose [close()] throws. *)
Definition closeThrows : host WebRTC.hostE unit :=
  λ X ev s,
    match ev in WebRTC.hostE X return outcome X * unit with
    | WebRTC.NewPeerConnection _ _ => (Normal (WebRTC.PeerConnectionRef 0), s)
    | WebRTC.Close _ => (Thrown (JsError "InvalidStateError"), s)
    | WebRTC.IceGatheringState _ => (Normal "complete", s)
    | WebRTC.CreateDataChannel _ _ | WebRTC.CreateOffer _ | WebRTC.SetLocalDescription _ => (Normal tt, s)
    end.

(** A browser for battery.ts: [getBattery()] resolves with a battery
    manager, or rejects. *)
Definition batteryBrowser (battery : option Battery.BatteryManager) : host Battery.batteryE unit :=
  λ X ev s,
    match ev in Battery.batteryE X return outcome X * unit with
    | Battery.AwaitGetBattery _ =>
        match battery with
        | Some b => (Normal b, s)
        | None => (Thrown (JsError "NotAllowedError"), s)
        end
    end.

End Browsers.

(** * Facts about runs *)

Ltac unfold_monad :=
  unfold mbind, prog_bind, mret, prog_ret in *.

(** Follows a run call by call, the run held in the hypothesis [Hrun]
    as [x = exec h p s]: the next call is answered by a value (first
    goal) or by a throw (second goal). *)
Ltac run_step h Hrun :=
  match type of Hrun with
  | context [h ?X ?ev ?s] => destruct (h X ev s) as [[?|?] ?]; simpl in Hrun
  end.

Section ExecFacts.
Context {E : Type → Type} {S : Type} (h : host E S).

Lemma exec_bind {A B} (p : prog E A) (f : A → prog E B) (s : S) :
  exec h (bind p f) s =
  match exec h p s with
  | (Normal a, s1, tr) =>
      let '(r, s2, tr') := exec h (f a) s1 in (r, s2, tr ++ tr')
  | (Thrown e, s1, tr) => (Thrown e, s1, tr)
  end.
Proof.
  revert s. induction p as [a|e|X ev k IH]; intros s; simpl.
  - by destruct (exec h (f a) s) as [[r s2] tr'].
  - done.
  - destruct (h X ev s) as [o s1]. rewrite IH.
    destruct (exec h (k o) s1) as [[[a|e] s2] tr]; [|done].
    by destruct (exec h (f a) s2) as [[r s3] tr'].
Qed.

Lemma exec_call {X} (ev : E X) (s : S) :
  exec h (call ev) s = ((h X ev s).1, (h X ev s).2, [Entry ev (h X ev s).1]).
Proof. simpl. by destruct (h X ev s) as [[x|e] s1]. Qed.

Lemma exec_try_catch {R} (p : prog E R) (handler : exn → prog E R) (s : S) :
  exec h (try_catch p handler) s =
  match exec h p s with
  | (Normal a, s1, tr) => (Normal a, s1, tr)
  | (Thrown e, s1, tr) =>
      let '(r, s2, tr') := exec h (handler e) s1 in (r, s2, tr ++ tr')
  end.
Proof.
  revert s. induction p as [a|e|X ev k IH]; intros s; simpl.
  - done.
  - by destruct (exec h (handler e) s) as [[r s2] tr'].
  - destruct (h X ev s) as [o s1]. rewrite IH.
    destruct (exec h (k o) s1) as [[[a|e] s2] tr]; [done|].
    by destruct (exec h (handler e) s2) as [[r s3] tr'].
Qed.

(** In a program without [catch], the first throw of the host ends the
    run and is its outcome; without a throw the run returns. *)
Lemma catch_free_outcome {R} (p : prog E R) (s : S) :
  catch_free p →
  match yield h p s with
  | Normal _ => host_throws h p s = []
  | Thrown e => host_throws h p s = [e]
  end.
Proof.
  unfold yield, host_throws, trace. intros Hp. revert s.
  induction Hp as [r|X ev k _ IH Hthrow]; intros s; simpl; [done|].
  destruct (h X ev s) as [[x|e] s1].
  - specialize (IH x s1). by destruct (exec h (k (Normal x)) s1) as [[??]?].
  - by rewrite Hthrow.
Qed.

Lemma yield_bind {A B} (p : prog E A) (f : A → prog E B) (s : S) :
  yield h (bind p f) s =
  match yield h p s with
  | Normal a => yield h (f a) (final h p s)
  | Thrown e => Thrown e
  end.
Proof.
  unfold yield, final. rewrite exec_bind.
  destruct (exec h p s) as [[[a|e] s1] tr]; simpl; [|done].
  by destruct (exec h (f a) s1) as [[r s2] tr'].
Qed.

Lemma final_bind {A B} (p : prog E A) (f : A → prog E B) (s : S) :
  final h (bind p f) s =
  match yield h p s with
  | Normal a => final h (f a) (final h p s)
  | Thrown e => final h p s
  end.
Proof.
  unfold yield, final. rewrite exec_bind.
  destruct (exec h p s) as [[[a|e] s1] tr]; simpl; [|done].
  by destruct (exec h (f a) s1) as [[r s2] tr'].
Qed.

(** A loop whose body, on the host states that satisfy [I], always
    returns a function of the loop state alone and keeps [I], folds
    that function. *)
Lemma yield_forRange {A} (I : S → Prop) (body : nat → A → prog E A) (f : nat → A → A)
    (l : list nat) :
  (∀ i a s, I s → yield h (body i a) s = Normal (f i a) ∧ I (final h (body i a) s)) →
  ∀ acc s, I s →
    yield h (forRange l body acc) s = Normal (foldl (λ a i, f i a) acc l)
    ∧ I (final h (forRange l body acc) s).
Proof.
  intros Hbody. induction l as [|i l IH]; intros acc s Hs; [done|].
  simpl. destruct (Hbody i acc s Hs) as [Hy Hf].
  rewrite yield_bind, final_bind, Hy. by apply IH.
Qed.
Lemma trace_bind {A B} (p : prog E A) (f : A → prog E B) (s : S) :
  trace h (bind p f) s =
  trace h p s ++
  match yield h p s with
  | Normal a => trace h (f a) (final h p s)
  | Thrown e => []
  end.
Proof.
  unfold yield, final, trace. rewrite exec_bind.
  destruct (exec h p s) as [[[a|e] s1] tr]; simpl; [|by rewrite app_nil_r].
  by destruct (exec h (f a) s1) as [[r s2] tr'].
Qed.

Lemma yield_call {X} (ev : E X) (s : S) : yield h (call ev) s = (h X ev s).1.
Proof. unfold yield. by rewrite exec_call. Qed.

Lemma final_call {X} (ev : E X) (s : S) : final h (call ev) s = (h X ev s).2.
Proof. unfold final. by rewrite exec_call. Qed.

Lemma trace_call {X} (ev : E X) (s : S) :
  trace h (call ev) s = [Entry ev (h X ev s).1].
Proof. unfold trace. by rewrite exec_call. Qed.

Lemma trace_calls_only {R} (P : ∀ X, E X → bool) (p : prog E R) (s : S) :
  calls_only P p → forallb (entry_in P) (trace h p s) = true.
Proof.
  unfold trace. intros Hp. revert s.
  induction Hp as [r|e|X ev k HP _ IH]; intros s; simpl; [done..|].
  destruct (h X ev s) as [o s1]. specialize (IH o s1).
  destruct (exec h (k o) s1) as [[r s2] tr]. simpl in *. by rewrite HP, IH.
Qed.

(** The log of a run is a log of the program. *)
Lemma exec_logs {R} (p : prog E R) (s : S) : logs p (trace h p s) (yield h p s).
Proof.
  revert s. induction p as [r|e|X ev k IH]; intros s; [constructor..|].
  unfold trace, yield. simpl. destruct (h X ev s) as [o s1].
  specialize (IH o s1). unfold trace, yield in IH.
  destruct (exec h (k o) s1) as [[r s2] tr]. simpl in *. by constructor.
Qed.

End ExecFacts.

(** ** Aligned programs *)

Section AlignedFacts.
Context {E : Type → Type} {V : Type} (valueOf : ∀ X, E X → X → V).

Lemma aligned_yield {S1 S2 R1 R2} (h1 : host E S1) (h2 : host E S2) (rel : R1 → R2 → Prop)
    (p1 : prog E R1) (p2 : prog E R2) (s1 : S1) (s2 : S2) :
  aligned valueOf rel p1 p2 →
  answers valueOf (trace h1 p1 s1) = answers valueOf (trace h2 p2 s2) →
  match yield h1 p1 s1, yield h2 p2 s2 with
  | Normal r1, Normal r2 => rel r1 r2
  | Thrown e1, Thrown e2 => e1 = e2
  | _, _ => False
  end.
Proof.
  intros Hp. revert s1 s2. induction Hp as [r1 r2 Hr|e|X1 X2 ev1 ev2 k1 k2 Hk IH];
    intros s1 s2; [done..|].
  unfold yield, trace, answers. simpl.
  destruct (h1 X1 ev1 s1) as [o1 t1]. destruct (h2 X2 ev2 s2) as [o2 t2].
  specialize (IH o1 o2). unfold yield, trace, answers in IH.
  pose proof (λ H, IH H t1 t2) as IH'. clear IH.
  destruct (exec h1 (k1 o1) t1) as [[r1 u1] tr1].
  destruct (exec h2 (k2 o2) t2) as [[r2 u2] tr2]. simpl in *.
  intros [= Hhead Htail]. by apply IH'.
Qed.

Lemma aligned_bind {A1 A2 B1 B2} (relA : A1 → A2 → Prop) (relB : B1 → B2 → Prop)
    (p1 : prog E A1) (p2 : prog E A2) (f1 : A1 → prog E B1) (f2 : A2 → prog E B2) :
  aligned valueOf relA p1 p2 →
  (∀ a1 a2, relA a1 a2 → aligned valueOf relB (f1 a1) (f2 a2)) →
  aligned valueOf relB (bind p1 f1) (bind p2 f2).
Proof.
  intros Hp Hf. induction Hp as [r1 r2 Hr|e|X1 X2 ev1 ev2 k1 k2 Hk IH]; simpl.
  - by apply Hf.
  - constructor.
  - constructor. intros o1 o2 Ho. by apply IH.
Qed.

Lemma aligned_call {X1 X2 } (rel : X1 → X2 → Prop) (ev1 : E X1) (ev2 : E X2) :
  (∀ x1 x2, valueOf _ ev1 x1 = valueOf _ ev2 x2 → rel x1 x2) →
  aligned valueOf rel (call ev1) (call ev2).
Proof.
  intros Hrel. constructor. intros [x1|e1] [x2|e2] Ho; simpl in Ho; try discriminate.
  - injection Ho as Ho. constructor. by apply Hrel.
  - injection Ho as ->. constructor.
Qed.

Lemma aligned_bind_call {X1 X2 B1 B2} (rel : B1 → B2 → Prop) (ev1 : E X1) (ev2 : E X2)
    (f1 : X1 → prog E B1) (f2 : X2 → prog E B2) :
  (∀ x1 x2, valueOf _ ev1 x1 = valueOf _ ev2 x2 → aligned valueOf rel (f1 x1) (f2 x2)) →
  aligned valueOf rel (bind (call ev1) f1) (bind (call ev2) f2).
Proof.
  intros Hf. apply (aligned_bind (λ x1 x2, valueOf _ ev1 x1 = valueOf _ ev2 x2)); [|done].
  by apply aligned_call.
Qed.

Lemma aligned_forEach {A} (l : list A) (body1 body2 : A → prog E unit) :
  (∀ x, aligned valueOf (λ _ _, True) (body1 x) (body2 x)) →
  aligned valueOf (λ _ _, True) (forEach l body1) (forEach l body2).
Proof.
  intros Hbody. induction l as [|x l IH]; simpl; [by constructor|].
  apply (aligned_bind (λ _ _, True)); [by apply Hbody|]. intros _ _ _. apply IH.
Qed.

Lemma aligned_forRange {A1 A2} (rel : A1 → A2 → Prop) (l : list nat)
    (body1 : nat → A1 → prog E A1) (body2 : nat → A2 → prog E A2) (acc1 : A1) (acc2 : A2) :
  (∀ i a1 a2, rel a1 a2 → aligned valueOf rel (body1 i a1) (body2 i a2)) →
  rel acc1 acc2 →
  aligned valueOf rel (forRange l body1 acc1) (forRange l body2 acc2).
Proof.
  intros Hbody. revert acc1 acc2. induction l as [|i l IH]; intros acc1 acc2 Hacc; simpl.
  - by constructor.
  - apply (aligned_bind rel); [by apply Hbody|]. intros a1 a2 Ha. by apply IH.
Qed.

(** When the answers tell the values apart, a program is aligned with
    itself: its outcome is set by the answers. *)
Lemma aligned_refl {R} (p : prog E R) :
  (∀ X (ev : E X) x y, valueOf X ev x = valueOf X ev y → x = y) →
  aligned valueOf eq p p.
Proof.
  intros Hinj. induction p as [r|e|X ev k IH]; [by constructor..|].
  constructor. intros [x1|e1] [x2|e2] Ho; simpl in Ho; try discriminate.
  - injection Ho as Ho. apply Hinj in Ho as ->. apply IH.
  - injection Ho as ->. apply IH.
Qed.
End AlignedFacts.

Lemma outcomes_agree {R} (o1 o2 : outcome R) :
  match o1, o2 with
  | Normal r1, Normal r2 => r1 = r2
  | Thrown e1, Thrown e2 => e1 = e2
  | _, _ => False
  end → o1 = o2.
Proof. destruct o1, o2; naive_solver. Qed.

Lemma catch_free_call {E X} (ev : E X) : catch_free (call ev).
Proof. constructor; [constructor|done]. Qed.

Lemma catch_free_bind {E A B} (p : prog E A) (f : A → prog E B) :
  catch_free p → (∀ a, catch_free (f a)) → catch_free (bind p f).
Proof.
  intros Hp Hf. induction Hp as [r|X ev k _ IH Hthrow]; simpl; [done|].
  constructor; [done|]. intros e. by rewrite Hthrow.
Qed.

Lemma catch_free_forEach {E A} (l : list A) (body : A → prog E unit) :
  (∀ x, catch_free (body x)) → catch_free (forEach l body).
Proof.
  intros Hbody. induction l as [|x l IH]; simpl; [constructor|].
  by apply catch_free_bind.
Qed.

Lemma catch_free_forRange {E A} (l : list nat) (body : nat → A → prog E A) (acc : A) :
  (∀ i a, catch_free (body i a)) → catch_free (forRange l body acc).
Proof.
  intros Hbody. revert acc. induction l as [|i l IH]; intros acc; simpl; [constructor|].
  by apply catch_free_bind.
Qed.

Lemma calls_only_call {E X} (P : ∀ X, E X → bool) (ev : E X) :
  P X ev = true → calls_only P (call ev).
Proof. intros HP. constructor; [done|]. intros [x|e]; constructor. Qed.

Lemma calls_only_bind {E A B} (P : ∀ X, E X → bool) (p : prog E A) (f : A → prog E B) :
  calls_only P p → (∀ a, calls_only P (f a)) → calls_only P (bind p f).
Proof.
  intros Hp Hf. induction Hp as [r|e|X ev k HP _ IH]; simpl; [done|constructor|].
  by constructor.
Qed.

Lemma calls_only_forEach {E A} (P : ∀ X, E X → bool) (l : list A) (body : A → prog E unit) :
  (∀ x, calls_only P (body x)) → calls_only P (forEach l body).
Proof.
  intros Hbody. induction l as [|x l IH]; simpl; [constructor|].
  by apply calls_only_bind.
Qed.

Lemma calls_only_forRange {E A} (P : ∀ X, E X → bool) (l : list nat)
    (body : nat → A → prog E A) (acc : A) :
  (∀ i a, calls_only P (body i a)) → calls_only P (forRange l body acc).
Proof.
  intros Hbody. revert acc. induction l as [|i l IH]; intros acc; simpl; [constructor|].
  by apply calls_only_bind.
Qed.

Ltac calls_only_tac :=
  unfold_monad;
  repeat first
    [ apply calls_only_call; reflexivity
    | apply calls_only_Ret
    | apply calls_only_bind
    | apply calls_only_forEach
    | apply calls_only_forRange
    | intros []
    | intro ].

(** Closes [catch_free p] for a program written with the monad
    notations, case by case on the values it branches on. *)
Ltac catch_free_tac :=
  unfold_monad;
  repeat first
    [ apply catch_free_call
    | apply catch_free_Ret
    | apply catch_free_bind
    | apply catch_free_forEach
    | apply catch_free_forRange
    | intros []
    | intro
    | match goal with
      | |- catch_free (if ?b then _ else _) => destruct b
      | |- catch_free (match ?x with _ => _ end) => destruct x
      end ].

(** ** Counting the calls of a run *)

Section Within.
Context {E : Type → Type} {S : Type} (h : host E S).

Lemma within_ret {R} (r : R) : within h 0 0 (Ret r).
Proof. intros s. simpl. lia. Qed.

Lemma within_call {X} (ev : E X) : within h 1 1 (call ev).
Proof.
  intros s. unfold yield, trace. rewrite exec_call. simpl.
  destruct (h X ev s).1; simpl; lia.
Qed.

Lemma within_bind {A B} (p : prog E A) (f : A → prog E B) (a b c d : nat) :
  within h a b p → (∀ x, within h c d (f x)) → within h (a + c) (b + d) (bind p f).
Proof.
  intros Hp Hf s. specialize (Hp s). rewrite yield_bind, trace_bind.
  destruct (yield h p s) as [x|e]; [|done].
  specialize (Hf x (final h p s)).
  destruct (yield h (f x) (final h p s)); [|done].
  rewrite length_app. lia.
Qed.

Lemma within_weaken {R} (p : prog E R) (a b a' b' : nat) :
  within h a b p → a' ≤ a → b ≤ b' → within h a' b' p.
Proof. intros Hp ?? s. specialize (Hp s). destruct (yield h p s); lia. Qed.
End Within.

(** * The regular expression: facts *)

Example ipRegex_examples :
  regexMatch ipRegex "candidate:842163049 1 udp 1677729535 192.168.1.5 54400 typ host"
  = Some "192.168.1.5"
  ∧ regexMatch ipRegex "candidate:1 1 udp 1 2001:DB8:0:0:0:0:0:1 9 typ host"
    = Some "2001:DB8:0:0:0:0:0:1"
  ∧ regexMatch ipRegex "candidate:1 1 udp 1 fe80::1 9 typ host" = None
  ∧ regexMatch ipRegex "candidate:1 1 udp 1 1234.56.7.8 9 typ host" = Some "234.56.7.8"
  ∧ split "." "10.0.0.1" = ["10"; "0"; "0"; "1"] ∧ split "." "" = [""]
  ∧ Number "172" = Some 172%Z ∧ Number "" = Some 0%Z
  ∧ endsWith "abc.local" ".local" = true ∧ includes "a:b" ":" = true
  ∧ toLowerCase "FE80:x" = "fe80:x".
Proof. vm_compute. done. Qed.

Lemma string_app_cons (x : ascii) (a b : string) : String x a +:+ b = String x (a +:+ b).
Proof. reflexivity. Qed.

Lemma string_app_nil (b : string) : "" +:+ b = b.
Proof. reflexivity. Qed.

Lemma string_app_assoc (a b c : string) : (a +:+ b) +:+ c = a +:+ (b +:+ c).
Proof.
  induction a as [|x a IH]; [done|]. by rewrite !string_app_cons, IH.
Qed.

Lemma string_app_length (a b : string) :
  String.length (a +:+ b) = String.length a + String.length b.
Proof.
  induction a as [|c a IH]; [done|]. rewrite string_app_cons. simpl. by rewrite IH.
Qed.

Lemma rmatch_sound {A} (r : regex) (s : string) (k : string → option A) (x : A) :
  rmatch r s k = Some x →
  ∃ m rest, s = m +:+ rest ∧ matches r m ∧ k rest = Some x.
Proof.
  revert s k. induction r as [p|r1 IH1 r2 IH2|r1 IH1 r2 IH2|r IH lo hi]; intros s k; simpl.
  - destruct s as [|c s']; [done|]. destruct (p c) eqn:Hp; [|done].
    intros Hk. exists (String c EmptyString), s'. by repeat split; [constructor|].
  - intros (m1 & rest1 & -> & Hm1 & (m2 & rest2 & -> & Hm2 & Hk)%IH2)%IH1.
    exists (m1 +:+ m2), rest2. split; [by rewrite string_app_assoc|]. split; [by constructor|done].
  - destruct (rmatch r1 s k) as [y|] eqn:H1.
    + intros [= ->]. apply IH1 in H1 as (m & rest & -> & Hm & Hk).
      exists m, rest. split_and!; [done|by apply matches_alt_l|done].
    + intros (m & rest & -> & Hm & Hk)%IH2.
      exists m, rest. split_and!; [done|by apply matches_alt_r|done].
  - revert lo s. induction hi as [|hi IHhi]; intros lo s.
    + destruct lo; [|done]. intros Hk. exists EmptyString, s.
      split_and!; [done|constructor|done].
    + match goal with
      | |- context [rmatch r s ?k'] => destruct (rmatch r s k') as [y|] eqn:Hr
      end.
      * intros [= ->].
        apply IH in Hr as (m1 & rest1 & -> & Hm1 & (m2 & rest2 & -> & Hm2 & Hk)%IHhi).
        exists (m1 +:+ m2), rest2.
        split; [by rewrite string_app_assoc|]. split; [by constructor|done].
      * destruct lo; [|done]. intros Hk. exists EmptyString, s.
        split_and!; [done|constructor|done].
Qed.

Lemma substring_prefix (m rest : string) :
  String.substring 0 (String.length (m +:+ rest) - String.length rest) (m +:+ rest) = m.
Proof.
  rewrite string_app_length. replace (String.length m + String.length rest - String.length rest)
    with (String.length m) by lia.
  induction m as [|c m IH].
  - rewrite string_app_nil. by destruct rest.
  - rewrite string_app_cons. simpl. by rewrite IH.
Qed.

Lemma regexMatch_unfold (r : regex) (s : string) :
  regexMatch r s =
  match rmatch r s Some with
  | Some rest => Some (String.substring 0 (String.length s - String.length rest) s)
  | None =>
      match s with
      | EmptyString => None
      | String _ s' => regexMatch r s'
      end
  end.
Proof. by destruct s. Qed.

(** What [regexMatch] returns is matched by the expression. *)
Lemma regexMatch_sound (r : regex) (s ip : string) :
  regexMatch r s = Some ip → matches r ip.
Proof.
  induction s as [|c s IH]; rewrite regexMatch_unfold.
  - destruct (rmatch r "" Some) as [rest|] eqn:Hr; [|done].
    apply rmatch_sound in Hr as (m & rest' & Hs & Hm & [= ->]).
    rewrite Hs, substring_prefix. by intros [= <-].
  - destruct (rmatch r (String c s) Some) as [rest|] eqn:Hr; [|done].
    apply rmatch_sound in Hr as (m & rest' & Hs & Hm & [= ->]).
    rewrite Hs, substring_prefix. by intros [= <-].
Qed.

Lemma string_app_nil_r (a : string) : a +:+ "" = a.
Proof. induction a as [|c a IH]; [done|]. by rewrite string_app_cons, IH. Qed.

(** A bounded repetition of a character class: that many characters
    of the class. *)
Lemma matches_repeat_class (p : ascii → bool) (lo hi : nat) (s : string) :
  matches (RRepeat (RClass p) lo hi) s →
  lo ≤ String.length s ≤ hi ∧ forallb p (String.list_ascii_of_string s) = true.
Proof.
  revert lo s. induction hi as [|hi IH]; intros lo s Hm; inversion Hm; subst; simpl.
  - split; [lia|done].
  - split; [lia|done].
  - match goal with H : matches (RClass _) _ |- _ => inversion H; subst end.
    match goal with H : matches (RRepeat _ _ _) _ |- _ => apply IH in H as [Hlen Hall] end.
    rewrite string_app_cons, string_app_nil. simpl. split; [lia|].
    by apply andb_true_intro.
Qed.

Lemma matches_char (c : ascii) (s : string) :
  matches (RChar c) s → s = String c EmptyString.
Proof.
  unfold RChar. intros Hm. inversion Hm as [p x Hx| | | | |]; subst.
  by apply bool_decide_eq_true_1 in Hx as ->.
Qed.

(** The first alternative of [ipRegex]. *)
Lemma matches_ipv4 (s : string) :
  matches (RSeq (RRepeat (RClass isDigit) 1 3)
             (RRepeat (RSeq (RChar ".") (RRepeat (RClass isDigit) 1 3)) 3 3)) s →
  fourDigitGroups s.
Proof.
  intros Hm.
  inversion Hm as [|? ? a t Ha Ht| | | |]; subst. clear Hm.
  inversion Ht as [| | | | |? ? ? t1 u1 H1 Hu1]; subst. clear Ht.
  inversion H1 as [|? ? dot1 b Hdot1 Hb| | | |]; subst. clear H1.
  simpl in Hu1.
  inversion Hu1 as [| | | | |? ? ? t2 u2 H2 Hu2]; subst. clear Hu1.
  inversion H2 as [|? ? dot2 c Hdot2 Hc| | | |]; subst. clear H2.
  simpl in Hu2.
  inversion Hu2 as [| | | | |? ? ? t3 u3 H3 Hu3]; subst. clear Hu2.
  inversion H3 as [|? ? dot3 d Hdot3 Hd| | | |]; subst. clear H3.
  simpl in Hu3. inversion Hu3; subst. clear Hu3.
  apply matches_char in Hdot1 as ->. apply matches_char in Hdot2 as ->.
  apply matches_char in Hdot3 as ->.
  apply matches_repeat_class in Ha, Hb, Hc, Hd.
  exists a, b, c, d. split; [|done].
  by rewrite string_app_nil_r, !string_app_assoc.
Qed.

Lemma includes_cons (c : ascii) (s p : string) :
  includes s p = true → includes (String c s) p = true.
Proof. intros Hs. simpl. rewrite Hs. apply orb_true_r. Qed.

Lemma includes_app (a b p : string) :
  includes b p = true → includes (a +:+ b) p = true.
Proof.
  intros Hb. induction a as [|c a IH]; [done|].
  rewrite string_app_cons. by apply includes_cons.
Qed.

(** The second alternative of [ipRegex] holds a colon. *)
Lemma matches_ipv6 (s : string) :
  matches (RSeq (RRepeat (RClass isHexDigit) 1 4)
             (RRepeat (RSeq (RChar ":") (RRepeat (RClass isHexDigit) 1 4)) 7 7)) s →
  includes s ":" = true.
Proof.
  intros Hm.
  inversion Hm as [|? ? a t Ha Ht| | | |]; subst. clear Hm.
  inversion Ht as [| | | | |? ? ? t1 u1 H1 Hu1]; subst. clear Ht.
  inversion H1 as [|? ? dot1 b Hdot1 Hb| | | |]; subst. clear H1.
  apply matches_char in Hdot1 as ->.
  apply includes_app. rewrite !string_app_cons. simpl.
  by destruct (_ +:+ u1).
Qed.

(** An address without a colon that [ipRegex] found is four groups of
    one to three digits. *)
Lemma regexMatch_ipv4 (s ip : string) :
  regexMatch ipRegex s = Some ip → includes ip ":" = false → fourDigitGroups ip.
Proof.
  intros Hm%regexMatch_sound Hcolon. unfold ipRegex in Hm.
  inversion Hm as [| |? ? ? H4|? ? ? H6| |]; subst.
  - by apply matches_ipv4.
  - apply matches_ipv6 in H6. congruence.
Qed.

Lemma isDigit_not_dot (c : ascii) : isDigit c = true → bool_decide (c = "."%char) = false.
Proof. intros Hc. apply bool_decide_eq_false_2. by intros ->. Qed.

Lemma split_cons (sep c : ascii) (s : string) :
  split sep (String c s) =
  if bool_decide (c = sep) then EmptyString :: split sep s
  else match split sep s with
       | first :: rest => String c first :: rest
       | [] => [String c EmptyString]
       end.
Proof. reflexivity. Qed.

Lemma split_digits (g : string) :
  forallb isDigit (String.list_ascii_of_string g) = true → split "." g = [g].
Proof.
  induction g as [|c g IH]; [done|].
  intros [Hc Hg]%andb_prop. by rewrite split_cons, (isDigit_not_dot c Hc), (IH Hg).
Qed.

Lemma split_digits_dot (g rest : string) :
  forallb isDigit (String.list_ascii_of_string g) = true →
  split "." (g +:+ "." +:+ rest) = g :: split "." rest.
Proof.
  induction g as [|c g IH]; [done|].
  intros [Hc Hg]%andb_prop.
  by rewrite string_app_cons, split_cons, (isDigit_not_dot c Hc), (IH Hg).
Qed.

Lemma split_fourDigitGroups (a b c d : string) :
  digitGroup a → digitGroup b → digitGroup c → digitGroup d →
  split "." (a +:+ "." +:+ b +:+ "." +:+ c +:+ "." +:+ d) = [a; b; c; d].
Proof.
  intros [_ Ha] [_ Hb] [_ Hc] [_ Hd].
  by rewrite !split_digits_dot, split_digits.
Qed.

(** ** Numbers printed and read back *)

Lemma isDigit_pretty_N_char (x : N) : isDigit (pretty_N_char x) = true.
Proof. unfold pretty_N_char. by repeat case_match. Qed.

Lemma value_pretty_N_char (x : N) :
  (x < 10)%N → (Z.of_nat (Ascii.nat_of_ascii (pretty_N_char x)) - 48 = Z.of_N x)%Z.
Proof.
  intros Hx.
  assert (x = 0 ∨ x = 1 ∨ x = 2 ∨ x = 3 ∨ x = 4 ∨ x = 5 ∨ x = 6 ∨ x = 7 ∨ x = 8 ∨ x = 9)%N
    as Hcases by lia.
  repeat (destruct Hcases as [-> | Hcases]; [reflexivity|]). by subst.
Qed.

Lemma parseDigits_pretty_N_go (x : N) (s : string) :
  parseDigits 0 (pretty_N_go x s) = parseDigits (Z.of_N x) s.
Proof.
  revert s. induction (N.lt_wf_0 x) as [x _ IH]; intros s.
  assert (x = 0 ∨ 0 < x)%N as [-> | Hx] by lia; [done|].
  rewrite pretty_N_go_step by done. rewrite IH by (by apply N.div_lt).
  cbn [parseDigits]. rewrite isDigit_pretty_N_char.
  rewrite value_pretty_N_char by (by apply N.mod_lt). f_equal.
  pose proof (N.div_mod x 10 ltac:(done)). lia.
Qed.

Lemma digits_pretty_N_go (x : N) (s : string) :
  forallb isDigit (String.list_ascii_of_string s) = true →
  forallb isDigit (String.list_ascii_of_string (pretty_N_go x s)) = true.
Proof.
  revert s. induction (N.lt_wf_0 x) as [x _ IH]; intros s Hs.
  assert (x = 0 ∨ 0 < x)%N as [-> | Hx] by lia; [done|].
  rewrite pretty_N_go_step by done. apply IH; [by apply N.div_lt|].
  simpl. by rewrite isDigit_pretty_N_char.
Qed.

(** [Number(String(n)) = n] for the integers from 0 on. *)
Lemma Number_pretty (n : Z) : (0 ≤ n)%Z → Number (pretty n) = Some n.
Proof.
  intros Hn. destruct n as [|p|p]; [done| |lia].
  unfold Number, pretty, pretty_Z, pretty, pretty_positive, pretty, pretty_N.
  rewrite decide_False by done. by rewrite parseDigits_pretty_N_go.
Qed.

Lemma digits_pretty (n : Z) :
  (0 ≤ n)%Z → forallb isDigit (String.list_ascii_of_string (pretty n)) = true.
Proof.
  intros Hn. destruct n as [|p|p]; [done| |lia].
  unfold pretty, pretty_Z, pretty, pretty_positive, pretty, pretty_N.
  rewrite decide_False by done. by apply digits_pretty_N_go.
Qed.

Lemma pretty_nonempty (n : Z) : (0 ≤ n)%Z → pretty n ≠ "".
Proof.
  intros Hn Hempty. pose proof (Number_pretty n Hn) as Hnum.
  rewrite Hempty in Hnum. injection Hnum as <-. by vm_compute in Hempty.
Qed.

Lemma split_dottedQuad (a b c d : Z) :
  (0 ≤ a)%Z → (0 ≤ b)%Z → (0 ≤ c)%Z → (0 ≤ d)%Z →
  split "." (dottedQuad a b c d) = [pretty a; pretty b; pretty c; pretty d].
Proof.
  intros. unfold dottedQuad.
  by rewrite !split_digits_dot, split_digits by by apply digits_pretty.
Qed.

(** ** What the expression can capture *)

Lemma lastChar_cons (c : ascii) (s : string) :
  s ≠ "" → lastChar (String c s) = lastChar s.
Proof. by destruct s. Qed.

Lemma lastChar_app (a b : string) : b ≠ "" → lastChar (a +:+ b) = lastChar b.
Proof.
  intros Hb. induction a as [|c a IH]; [done|].
  rewrite string_app_cons, lastChar_cons; [done|]. by destruct a, b.
Qed.

Lemma lastChar_endsWith (s p : string) :
  p ≠ "" → endsWith s p = true → lastChar s = lastChar p.
Proof.
  intros Hp. induction s as [|c s IH]; simpl.
  - rewrite orb_false_r. intros Heq%bool_decide_eq_true_1. by subst.
  - intros [Heq%bool_decide_eq_true_1 | Hs]%orb_prop; [by subst|].
    rewrite <-(IH Hs). apply lastChar_cons. intros ->. simpl in Hs.
    rewrite orb_false_r in Hs. apply bool_decide_eq_true_1 in Hs. by subst.
Qed.

Lemma lastChar_class (p : ascii → bool) (s : string) :
  s ≠ "" → forallb p (String.list_ascii_of_string s) = true →
  ∃ c, lastChar s = Some c ∧ p c = true.
Proof.
  induction s as [|c s IH]; [done|]. intros _ [Hc Hs]%andb_prop.
  destruct s as [|c' s]; [by exists c|].
  destruct (IH ltac:(done) Hs) as (l & Hl & Hp). by exists l.
Qed.

Lemma lastChar_group (p : ascii → bool) (hi : nat) (s : string) :
  matches (RRepeat (RClass p) 1 hi) s → ∃ c, lastChar s = Some c ∧ p c = true.
Proof.
  intros [Hlen Hall]%matches_repeat_class. apply lastChar_class; [|done].
  intros ->. simpl in Hlen. lia.
Qed.

(** A run of separated groups is empty or ends with a character of
    the class. *)
Lemma lastChar_groups (p : ascii → bool) (sep : ascii) (k lo hi : nat) (s : string) :
  matches (RRepeat (RSeq (RChar sep) (RRepeat (RClass p) 1 k)) lo hi) s →
  s = "" ∨ ∃ c, lastChar s = Some c ∧ p c = true.
Proof.
  revert lo s. induction hi as [|hi IH]; intros lo s Hm; inversion Hm; subst; [by left..|].
  match goal with H : matches (RRepeat (RSeq _ _) _ _) _ |- _ => apply IH in H as Hrest end.
  match goal with
  | H : matches (RSeq _ _) _ |- _ => inversion H as [|? ? dot g Hdot Hg| | | |]; subst
  end.
  apply lastChar_group in Hg as (c & Hc & Hp). right.
  assert (g ≠ "") as Hne by (by intros ->).
  destruct Hrest as [-> | (c' & Hc' & Hp')].
  - exists c. split; [|done]. by rewrite string_app_nil_r, lastChar_app.
  - exists c'. split; [|done]. rewrite lastChar_app; [done|]. by intros ->.
Qed.

Lemma lastChar_address (p : ascii → bool) (sep : ascii) (k k' n : nat) (s : string) :
  matches (RSeq (RRepeat (RClass p) 1 k)
             (RRepeat (RSeq (RChar sep) (RRepeat (RClass p) 1 k')) n n)) s →
  ∃ c, lastChar s = Some c ∧ p c = true.
Proof.
  intros Hm. inversion Hm as [|? ? g rest Hg Hrest| | | |]; subst.
  apply lastChar_group in Hg as (c & Hc & Hp).
  apply lastChar_groups in Hrest as [-> | (c' & Hc' & Hp')].
  - exists c. by rewrite string_app_nil_r.
  - exists c'. split; [|done]. rewrite lastChar_app; [done|]. by intros ->.
Qed.

(** * canvas.ts: facts *)
Module CanvasFacts.
Import Canvas.

Lemma renderTextImage_catch_free canvas context :
  catch_free (renderTextImage canvas context).
Proof. unfold renderTextImage. catch_free_tac. Qed.

Lemma renderGeometryImage_catch_free canvas context :
  catch_free (renderGeometryImage canvas context).
Proof. unfold renderGeometryImage. catch_free_tac. Qed.

Lemma getDenoisedCanvasData_catch_free canvas context renderFn :
  (∀ c x, catch_free (renderFn c x)) →
  catch_free (getDenoisedCanvasData canvas context renderFn).
Proof.
  intros Hrender. unfold getDenoisedCanvasData, extractCenterPixels, denoisePixel.
  unfold_monad. apply catch_free_bind; [apply Hrender|]. catch_free_tac.
Qed.

Lemma getCanvasFingerprint_catch_free : catch_free getCanvasFingerprint.
Proof.
  unfold getCanvasFingerprint, doesBrowserPerformAntifingerprinting,
    getNoiseResistantCanvasFingerprint, getUnstableCanvasFingerprint, renderImages,
    makeCanvasContext, isSupported, doesSupportWinding, canvasToString.
  unfold_monad.
  repeat first
    [ apply getDenoisedCanvasData_catch_free
    | apply renderTextImage_catch_free
    | apply renderGeometryImage_catch_free
    | apply catch_free_call
    | apply catch_free_Ret
    | apply catch_free_bind
    | intros []
    | intro
    | match goal with
      | |- catch_free (if ?b then _ else _) => destruct b
      | |- catch_free (match ?x with _ => _ end) => destruct x
      end ].
Qed.

(** C1 (as amended): [getCanvasFingerprint] ends for every host;
    it returns a record exactly when no host call throws, and
    otherwise the first throw of the host (a throw of [getImageData]
    or [toDataURL] on the denoise path included) leaves it unchanged:
    nothing in canvas.ts catches. *)
Theorem getCanvasFingerprint_throw_propagates {S} (h : host canvasE S) (s : S) :
  match yield h getCanvasFingerprint s with
  | Normal _ => host_throws h getCanvasFingerprint s = []
  | Thrown e => host_throws h getCanvasFingerprint s = [e]
  end.
Proof. apply catch_free_outcome, getCanvasFingerprint_catch_free. Qed.

(** C1 fails as stated: on a Safari 17 host whose [getImageData]
    throws, the call throws; no record with the [Unsupported]
    sentinels comes back. *)
Lemma getCanvasFingerprint_readback_throw_escapes :
  let run := yield (Browsers.browser Browsers.safariReadbackThrows)
               getCanvasFingerprint Browsers.emptyDom in
  run = Thrown (JsError "The operation is insecure.")
  ∧ ¬ ∃ r, run = Normal r
        ∧ geometry r = ImageStatus.Unsupported ∧ text r = ImageStatus.Unsupported.
Proof.
  assert (yield (Browsers.browser Browsers.safariReadbackThrows)
            getCanvasFingerprint Browsers.emptyDom
          = Thrown (JsError "The operation is insecure.")) as Hrun
    by (vm_compute; reflexivity).
  cbv zeta. rewrite Hrun. split; [done|]. by intros (r & ? & _).
Qed.

(** ** The center pixels (step 6) *)

Lemma yield_denoisePixel {S} (h : host canvasE S) sc scaled W sw y x d s :
  (h _ (GetWidth sc) s).1 = Normal sw →
  yield h (denoisePixel sc scaled W y x d) s = Normal (copyPixel scaled W sw y x d)
  ∧ final h (denoisePixel sc scaled W y x d) s = (h _ (GetWidth sc) s).2.
Proof.
  intros Hw. unfold yield, final, denoisePixel. unfold_monad. simpl.
  destruct (h nat (GetWidth sc) s) as [o s1]. simpl in Hw. by subst o.
Qed.

Lemma length_copyPixel scaled W sw y x d :
  length (copyPixel scaled W sw y x d) = length d.
Proof. unfold copyPixel. cbv zeta. by rewrite !length_insert. Qed.

(** Pixel [(x, y)] gets the block center; no other pixel changes. *)
Lemma copyPixel_lookup scaled W sw y x d i :
  (y * W + x) * 4 + 3 < length d →
  copyPixel scaled W sw y x d !! i =
  if decide ((y * W + x) * 4 ≤ i < (y * W + x) * 4 + 4)
  then Some (pixelChannel scaled sw (3 * x + 1) (3 * y + 1) (i - (y * W + x) * 4))
  else d !! i.
Proof.
  intros Hlen. unfold copyPixel, pixelChannel, DENOISE_SCALE.
  change (3 / 2) with 1. cbv zeta.
  replace (y * 3 + 1) with (3 * y + 1) by lia. replace (x * 3 + 1) with (3 * x + 1) by lia.
  set (o := (y * W + x) * 4) in *. set (q := ((3 * y + 1) * sw + (3 * x + 1)) * 4).
  case_decide as Hi.
  - assert (i = o ∨ i = o + 1 ∨ i = o + 2 ∨ i = o + 3) as Hcase by lia.
    destruct Hcase as [-> | [-> | [-> | ->]]].
    + rewrite !list_lookup_insert_ne by lia.
      rewrite list_lookup_insert_eq by lia. do 2 f_equal. lia.
    + rewrite !list_lookup_insert_ne by lia.
      rewrite list_lookup_insert_eq by (rewrite ?length_insert; lia). do 2 f_equal. lia.
    + rewrite !list_lookup_insert_ne by lia.
      rewrite list_lookup_insert_eq by (rewrite ?length_insert; lia). do 2 f_equal. lia.
    + rewrite list_lookup_insert_eq by (rewrite ?length_insert; lia). do 2 f_equal. lia.
  - by rewrite !list_lookup_insert_ne by lia.
Qed.

Lemma centersUpTo_row scaled W H sw d y n :
  y < H → n ≤ W →
  centersUpTo scaled W H sw d y 0 →
  centersUpTo scaled W H sw
    (foldl (λ a x, copyPixel scaled W sw y x a) d (seq 0 n)) y n.
Proof.
  intros Hy. induction n as [|n IH]; intros Hn Hd; [done|].
  rewrite seq_S, foldl_app. simpl.
  destruct (IH ltac:(lia) Hd) as [Hlen Hpix]. split.
  - by rewrite length_copyPixel.
  - intros x y' c Hx Hy' Hc Hbefore.
    assert ((y * W + n) * 4 + 3 < W * H * 4) by nia.
    rewrite copyPixel_lookup by lia.
    case_decide as Hi.
    + assert (y' * W + x = y * W + n) as Heq by lia.
      assert (y' = y ∧ x = n) as [-> ->] by nia.
      do 3 f_equal. lia.
    + apply Hpix; [done..|].
      destruct Hbefore as [?|[-> ?]]; [by left|].
      destruct (decide (x = n)) as [->|]; [lia|]. right. lia.
Qed.

Lemma centersUpTo_rows scaled W H sw m :
  m ≤ H →
  centersUpTo scaled W H sw
    (foldl (λ a y, foldl (λ a x, copyPixel scaled W sw y x a) a (seq 0 W))
           (u8new (W * H * 4)) (seq 0 m)) m 0.
Proof.
  induction m as [|m IH]; intros Hm.
  - split; [apply length_replicate|]. intros; lia.
  - rewrite seq_S, foldl_app. simpl.
    destruct (centersUpTo_row scaled W H sw _ m W ltac:(lia) ltac:(lia) (IH ltac:(lia)))
      as [Hlen Hpix].
    split; [done|]. intros x y c Hx Hy Hc Hbefore. apply Hpix; [done..|].
    destruct (decide (y = m)) as [->|]; [by right|left; lia].
Qed.

(** ** The fallbacks of the denoise path *)

Lemma no_failed_allocation {S} (h : host canvasE S) {R} (p : prog canvasE R) s :
  calls_only notGetContext2d p →
  existsb contextAllocationFailed (trace h p s) = false.
Proof.
  intros Hp. pose proof (trace_calls_only h _ p s Hp) as Hall.
  induction (trace h p s) as [|[X ev o] tr IH]; [done|].
  simpl in Hall. apply andb_prop in Hall as [Hev Htr]. simpl.
  rewrite (IH Htr), orb_false_r. by destruct ev.
Qed.

Lemma renderTextImage_no_getContext canvas context :
  calls_only notGetContext2d (renderTextImage canvas context).
Proof. unfold renderTextImage. calls_only_tac. Qed.

Lemma renderGeometryImage_no_getContext canvas context :
  calls_only notGetContext2d (renderGeometryImage canvas context).
Proof. unfold renderGeometryImage. calls_only_tac. Qed.

Lemma extractCenterPixels_no_getContext sc scaled W H :
  calls_only notGetContext2d (extractCenterPixels sc scaled W H).
Proof. unfold extractCenterPixels, denoisePixel. calls_only_tac. Qed.

(** After calls that allocated every context they asked for, a failed
    allocation is one of the rest of the run. *)
Lemma fallback_after canvas (pre tr : list (entry canvasE)) r :
  existsb contextAllocationFailed pre = false →
  (existsb contextAllocationFailed tr = true → returnsDirectReadback canvas tr r) →
  existsb contextAllocationFailed (pre ++ tr) = true →
  returnsDirectReadback canvas (pre ++ tr) r.
Proof.
  intros Hpre Htr. rewrite existsb_app, Hpre. simpl. intros Hfail.
  specialize (Htr Hfail). unfold returnsDirectReadback in *.
  destruct tr as [|en tr]; [done|]. by rewrite last_app, Htr.
Qed.

(** One call of the straight-line part of [getDenoisedCanvasData]:
    either the host throws, and the run ends without a failed
    allocation, or the run goes on. *)
Ltac denoise_step h :=
  unfold_monad;
  rewrite ?trace_bind, ?yield_bind, ?trace_call, ?yield_call, ?final_call;
  match goal with
  | |- context [h ?X ?ev ?s] =>
      destruct (h X ev s) as [[?|?] ?]; cbn [fst snd];
      [ try (apply (fallback_after _ [_]); [reflexivity|])
      | cbn; try discriminate ]
  end.

(** C9: in a run of [getDenoisedCanvasData] where a [getContext('2d')]
    gave [null] (for the scaled scratch canvas or for the output
    canvas, the only two it asks a context for), the last host call is
    [toDataURL] on the source canvas and its outcome is what the
    function returns. *)
Theorem getDenoisedCanvasData_fallback {S} (h : host canvasE S)
    (canvas : HTMLCanvasElement) (context : CanvasRenderingContext2D)
    (renderFn : HTMLCanvasElement → CanvasRenderingContext2D → prog canvasE unit) (s : S) :
  renderFn = renderGeometryImage ∨ renderFn = renderTextImage →
  existsb contextAllocationFailed
    (trace h (getDenoisedCanvasData canvas context renderFn) s) = true →
  returnsDirectReadback canvas
    (trace h (getDenoisedCanvasData canvas context renderFn) s)
    (yield h (getDenoisedCanvasData canvas context renderFn) s).
Proof.
  intros Hrender.
  assert (calls_only notGetContext2d (renderFn canvas context)) as Hscene.
  { destruct Hrender as [-> | ->];
      [apply renderGeometryImage_no_getContext | apply renderTextImage_no_getContext]. }
  unfold getDenoisedCanvasData. unfold_monad.
  rewrite trace_bind, yield_bind.
  destruct (yield h (renderFn canvas context) s) as [[]|e].
  2: { rewrite app_nil_r, (no_failed_allocation h _ s Hscene). done. }
  apply fallback_after; [by apply no_failed_allocation|].
  generalize (final h (renderFn canvas context) s). clear s. intros s.
  do 6 denoise_step h.
  match goal with o : option CanvasRenderingContext2D |- _ => destruct o as [scaledContext|] end.
  2: { intros _. rewrite trace_call, yield_call. reflexivity. }
  apply (fallback_after _ [_]); [reflexivity|].
  do 7 denoise_step h.
  rewrite trace_bind, yield_bind.
  match goal with |- context [yield h (extractCenterPixels ?sc ?d ?w ?hh) ?s] =>
    pose proof (no_failed_allocation h (extractCenterPixels sc d w hh) s
                  (extractCenterPixels_no_getContext _ _ _ _)) as Hloop;
    destruct (yield h (extractCenterPixels sc d w hh) s) as [denoisedData|e];
    [ apply fallback_after; [exact Hloop|];
      generalize (final h (extractCenterPixels sc d w hh) s); clear Hloop; intros s'
    | rewrite app_nil_r, Hloop; done ]
  end.
  do 4 denoise_step h.
  match goal with o : option CanvasRenderingContext2D |- _ => destruct o as [outputContext|] end.
  2: { intros _. rewrite trace_call, yield_call. reflexivity. }
  apply (fallback_after _ [_]); [reflexivity|].
  do 3 denoise_step h.
  simpl. discriminate.
Qed.

(** C9 on a Safari host that gives a context to the first canvas of the
    page only: the scratch allocation fails. *)
Lemma getDenoisedCanvasData_fallback_witness :
  returnsDirectReadback (CanvasRef 0)
    (trace (Browsers.browser Browsers.safariNoScratchContext)
       (getDenoisedCanvasData (CanvasRef 0) (ContextRef 0) renderTextImage)
       {| Browsers.sizes := [(1, 1)]; Browsers.readbacks := 0 |})
    (yield (Browsers.browser Browsers.safariNoScratchContext)
       (getDenoisedCanvasData (CanvasRef 0) (ContextRef 0) renderTextImage)
       {| Browsers.sizes := [(1, 1)]; Browsers.readbacks := 0 |}).
Proof.
  apply getDenoisedCanvasData_fallback.
  - by right.
  - vm_compute. reflexivity.
Defined.


(** ** Unstable detection *)

(** Reads a log off a program whose calls are laid out. *)
Ltac logs_tac :=
  unfold_monad; simpl; repeat (apply logs_Vis; simpl); apply logs_Ret.

(** C4: a run of [getUnstableCanvasFingerprint(false)] that returns a
    record and in which [isSupported] found [toDataURL] is, in this
    order: the opening on the canvas it made, the calls of
    [renderTextImage] on that canvas, and two [toDataURL] of it.  If
    the two encodings differ the run ends there, no call of the
    geometry scene was made, and geometry and text are both
    [Unstable]; if they are equal, the calls of [renderGeometryImage]
    on the same canvas follow and then one more [toDataURL], which
    gave the geometry of the record, and the text of the record is
    the first encoding. *)
Theorem unstable_detection {S} (h : host canvasE S) (s : S) (r : CanvasFingerprint) :
  let tr := trace h (getUnstableCanvasFingerprint false) s in
  yield h (getUnstableCanvasFingerprint false) s = Normal r →
  existsb foundToDataURL tr = true →
  ∃ canvas context textScene textImage1 textImage2 rest,
    tr = opening canvas context (negb (winding r)) ++ textScene
         ++ [encoding canvas textImage1; encoding canvas textImage2] ++ rest
    ∧ logs (renderTextImage canvas context) textScene (Normal tt)
    ∧ (textImage1 ≠ textImage2 →
         rest = [] ∧ existsb geometrySceneCall tr = false
         ∧ geometry r = ImageStatus.Unstable ∧ text r = ImageStatus.Unstable)
    ∧ (textImage1 = textImage2 →
         ∃ geometryScene,
           rest = geometryScene ++ [encoding canvas (geometry r)]
           ∧ logs (renderGeometryImage canvas context) geometryScene (Normal tt)
           ∧ text r = textImage1).
Proof.
  intros tr. subst tr. unfold yield, trace.
  remember (exec h (getUnstableCanvasFingerprint false) s) as x eqn:Hrun. revert Hrun.
  unfold getUnstableCanvasFingerprint, makeCanvasContext, isSupported,
    doesSupportWinding, renderImages, renderTextImage, renderGeometryImage, canvasToString.
  unfold_monad. simpl. intros Hrun.
  do 4 (run_step h Hrun; [|by subst x]).
  match goal with o : option CanvasRenderingContext2D |- _ => destruct o as [context|] end;
    simpl in Hrun; [|by subst x].
  run_step h Hrun; [|by subst x].
  match goal with b : bool |- _ => destruct b end; simpl in Hrun; [|by subst x].
  do 16 (run_step h Hrun; [|by subst x]).
  match type of Hrun with
  | context [bool_decide (?t1 = ?t2)] => destruct (decide (t1 = t2)) as [Heq|Hne]
  end.
  - rewrite (bool_decide_eq_true_2 _ Heq) in Hrun. simpl in Hrun.
    do 23 (run_step h Hrun; [|by subst x]).
    subst x. simpl. intros [= <-] _.
    repeat match goal with u : unit |- _ => destruct u end.
    match goal with c : HTMLCanvasElement |- _ => exists c end. exists context.
    eexists [_; _; _; _; _; _; _; _; _; _; _], _, _, _. simpl.
    rewrite Bool.negb_involutive.
    split; [reflexivity|]. split; [logs_tac|]. split; [done|]. intros _.
    eexists [_; _; _; _; _; _; _; _; _; _; _; _; _; _; _; _; _; _; _; _; _; _].
    split; [reflexivity|]. split; [logs_tac|done].
  - rewrite (bool_decide_eq_false_2 _ Hne) in Hrun. simpl in Hrun.
    subst x. simpl. intros [= <-] _.
    repeat match goal with u : unit |- _ => destruct u end.
    match goal with c : HTMLCanvasElement |- _ => exists c end. exists context.
    eexists [_; _; _; _; _; _; _; _; _; _; _], _, _, _. simpl.
    rewrite Bool.negb_involutive.
    split; [reflexivity|]. split; [logs_tac|]. split; [|done]. intros _. by split_and!.
Qed.

(** C4 on a browser that adds noise to every readback. *)
Lemma unstable_detection_witness :
  let tr := trace (Browsers.browser Browsers.noisyBrowser)
              (getUnstableCanvasFingerprint false) Browsers.emptyDom in
  ∃ canvas context textScene textImage1 textImage2 rest,
    tr = opening canvas context (negb true) ++ textScene
         ++ [encoding canvas textImage1; encoding canvas textImage2] ++ rest
    ∧ logs (renderTextImage canvas context) textScene (Normal tt)
    ∧ (textImage1 ≠ textImage2 →
         rest = [] ∧ existsb geometrySceneCall tr = false
         ∧ ImageStatus.Unstable = ImageStatus.Unstable
         ∧ ImageStatus.Unstable = ImageStatus.Unstable)
    ∧ (textImage1 = textImage2 →
         ∃ geometryScene,
           rest = geometryScene ++ [encoding canvas ImageStatus.Unstable]
           ∧ logs (renderGeometryImage canvas context) geometryScene (Normal tt)
           ∧ ImageStatus.Unstable = textImage1).
Proof.
  apply (unstable_detection (Browsers.browser Browsers.noisyBrowser) Browsers.emptyDom
           {| winding := true; geometry := ImageStatus.Unstable;
              text := ImageStatus.Unstable |}).
  - vm_compute. reflexivity.
  - vm_compute. reflexivity.
Defined.


(** ** The entry points *)

Lemma getUnstableCanvasFingerprint_withCanvas skipImages :
  getUnstableCanvasFingerprint skipImages
  = withCanvas unsupported (λ canvas context,
      winding ← doesSupportWinding context;
      if skipImages then
        mret {| winding := winding;
                geometry := ImageStatus.Skipped; text := ImageStatus.Skipped |}
      else
        '(geometry, text) ← renderImages canvas context;
        mret {| winding := winding; geometry := geometry; text := text |}).
Proof. reflexivity. Qed.

Lemma getNoiseResistantCanvasFingerprint_withCanvas :
  getNoiseResistantCanvasFingerprint
  = withCanvas unsupported (λ canvas context,
      winding ← doesSupportWinding context;
      geometry ← getDenoisedCanvasData canvas context renderGeometryImage;
      text ← getDenoisedCanvasData canvas context renderTextImage;
      mret {| winding := winding; geometry := geometry; text := text |}).
Proof. reflexivity. Qed.

(** A run of the shared opening: either [isSupported] found nothing
    and the run is the at most five calls of the opening, or it found
    a context and the run goes on from there. *)
Lemma exec_withCanvas {S R} (h : host canvasE S) (otherwise : R)
    (supported : HTMLCanvasElement → CanvasRenderingContext2D → prog canvasE R) (s : S) :
  (∃ s' tr, exec h (withCanvas otherwise supported) s = (Normal otherwise, s', tr)
     ∧ existsb foundToDataURL tr = false ∧ forallb setupCall tr = true ∧ length tr ≤ 5)
  ∨ (∃ e s' tr, exec h (withCanvas otherwise supported) s = (Thrown e, s', tr)
     ∧ existsb foundToDataURL tr = false)
  ∨ (∃ canvas context s' pre,
       exec h (withCanvas otherwise supported) s
       = (let '(r, s2, tr) := exec h (supported canvas context) s' in (r, s2, pre ++ tr))
       ∧ pre = [ Entry CreateCanvas (Normal canvas); Entry (SetWidth canvas 1) (Normal tt);
                 Entry (SetHeight canvas 1) (Normal tt);
                 Entry (GetContext2d canvas) (Normal (Some context));
                 Entry (HasToDataURL canvas) (Normal true) ]).
Proof.
  remember (exec h (withCanvas otherwise supported) s) as x eqn:Hrun. revert Hrun.
  unfold withCanvas, makeCanvasContext, isSupported. unfold_monad. simpl. intros Hrun.
  do 4 (run_step h Hrun; [|right; left; subst x; by eexists _, _, _]).
  match goal with o : option CanvasRenderingContext2D |- _ => destruct o as [context|] end;
    simpl in Hrun;
    [|left; subst x; eexists _, _; split; [done|]; split_and!; [done..|simpl; lia]].
  run_step h Hrun; [|right; left; subst x; by eexists _, _, _].
  match goal with b : bool |- _ => destruct b end; simpl in Hrun;
    [|left; subst x; eexists _, _; split; [done|]; split_and!; [done..|simpl; lia]].
  right; right. subst x. repeat match goal with u : unit |- _ => destruct u end.
  match goal with
  | |- context [exec h (supported ?c ?x) ?s'] =>
      exists c, x, s'; eexists; split; [|reflexivity];
      by destruct (exec h (supported c x) s') as [[? ?] ?]
  end.
Qed.

(** When [isSupported] does not find both a 2D context and
    [canvas.toDataURL], each entry point returns the record of the
    [Unsupported] sentinels with [winding] false, after at most the
    five calls that create and probe the canvas: nothing is drawn and
    nothing is read back. *)
Theorem unsupported_canvas {S} (h : host canvasE S) (p : prog canvasE CanvasFingerprint)
    (s : S) (r : CanvasFingerprint) :
  p = getNoiseResistantCanvasFingerprint
  ∨ (∃ skipImages, p = getUnstableCanvasFingerprint skipImages) →
  yield h p s = Normal r →
  existsb foundToDataURL (trace h p s) = false →
  r = unsupported
  ∧ forallb setupCall (trace h p s) = true ∧ length (trace h p s) ≤ 5.
Proof.
  intros Hp. unfold yield, trace.
  assert (∃ K, p = withCanvas unsupported K) as [K ->].
  { destruct Hp as [-> | [skipImages ->]]; eexists;
      [apply getNoiseResistantCanvasFingerprint_withCanvas
      |apply getUnstableCanvasFingerprint_withCanvas]. }
  destruct (exec_withCanvas h unsupported K s)
    as [(s' & tr & -> & ? & ? & ?) | [(e & s' & tr & -> & ?) | (c & ctx & s' & pre & -> & ->)]];
    simpl.
  - intros [= <-] _. done.
  - done.
  - destruct (exec h (K c ctx) s') as [[? ?] ?]. simpl. done.
Qed.

(** [getUnstableCanvasFingerprint(true)] on a supported canvas: eight
    calls in all, the last of them [isPointInPath], whose answer
    negated is [winding]; both images are [Skipped], and nothing is
    encoded. *)
Theorem skipped_images {S} (h : host canvasE S) (s : S) (r : CanvasFingerprint) :
  let tr := trace h (getUnstableCanvasFingerprint true) s in
  yield h (getUnstableCanvasFingerprint true) s = Normal r →
  existsb foundToDataURL tr = true →
  geometry r = ImageStatus.Skipped ∧ text r = ImageStatus.Skipped
  ∧ omap pointInPath tr = [negb (winding r)]
  ∧ dataURLs tr = [] ∧ length tr = 8.
Proof.
  cbv zeta. unfold yield, trace. rewrite getUnstableCanvasFingerprint_withCanvas.
  destruct (exec_withCanvas h unsupported
    (λ (_ : HTMLCanvasElement) context,
       winding ← doesSupportWinding context;
       mret {| winding := winding;
               geometry := ImageStatus.Skipped; text := ImageStatus.Skipped |}) s)
    as [(s' & tr & -> & Hno & _) | [(e & s' & tr & -> & _) | (c & ctx & s' & pre & -> & ->)]];
    [simpl; congruence|done|].
  match goal with
  | |- context [exec h ?p s'] => remember (exec h p s') as x eqn:Hrun
  end.
  revert Hrun. unfold doesSupportWinding. unfold_monad. simpl. intros Hrun.
  do 3 (run_step h Hrun; [|by subst x]).
  subst x. simpl. intros [= <-] _. simpl. by rewrite Bool.negb_involutive.
Qed.

(** ** The denoise path *)

Lemma quiet_trace (tr : list (entry canvasE)) :
  forallb (entry_in quietCall) tr = true →
  dataURLs tr = [] ∧ omap pointInPath tr = []
  ∧ existsb contextAllocationFailed tr = false ∧ existsb foundToDataURL tr = false.
Proof.
  induction tr as [|[X ev o] tr IH]; [done|].
  simpl. intros [Hev Htr]%andb_prop. destruct (IH Htr) as (Hd & Hp & Hc & Hf).
  unfold dataURLs in *. by destruct ev; try discriminate Hev; simpl.
Qed.

Lemma renderTextImage_quiet canvas context :
  calls_only quietCall (renderTextImage canvas context).
Proof. unfold renderTextImage. calls_only_tac. Qed.

Lemma renderGeometryImage_quiet canvas context :
  calls_only quietCall (renderGeometryImage canvas context).
Proof. unfold renderGeometryImage. calls_only_tac. Qed.

Lemma extractCenterPixels_quiet sc scaled W H :
  calls_only quietCall (extractCenterPixels sc scaled W H).
Proof. unfold extractCenterPixels, denoisePixel. calls_only_tac. Qed.

(** A loop whose body keeps [P] of the loop state keeps it. *)
Lemma forRange_invariant {E S A} (h : host E S) (P : A → Prop) (body : nat → A → prog E A)
    (l : list nat) :
  (∀ i a s a', P a → yield h (body i a) s = Normal a' → P a') →
  ∀ acc s a', P acc → yield h (forRange l body acc) s = Normal a' → P a'.
Proof.
  intros Hbody. induction l as [|i l IH]; intros acc s a' Hacc; simpl.
  - by intros [= <-].
  - rewrite yield_bind. destruct (yield h (body i acc) s) as [a|e] eqn:Hi; [|done].
    apply IH. by eapply Hbody.
Qed.

(** Whatever the host says of the width of the scaled canvas, step 6
    returns an array of [W * H * 4] bytes. *)
Lemma length_extractCenterPixels {S} (h : host canvasE S) sc scaled W H s data :
  yield h (extractCenterPixels sc scaled W H) s = Normal data →
  length data = W * H * 4.
Proof.
  unfold extractCenterPixels.
  apply (forRange_invariant h (λ d, length d = W * H * 4)); [|apply length_replicate].
  intros y a s1 a1 Ha. apply (forRange_invariant h (λ d, length d = W * H * 4)); [|done].
  intros x a2 s2 a3 Ha2. unfold yield, denoisePixel. unfold_monad. simpl.
  destruct (h nat (GetWidth sc) s2) as [[sw|e] s3]; simpl; [|done].
  intros [= <-]. by rewrite !length_insert.
Qed.

Opaque extractCenterPixels.

(** A run of [getDenoisedCanvasData] that returns: one [toDataURL]
    call, the last call of the run, gave what is returned; when no
    context was refused, the run ends with the output stage on a
    canvas of the size read from the source canvas. *)
Lemma getDenoisedCanvasData_run {S} (h : host canvasE S) canvas context renderFn (s : S)
    (url : string) :
  calls_only quietCall (renderFn canvas context) →
  yield h (getDenoisedCanvasData canvas context renderFn) s = Normal url →
  let tr := trace h (getDenoisedCanvasData canvas context renderFn) s in
  dataURLs tr = [url] ∧ omap pointInPath tr = [] ∧ existsb foundToDataURL tr = false
  ∧ (existsb contextAllocationFailed tr = false →
       ∃ W H outputCanvas outputContext outputImageData denoisedData,
         outputStage outputCanvas outputContext outputImageData W H denoisedData url
           `suffix_of` tr
         ∧ length denoisedData = W * H * 4
         ∧ Entry (GetWidth canvas) (Normal W) ∈ tr
         ∧ Entry (GetHeight canvas) (Normal H) ∈ tr).
Proof.
  intros Hscene. cbv zeta. unfold yield, trace.
  remember (exec h (getDenoisedCanvasData canvas context renderFn) s) as x eqn:Hrun.
  revert Hrun. unfold getDenoisedCanvasData. unfold_monad. rewrite exec_bind.
  pose proof (trace_calls_only h _ _ s Hscene) as Hq0. unfold trace in Hq0.
  destruct (exec h (renderFn canvas context) s) as [[[[]|e] s0] tr0]; [|by intros ->].
  simpl in Hq0. apply quiet_trace in Hq0 as (Hd0 & Hp0 & Hc0 & Hf0).
  simpl. intros Hrun.
  do 6 (run_step h Hrun; [|by subst x]).
  match goal with o : option CanvasRenderingContext2D |- _ => destruct o as [scaledContext|] end;
    simpl in Hrun.
  2: { run_step h Hrun; [|by subst x]. subst x. simpl. intros [= <-].
       unfold dataURLs. rewrite !omap_app, !existsb_app. unfold dataURLs in Hd0.
       rewrite Hd0, Hp0, Hf0, Hc0. simpl. split_and!; [done..|discriminate]. }
  do 7 (run_step h Hrun; [|by subst x]).
  rewrite exec_bind in Hrun.
  match type of Hrun with
  | context [exec h (extractCenterPixels ?sc ?d ?w ?hh) ?s'] =>
      pose proof (trace_calls_only h _ _ s' (extractCenterPixels_quiet sc d w hh)) as Hq1;
      pose proof (length_extractCenterPixels h sc d w hh s') as Hlen;
      unfold trace in Hq1; unfold yield in Hlen;
      destruct (exec h (extractCenterPixels sc d w hh) s') as [[[data|e] sloop] tr1]
  end; [|by subst x].
  simpl in Hq1. apply quiet_trace in Hq1 as (Hd1 & Hp1 & Hc1 & Hf1).
  specialize (Hlen data eq_refl). simpl in Hrun.
  do 4 (run_step h Hrun; [|by subst x]).
  match goal with o : option CanvasRenderingContext2D |- _ => destruct o as [outputContext|] end;
    simpl in Hrun.
  2: { run_step h Hrun; [|by subst x]. subst x. simpl. intros [= <-].
       unfold dataURLs. rewrite !omap_app, !existsb_app. simpl.
       rewrite !omap_app, !existsb_app. unfold dataURLs in Hd0, Hd1.
       rewrite Hd0, Hp0, Hf0, Hc0, Hd1, Hp1, Hf1, Hc1. simpl.
       split_and!; [done..|discriminate]. }
  do 4 (run_step h Hrun; [|by subst x]).
  subst x. simpl. intros [= <-].
  repeat match goal with u : unit |- _ => destruct u end.
  unfold dataURLs. rewrite !omap_app, !existsb_app. simpl.
  rewrite !omap_app, !existsb_app. unfold dataURLs in Hd0, Hd1.
  rewrite Hd0, Hp0, Hf0, Hd1, Hp1, Hf1. simpl.
  split_and!; [done..|]. intros _.
  eexists _, _, _, _, _, data. split_and!; [|exact Hlen| |].
  - unfold outputStage. apply suffix_app_r. do 13 apply suffix_cons_r.
    apply suffix_app_r. reflexivity.
  - apply elem_of_app. right. left.
  - apply elem_of_app. right. right. left.
Qed.

Transparent extractCenterPixels.

(** ** The pixel loop in the run *)

Lemma pixel_index_inj (W x y x' y' : nat) :
  x < W → x' < W → y' * W + x' = y * W + x → y' = y ∧ x' = x.
Proof.
  intros Hx Hx' Heq. assert (y' = y) as ->; [|lia].
  destruct (Nat.lt_trichotomy y y') as [Hlt|[->|Hlt]]; [|done|]; exfalso.
  - assert (S y * W ≤ y' * W) by (apply Nat.mul_le_mono_r; lia). lia.
  - assert (S y' * W ≤ y * W) by (apply Nat.mul_le_mono_r; lia). lia.
Qed.

Lemma pixel_index_bound (W H x y : nat) : x < W → y < H → y * W + x < W * H.
Proof.
  intros Hx Hy. assert (S y * W ≤ H * W) by (apply Nat.mul_le_mono_r; lia). lia.
Qed.

Lemma exec_denoisePixel {S} (h : host canvasE S) sc scaled W y x d s d' s' tr :
  exec h (denoisePixel sc scaled W y x d) s = (Normal d', s', tr) →
  ∃ sw, tr = widthReads sc [sw] ∧ d' = copyPixel scaled W sw y x d.
Proof.
  unfold denoisePixel. unfold_monad. simpl.
  destruct (h nat (GetWidth sc) s) as [[sw|e] s1]; simpl; [|done].
  intros [= <- <- <-]. by exists sw.
Qed.

Lemma centersRead_pixel scaled W H widths d y x sw :
  x < W → y < H →
  centersRead scaled W H widths d (y * W + x) →
  centersRead scaled W H (widths ++ [sw]) (copyPixel scaled W sw y x d) (y * W + x + 1).
Proof.
  intros Hx Hy (Hlen & Hws & Hpix). split_and!.
  - by rewrite length_copyPixel.
  - rewrite length_app. simpl. lia.
  - intros x' y' c Hx' Hy' Hc Hbefore.
    assert ((y * W + x) * 4 + 3 < length d) by (rewrite Hlen; clear -Hx Hy; nia).
    rewrite copyPixel_lookup by done.
    case_decide as Hi.
    + assert (y' * W + x' = y * W + x) as Heq by lia.
      destruct (pixel_index_inj W x y x' y' Hx Hx' Heq) as [-> ->].
      exists sw. split.
      * rewrite lookup_app_r by lia. by replace (y * W + x - length widths) with 0 by lia.
      * do 3 f_equal. lia.
    + assert (y' * W + x' < y * W + x) as Hlt by lia.
      destruct (Hpix x' y' c Hx' Hy' Hc Hlt) as (w & Hw & Hd).
      exists w. split; [|done]. rewrite lookup_app_l; [done|lia].
Qed.

Lemma exec_denoise_row {St} (h : host canvasE St) sc scaled W H y n :
  y < H →
  ∀ x0 widths d s d' s' tr,
    x0 + n ≤ W →
    centersRead scaled W H widths d (y * W + x0) →
    exec h (forRange (seq x0 n) (denoisePixel sc scaled W y) d) s = (Normal d', s', tr) →
    ∃ more, tr = widthReads sc more
      ∧ centersRead scaled W H (widths ++ more) d' (y * W + x0 + n).
Proof.
  intros Hy. induction n as [|n IH]; intros x0 widths d s d' s' tr Hn Hd; cbn [seq forRange].
  - intros [= <- <- <-]. exists []. rewrite app_nil_r, Nat.add_0_r. done.
  - rewrite exec_bind.
    destruct (exec h (denoisePixel sc scaled W y x0 d) s) as [[[d1|e] s1] tr1] eqn:Hpixel;
      [|done].
    apply exec_denoisePixel in Hpixel as (sw & -> & ->).
    destruct (exec h (forRange (seq (S x0) n) (denoisePixel sc scaled W y)
                        (copyPixel scaled W sw y x0 d)) s1) as [[r2 s2] tr2] eqn:Hrest.
    intros [= -> <- <-].
    apply (IH (S x0) (widths ++ [sw])) in Hrest as (more & -> & Hmore); [|lia|].
    + exists (sw :: more). split; [done|].
      rewrite <- app_assoc in Hmore. simpl in Hmore.
      by replace (y * W + x0 + S n) with (y * W + S x0 + n) by lia.
    + replace (y * W + S x0) with (y * W + x0 + 1) by lia.
      apply centersRead_pixel; [lia|done..].
Qed.

Lemma exec_denoise_rows {St} (h : host canvasE St) sc scaled W H m :
  ∀ y0 widths d s d' s' tr,
    y0 + m ≤ H →
    centersRead scaled W H widths d (y0 * W) →
    exec h (forRange (seq y0 m)
              (λ y, forRange (seq 0 W) (denoisePixel sc scaled W y)) d) s
    = (Normal d', s', tr) →
    ∃ more, tr = widthReads sc more
      ∧ centersRead scaled W H (widths ++ more) d' ((y0 + m) * W).
Proof.
  induction m as [|m IH]; intros y0 widths d s d' s' tr Hm Hd; cbn [seq forRange].
  - intros [= <- <- <-]. exists []. rewrite app_nil_r, Nat.add_0_r. done.
  - rewrite exec_bind.
    destruct (exec h (forRange (seq 0 W) (denoisePixel sc scaled W y0) d) s)
      as [[[d1|e] s1] tr1] eqn:Hrow; [|done].
    apply (exec_denoise_row h sc scaled W H y0 W ltac:(lia) 0 widths) in Hrow
      as (row & -> & Hrow); [|lia|by rewrite Nat.add_0_r].
    destruct (exec h (forRange (seq (S y0) m)
                        (λ y, forRange (seq 0 W) (denoisePixel sc scaled W y)) d1) s1)
      as [[r2 s2] tr2] eqn:Hrest.
    intros [= -> <- <-].
    apply (IH (S y0) (widths ++ row)) in Hrest as (more & -> & Hmore); [|lia|].
    + exists (row ++ more). split; [unfold widthReads; by rewrite fmap_app|].
      rewrite <- app_assoc in Hmore.
      by replace ((y0 + S m) * W) with ((S y0 + m) * W) by lia.
    + by replace (S y0 * W) with (y0 * W + 0 + W) by lia.
Qed.

(** A run of step 6 that returns read the width of the scaled canvas
    once per pixel, in row order, and nothing else; each pixel of its
    result is the block center read with the width found for it. *)
Lemma exec_extractCenterPixels {S} (h : host canvasE S) sc scaled W H s d s' tr :
  exec h (extractCenterPixels sc scaled W H) s = (Normal d, s', tr) →
  ∃ widths, tr = widthReads sc widths ∧ centersRead scaled W H widths d (W * H).
Proof.
  unfold extractCenterPixels. intros Hrun.
  apply (exec_denoise_rows h sc scaled W H H 0 []) in Hrun as (widths & -> & Hd); [|lia|].
  - exists widths. split; [done|]. simpl in Hd. by rewrite Nat.mul_comm.
  - split_and!; [apply length_replicate|done|]. intros; lia.
Qed.

(** A run of [getDenoisedCanvasData] that returns and was refused no
    context, stage by stage: the scene, the scaling and the readback,
    one read of the width of the scaled canvas for each pixel, and the
    output stage with the image of the block centers. *)
Opaque extractCenterPixels.

Lemma getDenoisedCanvasData_stages {S} (h : host canvasE S) canvas context renderFn (s : S)
    (url : string) :
  let tr := trace h (getDenoisedCanvasData canvas context renderFn) s in
  yield h (getDenoisedCanvasData canvas context renderFn) s = Normal url →
  existsb contextAllocationFailed tr = false →
  ∃ scene W H scaledCanvas scaledContext dw dh sw sh scaledImageData widths
      outputCanvas outputContext outputImageData denoisedData,
    tr = scene
         ++ scalingStage canvas W H scaledCanvas scaledContext dw dh sw sh scaledImageData
         ++ widthReads scaledCanvas widths
         ++ outputStage outputCanvas outputContext outputImageData W H denoisedData url
    ∧ logs (renderFn canvas context) scene (Normal tt)
    ∧ centersRead scaledImageData W H widths denoisedData (W * H).
Proof.
  cbv zeta. unfold yield, trace.
  remember (exec h (getDenoisedCanvasData canvas context renderFn) s) as x eqn:Hrun.
  revert Hrun. unfold getDenoisedCanvasData. unfold_monad. rewrite exec_bind.
  pose proof (exec_logs h (renderFn canvas context) s) as Hscene. unfold trace, yield in Hscene.
  destruct (exec h (renderFn canvas context) s) as [[[[]|e] s0] tr0]; [|by intros ->].
  simpl in Hscene. simpl. intros Hrun.
  do 6 (run_step h Hrun; [|by subst x]).
  match goal with o : option CanvasRenderingContext2D |- _ => destruct o as [scaledContext|] end;
    simpl in Hrun.
  2: { run_step h Hrun; [|by subst x]. subst x. simpl. intros _ Hfail.
       rewrite existsb_app in Hfail. simpl in Hfail. by rewrite !orb_true_r in Hfail. }
  do 7 (run_step h Hrun; [|by subst x]).
  rewrite exec_bind in Hrun.
  match type of Hrun with
  | context [exec h (extractCenterPixels ?sc ?d ?w ?hh) ?s'] =>
      pose proof (exec_extractCenterPixels h sc d w hh s') as Hloop;
      destruct (exec h (extractCenterPixels sc d w hh) s') as [[[data|e] sloop] tr1]
  end; [|by subst x].
  destruct (Hloop data sloop tr1 eq_refl) as (widths & -> & Hcenters). clear Hloop.
  simpl in Hrun.
  do 4 (run_step h Hrun; [|by subst x]).
  match goal with o : option CanvasRenderingContext2D |- _ => destruct o as [outputContext|] end;
    simpl in Hrun.
  2: { run_step h Hrun; [|by subst x]. subst x. simpl. intros _ Hfail.
       rewrite existsb_app in Hfail. simpl in Hfail. rewrite existsb_app in Hfail.
       simpl in Hfail. by rewrite !orb_true_r in Hfail. }
  do 4 (run_step h Hrun; [|by subst x]).
  subst x. simpl. intros [= <-] _.
  repeat match goal with u : unit |- _ => destruct u end.
  eexists tr0, _, _, _, _, _, _, _, _, _, widths, _, _, _, data.
  split; [|by split]. unfold scalingStage, outputStage. simpl. reflexivity.
Qed.

Transparent extractCenterPixels.

(** C5: in a run of [getDenoisedCanvasData] that got both contexts
    and returns, with [W] and [H] the width and height read from the
    source canvas after the scene was drawn: the scaled canvas was
    sized [3 * W] by [3 * H]; the array handed to [data.set] of the
    output image has [W * H] pixels, and its pixel [(x, y)] holds,
    channel by channel, the pixel [(3x + 1, 3y + 1)] of the array that
    [getImageData] on the scaled canvas returned, the center of the
    block of that pixel.  The row length used to find that pixel is
    the width that the scaled canvas reports when read for it; where
    the scaled canvas reports the width [3 * W] it was given, it is
    that of the readback. *)
Theorem denoise_reads_block_centers {S} (h : host canvasE S)
    (canvas : HTMLCanvasElement) (context : CanvasRenderingContext2D)
    (renderFn : HTMLCanvasElement → CanvasRenderingContext2D → prog canvasE unit)
    (s : S) (url : string) :
  let tr := trace h (getDenoisedCanvasData canvas context renderFn) s in
  yield h (getDenoisedCanvasData canvas context renderFn) s = Normal url →
  existsb contextAllocationFailed tr = false →
  ∃ W H scaledCanvas scaledContext sw sh scaledImageData widths
      outputCanvas outputContext outputImageData denoisedData before,
    tr = before
         ++ Entry (GetImageData scaledContext 0 0 sw sh) (Normal scaledImageData)
         :: widthReads scaledCanvas widths
         ++ outputStage outputCanvas outputContext outputImageData W H denoisedData url
    ∧ Entry (GetWidth canvas) (Normal W) ∈ before
    ∧ Entry (GetHeight canvas) (Normal H) ∈ before
    ∧ Entry (SetWidth scaledCanvas (W * DENOISE_SCALE)) (Normal tt) ∈ before
    ∧ Entry (SetHeight scaledCanvas (H * DENOISE_SCALE)) (Normal tt) ∈ before
    ∧ Entry (GetContext2d scaledCanvas) (Normal (Some scaledContext)) ∈ before
    ∧ length denoisedData = W * H * 4
    ∧ length widths = W * H
    ∧ (∀ x y c, x < W → y < H → c < 4 →
         ∃ scaledWidth, widths !! (y * W + x) = Some scaledWidth
           ∧ denoisedData !! ((y * W + x) * 4 + c)
             = Some (pixelChannel scaledImageData scaledWidth (3 * x + 1) (3 * y + 1) c))
    ∧ (Forall (λ scaledWidth, scaledWidth = 3 * W) widths →
       ∀ x y c, x < W → y < H → c < 4 →
         denoisedData !! ((y * W + x) * 4 + c)
         = Some (pixelChannel scaledImageData (3 * W) (3 * x + 1) (3 * y + 1) c)).
Proof.
  intros tr Hurl Hok. subst tr.
  destruct (getDenoisedCanvasData_stages h canvas context renderFn s url Hurl Hok)
    as (scene & W & H & sc & sctx & dw & dh & sw & sh & scaled & widths & oc & octx & img
        & data & -> & _ & Hlen & Hwidths & Hpix).
  exists W, H, sc, sctx, sw, sh, scaled, widths, oc, octx, img, data.
  exists (scene ++ [ Entry (GetWidth canvas) (Normal W); Entry (GetHeight canvas) (Normal H);
                     Entry CreateCanvas (Normal sc);
                     Entry (SetWidth sc (W * DENOISE_SCALE)) (Normal tt);
                     Entry (SetHeight sc (H * DENOISE_SCALE)) (Normal tt);
                     Entry (GetContext2d sc) (Normal (Some sctx));
                     Entry (SetImageSmoothingEnabled sctx false) (Normal tt);
                     Entry (GetWidth sc) (Normal dw); Entry (GetHeight sc) (Normal dh);
                     Entry (DrawImage sctx canvas 0 0 dw dh) (Normal tt);
                     Entry (GetWidth sc) (Normal sw); Entry (GetHeight sc) (Normal sh) ]).
  split_and!.
  - unfold scalingStage. by rewrite <- !app_assoc.
  - apply elem_of_app. right. repeat constructor.
  - apply elem_of_app. right. repeat constructor.
  - apply elem_of_app. right. repeat constructor.
  - apply elem_of_app. right. repeat constructor.
  - apply elem_of_app. right. repeat constructor.
  - done.
  - done.
  - intros x y c Hx Hy Hc. apply Hpix; auto using pixel_index_bound.
  - intros Hall x y c Hx Hy Hc.
    destruct (Hpix x y c Hx Hy Hc (pixel_index_bound W H x y Hx Hy)) as (w & Hw & ->).
    rewrite Forall_lookup in Hall. by rewrite (Hall _ _ Hw).
Qed.

(** C5 on the Safari host, for the geometry scene. *)
Lemma denoise_reads_block_centers_witness :
  let tr := trace (Browsers.browser Browsers.safari)
              (getDenoisedCanvasData (CanvasRef 0) (ContextRef 0) renderGeometryImage)
              {| Browsers.sizes := [(1, 1)]; Browsers.readbacks := 0 |} in
  ∃ W H scaledCanvas scaledContext sw sh scaledImageData widths
      outputCanvas outputContext outputImageData denoisedData before,
    tr = before
         ++ Entry (GetImageData scaledContext 0 0 sw sh) (Normal scaledImageData)
         :: widthReads scaledCanvas widths
         ++ outputStage outputCanvas outputContext outputImageData W H denoisedData
              "data:image/png;base64,2/2"
    ∧ Entry (GetWidth (CanvasRef 0)) (Normal W) ∈ before
    ∧ Entry (GetHeight (CanvasRef 0)) (Normal H) ∈ before
    ∧ Entry (SetWidth scaledCanvas (W * DENOISE_SCALE)) (Normal tt) ∈ before
    ∧ Entry (SetHeight scaledCanvas (H * DENOISE_SCALE)) (Normal tt) ∈ before
    ∧ Entry (GetContext2d scaledCanvas) (Normal (Some scaledContext)) ∈ before
    ∧ length denoisedData = W * H * 4
    ∧ length widths = W * H
    ∧ (∀ x y c, x < W → y < H → c < 4 →
         ∃ scaledWidth, widths !! (y * W + x) = Some scaledWidth
           ∧ denoisedData !! ((y * W + x) * 4 + c)
             = Some (pixelChannel scaledImageData scaledWidth (3 * x + 1) (3 * y + 1) c))
    ∧ (Forall (λ scaledWidth, scaledWidth = 3 * W) widths →
       ∀ x y c, x < W → y < H → c < 4 →
         denoisedData !! ((y * W + x) * 4 + c)
         = Some (pixelChannel scaledImageData (3 * W) (3 * x + 1) (3 * y + 1) c)).
Proof.
  apply (denoise_reads_block_centers (Browsers.browser Browsers.safari)
           (CanvasRef 0) (ContextRef 0) renderGeometryImage
           {| Browsers.sizes := [(1, 1)]; Browsers.readbacks := 0 |}).
  - vm_compute. reflexivity.
  - vm_compute. reflexivity.
Defined.

(** The denoise path on the Safari host, whose scaled canvas keeps the
    width it was given: the image handed to [data.set] holds the block
    centers of the readback. *)
Example denoise_on_safari :
  let tr := trace (Browsers.browser Browsers.safari)
              (getDenoisedCanvasData (CanvasRef 0) (ContextRef 0) renderGeometryImage)
              {| Browsers.sizes := [(1, 1)]; Browsers.readbacks := 0 |} in
  let readback : u8array := List.map Browsers.pixelByte (seq 0 144) in
  Entry (GetImageData (ContextRef 1) 0 0 6 6) (Normal readback) ∈ tr
  ∧ Entry (ImageDataSet (ImageDataRef 0)
             (List.map (u8get readback) [28; 29; 30; 31; 40; 41; 42; 43;
                                         100; 101; 102; 103; 112; 113; 114; 115]))
      (Normal tt) ∈ tr.
Proof. cbv zeta. split; vm_compute; repeat constructor. Qed.

(** On the path of [getDenoisedCanvasData] where both scratch
    contexts are there, the run is, in this order: the scene, the
    scaling stage that ends with the readback of the scaled canvas,
    one read of the width of the scaled canvas for each pixel, and the
    output stage: a new canvas of the size [W] by [H] read from the
    source canvas after the scene was drawn, an image of that size,
    [data.set] of the [W * H * 4] bytes that are the block centers of
    the readback, the image put at (0, 0), and [toDataURL] of that
    canvas, which is the only encoding made and the value returned. *)
Theorem getDenoisedCanvasData_output {S} (h : host canvasE S)
    (canvas : HTMLCanvasElement) (context : CanvasRenderingContext2D)
    (renderFn : HTMLCanvasElement → CanvasRenderingContext2D → prog canvasE unit)
    (s : S) (url : string) :
  let tr := trace h (getDenoisedCanvasData canvas context renderFn) s in
  renderFn = renderGeometryImage ∨ renderFn = renderTextImage →
  yield h (getDenoisedCanvasData canvas context renderFn) s = Normal url →
  existsb contextAllocationFailed tr = false →
  ∃ scene W H scaledCanvas scaledContext dw dh sw sh scaledImageData widths
      outputCanvas outputContext outputImageData denoisedData,
    tr = scene
         ++ scalingStage canvas W H scaledCanvas scaledContext dw dh sw sh scaledImageData
         ++ widthReads scaledCanvas widths
         ++ outputStage outputCanvas outputContext outputImageData W H denoisedData url
    ∧ logs (renderFn canvas context) scene (Normal tt)
    ∧ centersRead scaledImageData W H widths denoisedData (W * H)
    ∧ dataURLs tr = [url].
Proof.
  intros tr Hrender Hurl Hok. subst tr.
  assert (calls_only quietCall (renderFn canvas context)) as Hscene.
  { destruct Hrender as [-> | ->];
      [apply renderGeometryImage_quiet | apply renderTextImage_quiet]. }
  destruct (getDenoisedCanvasData_run h canvas context renderFn s url Hscene Hurl)
    as (Hurls & _).
  destruct (getDenoisedCanvasData_stages h canvas context renderFn s url Hurl Hok)
    as (scene & W & H & sc & sctx & dw & dh & sw & sh & scaled & widths & oc & octx & img
        & data & Htr & Hlogs & Hcenters).
  exists scene, W, H, sc, sctx, dw, dh, sw, sh, scaled, widths, oc, octx, img, data.
  by split_and!.
Qed.

Opaque getDenoisedCanvasData.

(** [getNoiseResistantCanvasFingerprint] on a supported canvas makes
    two encodings, whichever of the fallbacks are taken: the first is
    [geometry], the second is [text]; [winding] is the negated answer
    of the one [isPointInPath] call. *)
Theorem noise_resistant_record {S} (h : host canvasE S) (s : S) (r : CanvasFingerprint) :
  let tr := trace h getNoiseResistantCanvasFingerprint s in
  yield h getNoiseResistantCanvasFingerprint s = Normal r →
  existsb foundToDataURL tr = true →
  dataURLs tr = [geometry r; text r] ∧ omap pointInPath tr = [negb (winding r)].
Proof.
  cbv zeta. unfold yield, trace. rewrite getNoiseResistantCanvasFingerprint_withCanvas.
  match goal with
  | |- context [withCanvas _ ?K] =>
      destruct (exec_withCanvas h unsupported K s)
        as [(s' & tr & -> & Hno & _) | [(e & s' & tr & -> & _) | (c & ctx & s' & pre & -> & ->)]];
        [simpl; congruence|done|]
  end.
  match goal with
  | |- context [exec h ?p s'] => remember (exec h p s') as x eqn:Hrun
  end.
  revert Hrun. unfold doesSupportWinding. unfold_monad. simpl. intros Hrun.
  do 3 (run_step h Hrun; [|by subst x]).
  rewrite exec_bind in Hrun.
  match type of Hrun with
  | context [exec h (getDenoisedCanvasData c ctx renderGeometryImage) ?s1] =>
      pose proof (getDenoisedCanvasData_run h c ctx renderGeometryImage s1) as Hgeo;
      unfold yield, trace in Hgeo;
      destruct (exec h (getDenoisedCanvasData c ctx renderGeometryImage) s1)
        as [[[g|e] sg] trg]
  end; [|by subst x].
  destruct (Hgeo g (renderGeometryImage_quiet _ _) eq_refl) as (Hdg & Hpg & _).
  simpl in Hdg, Hpg.
  simpl in Hrun. rewrite exec_bind in Hrun.
  match type of Hrun with
  | context [exec h (getDenoisedCanvasData c ctx renderTextImage) ?s1] =>
      pose proof (getDenoisedCanvasData_run h c ctx renderTextImage s1) as Htext;
      unfold yield, trace in Htext;
      destruct (exec h (getDenoisedCanvasData c ctx renderTextImage) s1)
        as [[[t|e] st] trt]
  end; [|by subst x].
  destruct (Htext t (renderTextImage_quiet _ _) eq_refl) as (Hdt & Hpt & _).
  simpl in Hdt, Hpt.
  subst x. simpl. intros [= <-] _. unfold dataURLs in *. simpl.
  rewrite !omap_app, !app_nil_r, Hdg, Hdt. split; [done|].
  change (list_omap (entry canvasE) bool pointInPath) with (omap pointInPath).
  by rewrite ?omap_app, Hpg, Hpt, Bool.negb_involutive.
Qed.

Transparent getDenoisedCanvasData.

(** ** Step 6 and the noise *)

(** Under a scaled canvas that reports [3 * W], step 6 is the fold of
    [copyPixel] over the rows and columns. *)
Lemma yield_extractCenterPixels {S} (h : host canvasE S) (I : S → Prop)
    (scaledCanvas : HTMLCanvasElement) (scaledImageData : u8array) (W H : nat) (s : S) :
  I s →
  (∀ s', I s' →
     (h _ (GetWidth scaledCanvas) s').1 = Normal (W * DENOISE_SCALE)
     ∧ I (h _ (GetWidth scaledCanvas) s').2) →
  yield h (extractCenterPixels scaledCanvas scaledImageData W H) s
  = Normal (foldl (λ a y, foldl (λ a x, copyPixel scaledImageData W (W * DENOISE_SCALE) y x a)
                            a (seq 0 W))
              (u8new (W * H * 4)) (seq 0 H)).
Proof.
  intros Hs Hwidth. unfold extractCenterPixels.
  refine (proj1 (yield_forRange h I _
    (λ y a, foldl (λ a x, copyPixel scaledImageData W (W * DENOISE_SCALE) y x a)
              a (seq 0 W)) _ _ _ s Hs)).
  intros y a s1 Hs1.
  apply (yield_forRange h I _
           (λ x a, copyPixel scaledImageData W (W * DENOISE_SCALE) y x a)); [|done].
  intros x a' s2 Hs2. destruct (Hwidth s2 Hs2) as [Hw HI].
  destruct (yield_denoisePixel h scaledCanvas scaledImageData W _ y x a' s2 Hw)
    as [-> ->]. done.
Qed.

(** Every byte of a [W] by [H] image is a channel of one of its
    pixels. *)
Lemma pixel_of_index (W H i : nat) :
  i < W * H * 4 → ∃ x y c, x < W ∧ y < H ∧ c < 4 ∧ i = (y * W + x) * 4 + c.
Proof.
  intros Hi. assert (0 < W) as HW by (destruct W; lia).
  exists ((i / 4) `mod` W), ((i / 4) / W), (i `mod` 4).
  pose proof (Nat.div_mod_eq i 4). pose proof (Nat.mod_upper_bound i 4 ltac:(lia)).
  pose proof (Nat.div_mod_eq (i / 4) W). pose proof (Nat.mod_upper_bound (i / 4) W ltac:(lia)).
  split_and!; [done| |done|lia].
  apply Nat.Div0.div_lt_upper_bound. apply Nat.Div0.div_lt_upper_bound. lia.
Qed.

(** The bytes of the scaled readback off the block centers do not
    reach the result of step 6: two readbacks that agree at the
    center of every block give the same image.  This is what removes
    a noise that leaves block centers alone. *)
Theorem denoise_ignores_off_center {S} (h : host canvasE S) (I : S → Prop)
    (scaledCanvas : HTMLCanvasElement) (readback1 readback2 : u8array) (W H : nat) (s : S) :
  I s →
  (∀ s', I s' →
     (h _ (GetWidth scaledCanvas) s').1 = Normal (W * DENOISE_SCALE)
     ∧ I (h _ (GetWidth scaledCanvas) s').2) →
  sameCenters W H readback1 readback2 →
  yield h (extractCenterPixels scaledCanvas readback1 W H) s
  = yield h (extractCenterPixels scaledCanvas readback2 W H) s.
Proof.
  intros Hs Hwidth Hsame.
  rewrite !(yield_extractCenterPixels h I) by done. f_equal.
  destruct (centersUpTo_rows readback1 W H (W * DENOISE_SCALE) H ltac:(lia)) as [Hlen1 Hpix1].
  destruct (centersUpTo_rows readback2 W H (W * DENOISE_SCALE) H ltac:(lia)) as [Hlen2 Hpix2].
  apply list_eq. intros i. destruct (decide (i < W * H * 4)) as [Hi|Hi].
  - destruct (pixel_of_index W H i Hi) as (x & y & c & Hx & Hy & Hc & ->).
    rewrite Hpix1, Hpix2 by (done || lia). f_equal.
    unfold DENOISE_SCALE. replace (W * 3) with (3 * W) by lia. by apply Hsame.
  - rewrite !lookup_ge_None_2 by lia. done.
Qed.

(** ** The choice of the path *)

Lemma no_scratch_calls (tr : list (entry canvasE)) :
  forallb (entry_in notScratchCall) tr = true →
  List.filter (entry_in scratchCall) tr = [].
Proof.
  induction tr as [|[X ev o] tr IH]; [done|].
  simpl. intros [Hev Htr]%andb_prop. unfold notScratchCall in Hev.
  apply negb_true_iff in Hev. rewrite Hev. by apply IH.
Qed.

(** The opening makes the one canvas of the stable path. *)
Lemma withCanvas_scratch {S R} (h : host canvasE S) (otherwise : R)
    (supported : HTMLCanvasElement → CanvasRenderingContext2D → prog canvasE R) (s : S) :
  (∀ canvas context, calls_only notScratchCall (supported canvas context)) →
  length (List.filter (entry_in scratchCall) (trace h (withCanvas otherwise supported) s)) ≤ 1.
Proof.
  intros Hsupported. unfold trace.
  remember (exec h (withCanvas otherwise supported) s) as x eqn:Hrun. revert Hrun.
  unfold withCanvas, makeCanvasContext, isSupported. unfold_monad. simpl. intros Hrun.
  do 4 (run_step h Hrun; [|subst x; simpl; lia]).
  match goal with o : option CanvasRenderingContext2D |- _ => destruct o as [context|] end;
    simpl in Hrun; [|subst x; simpl; lia].
  run_step h Hrun; [|subst x; simpl; lia].
  match goal with b : bool |- _ => destruct b end; simpl in Hrun; [|subst x; simpl; lia].
  match type of Hrun with
  | context [exec h (supported ?c ?ctx) ?s'] =>
      pose proof (trace_calls_only h _ _ s' (Hsupported c ctx)) as Hq; unfold trace in Hq;
      destruct (exec h (supported c ctx) s') as [[? ?] tr]
  end.
  subst x. simpl in *. by rewrite (no_scratch_calls _ Hq).
Qed.

Lemma getUnstableCanvasFingerprint_scratch {S} (h : host canvasE S) (skipImages : bool) (s : S) :
  length (List.filter (entry_in scratchCall)
            (trace h (getUnstableCanvasFingerprint skipImages) s)) ≤ 1.
Proof.
  rewrite getUnstableCanvasFingerprint_withCanvas. apply withCanvas_scratch.
  intros canvas context.
  unfold doesSupportWinding, renderImages, renderTextImage, renderGeometryImage,
    canvasToString.
  destruct skipImages; unfold_monad;
    repeat first
      [ apply calls_only_call; reflexivity
      | apply calls_only_Ret
      | apply calls_only_bind
      | apply calls_only_forEach
      | intros []
      | intro
      | match goal with
        | |- calls_only _ (if ?b then _ else _) => destruct b
        end ].
Qed.

(** [getCanvasFingerprint] makes a second canvas, or reads pixels
    back with [getImageData], only after [isWebKit],
    [isWebKit616OrNewer] and [isSafariWebKit] have all answered
    [true], asked in that order; on every other browser it makes one
    canvas and reads it back with [toDataURL] alone. *)
Theorem scratch_canvas_only_on_safari17 {S} (h : host canvasE S) (s : S) :
  let tr := trace h getCanvasFingerprint s in
  2 ≤ length (List.filter (entry_in scratchCall) tr) →
  ∃ rest, tr = Entry IsWebKit (Normal true) :: Entry IsWebKit616OrNewer (Normal true)
               :: Entry IsSafariWebKit (Normal true) :: rest.
Proof.
  cbv zeta. unfold getCanvasFingerprint. unfold_monad. rewrite trace_bind.
  assert ((∃ s', exec h doesBrowserPerformAntifingerprinting s
             = (Normal true, s',
                [ Entry IsWebKit (Normal true); Entry IsWebKit616OrNewer (Normal true);
                  Entry IsSafariWebKit (Normal true) ]))
          ∨ (yield h doesBrowserPerformAntifingerprinting s ≠ Normal true
             ∧ List.filter (entry_in scratchCall)
                 (trace h doesBrowserPerformAntifingerprinting s) = [])) as Hcheck.
  { unfold yield, trace.
    remember (exec h doesBrowserPerformAntifingerprinting s) as x eqn:Hrun. revert Hrun.
    unfold doesBrowserPerformAntifingerprinting. unfold_monad. simpl. intros Hrun.
    run_step h Hrun; [|right; subst x; simpl; split; [discriminate|done]].
    match goal with b : bool |- _ => destruct b end; simpl in Hrun; [|right; subst x; simpl; split; [discriminate|done]].
    run_step h Hrun; [|right; subst x; simpl; split; [discriminate|done]].
    match goal with b : bool |- _ => destruct b end; simpl in Hrun; [|right; subst x; simpl; split; [discriminate|done]].
    run_step h Hrun; [|right; subst x; simpl; split; [discriminate|done]].
    match goal with b : bool |- _ => destruct b end; simpl in Hrun; [|right; subst x; simpl; split; [discriminate|done]].
    left. subst x. by eexists. }
  destruct Hcheck as [(s' & Hexec) | (Hno & Hempty)].
  - intros _. unfold yield. unfold trace at 1. rewrite Hexec. simpl. by eexists.
  - rewrite List.filter_app, length_app, Hempty. simpl.
    destruct (yield h doesBrowserPerformAntifingerprinting s) as [[]|e]; [done| |simpl; lia].
    pose proof (getUnstableCanvasFingerprint_scratch h false
                  (final h doesBrowserPerformAntifingerprinting s)). lia.
Qed.

(** The opening on a page whose second canvas gets no context. *)
Lemma unsupported_canvas_witness :
  unsupported = unsupported
  ∧ forallb setupCall
      (trace (Browsers.browser Browsers.safariNoScratchContext)
         getNoiseResistantCanvasFingerprint
         {| Browsers.sizes := [(1, 1)]; Browsers.readbacks := 0 |}) = true
  ∧ length (trace (Browsers.browser Browsers.safariNoScratchContext)
              getNoiseResistantCanvasFingerprint
              {| Browsers.sizes := [(1, 1)]; Browsers.readbacks := 0 |}) ≤ 5.
Proof.
  apply (unsupported_canvas (Browsers.browser Browsers.safariNoScratchContext)
           getNoiseResistantCanvasFingerprint
           {| Browsers.sizes := [(1, 1)]; Browsers.readbacks := 0 |} unsupported).
  - by left.
  - vm_compute. reflexivity.
  - vm_compute. reflexivity.
Defined.

Lemma skipped_images_witness :
  ImageStatus.Skipped = ImageStatus.Skipped ∧ ImageStatus.Skipped = ImageStatus.Skipped
  ∧ omap pointInPath (trace (Browsers.browser Browsers.chrome)
                        (getUnstableCanvasFingerprint true) Browsers.emptyDom)
    = [negb true]
  ∧ dataURLs (trace (Browsers.browser Browsers.chrome)
                (getUnstableCanvasFingerprint true) Browsers.emptyDom) = []
  ∧ length (trace (Browsers.browser Browsers.chrome)
              (getUnstableCanvasFingerprint true) Browsers.emptyDom) = 8.
Proof.
  apply (skipped_images (Browsers.browser Browsers.chrome) Browsers.emptyDom
           {| winding := true; geometry := ImageStatus.Skipped;
              text := ImageStatus.Skipped |}).
  - vm_compute. reflexivity.
  - vm_compute. reflexivity.
Defined.

Lemma getDenoisedCanvasData_output_witness :
  let tr := trace (Browsers.browser Browsers.safari)
              (getDenoisedCanvasData (CanvasRef 0) (ContextRef 0) renderTextImage)
              {| Browsers.sizes := [(1, 1)]; Browsers.readbacks := 0 |} in
  ∃ scene W H scaledCanvas scaledContext dw dh sw sh scaledImageData widths
      outputCanvas outputContext outputImageData denoisedData,
    tr = scene
         ++ scalingStage (CanvasRef 0) W H scaledCanvas scaledContext dw dh sw sh
              scaledImageData
         ++ widthReads scaledCanvas widths
         ++ outputStage outputCanvas outputContext outputImageData W H denoisedData
              "data:image/png;base64,2/2"
    ∧ logs (renderTextImage (CanvasRef 0) (ContextRef 0)) scene (Normal tt)
    ∧ centersRead scaledImageData W H widths denoisedData (W * H)
    ∧ dataURLs tr = ["data:image/png;base64,2/2"].
Proof.
  apply (getDenoisedCanvasData_output (Browsers.browser Browsers.safari)
           (CanvasRef 0) (ContextRef 0) renderTextImage
           {| Browsers.sizes := [(1, 1)]; Browsers.readbacks := 0 |}).
  - by right.
  - vm_compute. reflexivity.
  - vm_compute. reflexivity.
Defined.

Lemma noise_resistant_record_witness :
  let tr := trace (Browsers.browser Browsers.safari) getNoiseResistantCanvasFingerprint
              Browsers.emptyDom in
  dataURLs tr = ["data:image/png;base64,2/2"; "data:image/png;base64,4/2"]
  ∧ omap pointInPath tr = [negb true].
Proof.
  apply (noise_resistant_record (Browsers.browser Browsers.safari) Browsers.emptyDom
           {| winding := true; geometry := "data:image/png;base64,2/2";
              text := "data:image/png;base64,4/2" |}).
  - vm_compute. reflexivity.
  - vm_compute. reflexivity.
Defined.

(** Two readbacks of a 6 by 3 canvas that differ in the top left
    corner of the first block. *)
Lemma denoise_ignores_off_center_witness :
  yield (Browsers.browser Browsers.safari)
    (extractCenterPixels (CanvasRef 1) (Browsers.pixelByte <$> seq 0 72) 2 1)
    {| Browsers.sizes := [(2, 1); (6, 3)]; Browsers.readbacks := 0 |}
  = yield (Browsers.browser Browsers.safari)
      (extractCenterPixels (CanvasRef 1)
         (<[0 := Byte.xff]> (Browsers.pixelByte <$> seq 0 72)) 2 1)
      {| Browsers.sizes := [(2, 1); (6, 3)]; Browsers.readbacks := 0 |}.
Proof.
  apply (denoise_ignores_off_center (Browsers.browser Browsers.safari)
           (λ d, Browsers.sizeOf d (CanvasRef 1) = (6, 3))).
  - reflexivity.
  - intros s' Hs'. split; [|exact Hs'].
    change (Normal (Browsers.sizeOf s' (CanvasRef 1)).1 = Normal 6).
    rewrite Hs'. reflexivity.
  - intros x y c Hx Hy Hc.
    assert (y = 0) as -> by lia.
    assert (x = 0 ∨ x = 1) as [-> | ->] by lia;
      (assert (c = 0 ∨ c = 1 ∨ c = 2 ∨ c = 3) as [-> | [-> | [-> | ->]]] by lia);
      reflexivity.
Defined.

Lemma scratch_canvas_only_on_safari17_witness :
  ∃ rest, trace (Browsers.browser Browsers.safari) getCanvasFingerprint Browsers.emptyDom
          = Entry IsWebKit (Normal true) :: Entry IsWebKit616OrNewer (Normal true)
            :: Entry IsSafariWebKit (Normal true) :: rest.
Proof.
  apply (scratch_canvas_only_on_safari17 (Browsers.browser Browsers.safari) Browsers.emptyDom).
  vm_compute. lia.
Defined.

End CanvasFacts.

(** * screen_media_queries.ts: facts *)
Module ScreenMediaQueriesFacts.
Import ScreenMediaQueries.

Lemma lowerBoundLoop_unfold minQuery low high :
  lowerBoundLoop minQuery low high =
  if decide (high - low > 10)%Z then
    matches ← matchMedia (pxQuery minQuery ((low + high) `div` 2));
    if matches : bool
    then lowerBoundLoop minQuery ((low + high) `div` 2) high
    else lowerBoundLoop minQuery low ((low + high) `div` 2)
  else mret low.
Proof.
  rewrite lowerBoundLoop_equation_1.
  by destruct (decide (high - low > 10)%Z).
Qed.

Lemma upperBoundLoop_unfold maxQuery low high :
  upperBoundLoop maxQuery low high =
  if decide (high - low > 10)%Z then
    matches ← matchMedia (pxQuery maxQuery ((low + high) `div` 2));
    if matches : bool
    then upperBoundLoop maxQuery low ((low + high) `div` 2)
    else upperBoundLoop maxQuery ((low + high) `div` 2) high
  else mret high.
Proof.
  rewrite upperBoundLoop_equation_1.
  by destruct (decide (high - low > 10)%Z).
Qed.

Section Probe.
Context {S : Type} (h : host mediaE S) (v : Z) (minQuery maxQuery : string).
Hypothesis Hmin : ∀ m s, (0 ≤ m ≤ 8192)%Z →
  (h _ (MatchMedia (pxQuery minQuery m)) s).1 = Normal (bool_decide (m ≤ v)%Z).
Hypothesis Hmax : ∀ m s, (0 ≤ m ≤ 8192)%Z →
  (h _ (MatchMedia (pxQuery maxQuery m)) s).1 = Normal (bool_decide (v ≤ m)%Z).

(** The interval of the first loop keeps a width [8 * 2^k] and stays
    aligned on it, so it ends with a multiple of 8 at most 8 below the
    value, except at the top of the range. *)
Lemma lowerBoundLoop_spec (k : nat) (low high j : Z) (s : S) :
  (high - low = 8 * 2 ^ Z.of_nat k)%Z → (low = 8 * 2 ^ Z.of_nat k * j)%Z →
  (0 ≤ low)%Z → (high ≤ 8192)%Z → (low ≤ v)%Z → (v < high ∨ high = 8192)%Z →
  ∃ lo i, yield h (lowerBoundLoop minQuery low high) s = Normal lo
    ∧ (lo = 8 * i)%Z ∧ (0 ≤ lo)%Z ∧ (lo ≤ v)%Z ∧ (v < lo + 8 ∨ lo + 8 = 8192)%Z.
Proof.
  revert low high j s. induction k as [|k IH]; intros low high j s Hgap Halign H0 Hhi Hlow Hup;
    rewrite lowerBoundLoop_unfold.
  - change (2 ^ Z.of_nat 0)%Z with 1%Z in *.
    destruct (decide (high - low > 10)%Z); [lia|].
    exists low, j. split; [done|]. lia.
  - rewrite Nat2Z.inj_succ, Z.pow_succ_r in Hgap, Halign by lia.
    pose proof (Z.pow_pos_nonneg 2 (Z.of_nat k) ltac:(lia) ltac:(lia)) as Hp.
    set (p := (2 ^ Z.of_nat k)%Z) in *.
    destruct (decide (high - low > 10)%Z); [|lia].
    assert ((low + high) `div` 2 = low + 8 * p)%Z as ->.
    { symmetry. apply (Z.div_unique _ _ _ 0); lia. }
    unfold matchMedia. unfold_monad. rewrite yield_bind, yield_call, final_call.
    rewrite Hmin by lia.
    case_bool_decide.
    + apply (IH _ _ (2 * j + 1)%Z); lia.
    + apply (IH _ _ (2 * j)%Z); lia.
Qed.

Lemma upperBoundLoop_spec (k : nat) (low high j : Z) (s : S) :
  (high - low = 8 * 2 ^ Z.of_nat k)%Z → (low = 8 * 2 ^ Z.of_nat k * j)%Z →
  (0 ≤ low)%Z → (high ≤ 8192)%Z → (v ≤ high)%Z → (low < v ∨ low = 0)%Z →
  ∃ hi i, yield h (upperBoundLoop maxQuery low high) s = Normal hi
    ∧ (hi = 8 * i)%Z ∧ (hi ≤ 8192)%Z ∧ (v ≤ hi)%Z ∧ (hi - 8 < v ∨ hi - 8 = 0)%Z.
Proof.
  revert low high j s. induction k as [|k IH]; intros low high j s Hgap Halign H0 Hhi Hup Hlow;
    rewrite upperBoundLoop_unfold.
  - change (2 ^ Z.of_nat 0)%Z with 1%Z in *.
    destruct (decide (high - low > 10)%Z); [lia|].
    exists high, (j + 1)%Z. split; [done|]. lia.
  - rewrite Nat2Z.inj_succ, Z.pow_succ_r in Hgap, Halign by lia.
    pose proof (Z.pow_pos_nonneg 2 (Z.of_nat k) ltac:(lia) ltac:(lia)) as Hp.
    set (p := (2 ^ Z.of_nat k)%Z) in *.
    destruct (decide (high - low > 10)%Z); [|lia].
    assert ((low + high) `div` 2 = low + 8 * p)%Z as ->.
    { symmetry. apply (Z.div_unique _ _ _ 0); lia. }
    unfold matchMedia. unfold_monad. rewrite yield_bind, yield_call, final_call.
    rewrite Hmax by lia.
    case_bool_decide.
    + apply (IH _ _ (2 * j)%Z); lia.
    + apply (IH _ _ (2 * j + 1)%Z); lia.
Qed.

Lemma probe_bracket (s : S) :
  (0 ≤ v ≤ 8192)%Z →
  ∃ lo hi,
    yield h (minValue ← lowerBoundLoop minQuery 0 8192;
             maxValue ← upperBoundLoop maxQuery 0 8192;
             mret (minValue, maxValue)) s = Normal (lo, hi)
    ∧ (0 ≤ lo ≤ hi)%Z ∧ (hi ≤ 8192)%Z ∧ (hi - lo ≤ 10)%Z ∧ (lo ≤ v ≤ hi)%Z.
Proof.
  intros Hv. unfold_monad.
  destruct (lowerBoundLoop_spec 10 0 8192 0 s) as (lo & i & Hlo & -> & ? & ? & ?);
    [done|done|lia..|].
  rewrite yield_bind, Hlo.
  destruct (upperBoundLoop_spec 10 0 8192 0 (final h (lowerBoundLoop minQuery 0 8192) s))
    as (hi & i' & Hhi & -> & ? & ? & ?); [done|done|lia..|].
  rewrite yield_bind, Hhi. exists (8 * i)%Z, (8 * i')%Z. split; [done|]. lia.
Qed.
End Probe.

(** C2: for either dimension and a host whose [min-] query matches
    exactly the values up to the true one and whose [max-] query
    exactly the values from it on (asked on the probed range), the
    true value being in [0, 8192]: [detectDimensionRange] returns
    [lo, hi] with [0 ≤ lo ≤ hi ≤ 8192], [hi − lo ≤ 10] and
    [lo ≤ v ≤ hi]. *)
Theorem detectDimensionRange_brackets {S} (h : host mediaE S) (dim : dimension)
    (v : Z) (s : S) :
  (0 ≤ v ≤ 8192)%Z →
  (∀ m s', (0 ≤ m ≤ 8192)%Z →
     (h _ (MatchMedia (pxQuery (match dim with width => "min-width" | height => "min-height" end) m)) s').1
     = Normal (bool_decide (m ≤ v)%Z)) →
  (∀ m s', (0 ≤ m ≤ 8192)%Z →
     (h _ (MatchMedia (pxQuery (match dim with width => "max-width" | height => "max-height" end) m)) s').1
     = Normal (bool_decide (v ≤ m)%Z)) →
  ∃ lo hi,
    yield h (detectDimensionRange dim) s = Normal (lo, hi)
    ∧ (0 ≤ lo ≤ hi)%Z ∧ (hi ≤ 8192)%Z ∧ (hi - lo ≤ 10)%Z ∧ (lo ≤ v ≤ hi)%Z.
Proof.
  intros Hv Hmin Hmax. unfold detectDimensionRange. cbv zeta.
  by apply probe_bracket.
Qed.

Lemma forall_probed (P : Z → bool) :
  forallb P (seqZ 0 8193) = true → ∀ m, (0 ≤ m ≤ 8192)%Z → P m = true.
Proof.
  intros Hall m Hm. rewrite forallb_forall in Hall. apply Hall.
  apply list_elem_of_In, elem_of_seqZ. lia.
Qed.

Lemma laptop_min_width m s :
  (0 ≤ m ≤ 8192)%Z →
  (Browsers.mediaBrowser Browsers.laptop _ (MatchMedia (pxQuery "min-width" m)) s).1
  = Normal (bool_decide (m ≤ 1280)%Z).
Proof.
  intros Hm. simpl. f_equal. apply Bool.eqb_prop.
  revert m Hm. apply forall_probed. vm_compute. reflexivity.
Qed.

Lemma laptop_max_width m s :
  (0 ≤ m ≤ 8192)%Z →
  (Browsers.mediaBrowser Browsers.laptop _ (MatchMedia (pxQuery "max-width" m)) s).1
  = Normal (bool_decide (1280 ≤ m)%Z).
Proof.
  intros Hm. simpl. f_equal. apply Bool.eqb_prop.
  revert m Hm. apply forall_probed. vm_compute. reflexivity.
Qed.

(** C2 on a viewport 1280 pixels wide. *)
Lemma detectDimensionRange_brackets_witness :
  ∃ lo hi,
    yield (Browsers.mediaBrowser Browsers.laptop) (detectDimensionRange width) tt
    = Normal (lo, hi)
    ∧ (0 ≤ lo ≤ hi)%Z ∧ (hi ≤ 8192)%Z ∧ (hi - lo ≤ 10)%Z ∧ (lo ≤ 1280 ≤ hi)%Z.
Proof.
  apply (detectDimensionRange_brackets (Browsers.mediaBrowser Browsers.laptop) width 1280 tt).
  - lia.
  - intros m s' Hm. by apply laptop_min_width.
  - intros m s' Hm. by apply laptop_max_width.
Defined.

Example probe_1280 :
  yield (Browsers.mediaBrowser Browsers.laptop) (detectDimensionRange width) tt
  = Normal (1280, 1280)%Z.
Proof. vm_compute. reflexivity. Qed.

Example probe_720 :
  yield (Browsers.mediaBrowser Browsers.laptop) (detectDimensionRange height) tt
  = Normal (720, 720)%Z.
Proof. vm_compute. reflexivity. Qed.

(** ** The two loops under any host *)

Section AnyHost.
Context {S : Type} (h : host mediaE S).

(** Whatever the answers, the first loop asks one query per halving
    and ends on a multiple of 8 inside its interval, at least 8 below
    the upper end. *)
Lemma lowerBoundLoop_any (minQuery : string) (k : nat) (low high j : Z) (s : S) lo s' tr :
  (high - low = 8 * 2 ^ Z.of_nat k)%Z → (low = 8 * 2 ^ Z.of_nat k * j)%Z →
  exec h (lowerBoundLoop minQuery low high) s = (Normal lo, s', tr) →
  (∃ i, lo = 8 * i)%Z ∧ (low ≤ lo)%Z ∧ (lo + 8 ≤ high)%Z ∧ length tr = k.
Proof.
  revert low high j s tr. induction k as [|k IH]; intros low high j s tr Hgap Halign;
    rewrite lowerBoundLoop_unfold.
  - change (2 ^ Z.of_nat 0)%Z with 1%Z in *.
    destruct (decide (high - low > 10)%Z); [lia|].
    intros [= <- <- <-]. split; [exists j; lia|]. split_and!; [lia..|done].
  - rewrite Nat2Z.inj_succ, Z.pow_succ_r in Hgap, Halign by lia.
    pose proof (Z.pow_pos_nonneg 2 (Z.of_nat k) ltac:(lia) ltac:(lia)) as Hp.
    set (p := (2 ^ Z.of_nat k)%Z) in *.
    destruct (decide (high - low > 10)%Z); [|lia].
    assert ((low + high) `div` 2 = low + 8 * p)%Z as ->.
    { symmetry. apply (Z.div_unique _ _ _ 0); lia. }
    unfold matchMedia. unfold_monad. simpl.
    destruct (h bool _ s) as [[[]|e] s1]; simpl; [| |done].
    + destruct (exec h _ s1) as [[o s2] tr'] eqn:Hrest. intros [= -> -> <-].
      destruct (IH (low + 8 * p)%Z high (2 * j + 1)%Z s1 tr' ltac:(lia) ltac:(lia) Hrest)
        as (Hi & ? & ? & ?).
      split; [done|]. split_and!; [lia..|simpl; lia].
    + destruct (exec h _ s1) as [[o s2] tr'] eqn:Hrest. intros [= -> -> <-].
      destruct (IH low (low + 8 * p)%Z (2 * j)%Z s1 tr' ltac:(lia) ltac:(lia) Hrest)
        as (Hi & ? & ? & ?).
      split; [done|]. split_and!; [lia..|simpl; lia].
Qed.

Lemma upperBoundLoop_any (maxQuery : string) (k : nat) (low high j : Z) (s : S) hi s' tr :
  (high - low = 8 * 2 ^ Z.of_nat k)%Z → (low = 8 * 2 ^ Z.of_nat k * j)%Z →
  exec h (upperBoundLoop maxQuery low high) s = (Normal hi, s', tr) →
  (∃ i, hi = 8 * i)%Z ∧ (low + 8 ≤ hi)%Z ∧ (hi ≤ high)%Z ∧ length tr = k.
Proof.
  revert low high j s tr. induction k as [|k IH]; intros low high j s tr Hgap Halign;
    rewrite upperBoundLoop_unfold.
  - change (2 ^ Z.of_nat 0)%Z with 1%Z in *.
    destruct (decide (high - low > 10)%Z); [lia|].
    intros [= <- <- <-]. split; [exists (j + 1)%Z; lia|]. split_and!; [lia..|done].
  - rewrite Nat2Z.inj_succ, Z.pow_succ_r in Hgap, Halign by lia.
    pose proof (Z.pow_pos_nonneg 2 (Z.of_nat k) ltac:(lia) ltac:(lia)) as Hp.
    set (p := (2 ^ Z.of_nat k)%Z) in *.
    destruct (decide (high - low > 10)%Z); [|lia].
    assert ((low + high) `div` 2 = low + 8 * p)%Z as ->.
    { symmetry. apply (Z.div_unique _ _ _ 0); lia. }
    unfold matchMedia. unfold_monad. simpl.
    destruct (h bool _ s) as [[[]|e] s1]; simpl; [| |done].
    + destruct (exec h _ s1) as [[o s2] tr'] eqn:Hrest. intros [= -> -> <-].
      destruct (IH low (low + 8 * p)%Z (2 * j)%Z s1 tr' ltac:(lia) ltac:(lia) Hrest)
        as (Hi & ? & ? & ?).
      split; [done|]. split_and!; [lia..|simpl; lia].
    + destruct (exec h _ s1) as [[o s2] tr'] eqn:Hrest. intros [= -> -> <-].
      destruct (IH (low + 8 * p)%Z high (2 * j + 1)%Z s1 tr' ltac:(lia) ltac:(lia) Hrest)
        as (Hi & ? & ? & ?).
      split; [done|]. split_and!; [lia..|simpl; lia].
Qed.

End AnyHost.

(** Whatever the host answers, consistent or not,
    [detectDimensionRange] asks twenty queries, ten per bound, and
    returns two multiples of 8: a lower value from 0 to 8184 and an
    upper value from 8 to 8192.  Nothing orders the two: see
    [inverted_range]. *)
Theorem detectDimensionRange_any {S} (h : host mediaE S) (dim : dimension) (s : S)
    (lo hi : Z) :
  yield h (detectDimensionRange dim) s = Normal (lo, hi) →
  (∃ i j, lo = 8 * i ∧ hi = 8 * j ∧ 0 ≤ i ≤ 1023 ∧ 1 ≤ j ≤ 1024)%Z
  ∧ length (trace h (detectDimensionRange dim) s) = 20.
Proof.
  unfold yield, trace, detectDimensionRange. cbv zeta. unfold_monad.
  rewrite exec_bind.
  destruct (exec h (lowerBoundLoop _ 0 8192) s) as [[[lo'|e] s1] tr1] eqn:Hlow; [|done].
  destruct (lowerBoundLoop_any h _ 10 0 8192 0 s _ _ _ eq_refl eq_refl Hlow)
    as ([i ->] & ? & ? & Hlen1).
  rewrite exec_bind.
  destruct (exec h (upperBoundLoop _ 0 8192) s1) as [[[hi'|e] s2] tr2] eqn:Hup; [|done].
  destruct (upperBoundLoop_any h _ 10 0 8192 0 s1 _ _ _ eq_refl eq_refl Hup)
    as ([j ->] & ? & ? & Hlen2).
  simpl. intros [= <- <-]. split; [exists i, j; lia|].
  rewrite !length_app, Hlen1, Hlen2. done.
Qed.

Section Monotone.
Context {S : Type} (h : host mediaE S) (v : Z) (minQuery maxQuery : string).
Hypothesis Hmin : ∀ m s, (0 ≤ m ≤ 8192)%Z →
  (h _ (MatchMedia (pxQuery minQuery m)) s).1 = Normal (bool_decide (m ≤ v)%Z).
Hypothesis Hmax : ∀ m s, (0 ≤ m ≤ 8192)%Z →
  (h _ (MatchMedia (pxQuery maxQuery m)) s).1 = Normal (bool_decide (v ≤ m)%Z).

Lemma probe_exact (s : S) :
  (0 ≤ v ≤ 8192)%Z →
  yield h (minValue ← lowerBoundLoop minQuery 0 8192;
           maxValue ← upperBoundLoop maxQuery 0 8192;
           mret (minValue, maxValue)) s
  = Normal (if decide (v = 8192) then 8184 else 8 * (v `div` 8),
            if decide (v = 0) then 8 else 8 * ((v + 7) `div` 8))%Z.
Proof.
  intros Hv. unfold_monad.
  destruct (lowerBoundLoop_spec h v minQuery Hmin 10 0 8192 0 s)
    as (lo & i & Hlo & -> & ? & ? & ?); [done|done|lia..|].
  rewrite yield_bind, Hlo.
  set (s1 := final h (lowerBoundLoop minQuery 0 8192) s).
  destruct (upperBoundLoop_spec h v maxQuery Hmax 10 0 8192 0 s1)
    as (hi & i' & Hhi & -> & ? & ? & ?); [done|done|lia..|].
  rewrite yield_bind, Hhi. simpl.
  unfold yield in Hlo, Hhi.
  destruct (exec h (lowerBoundLoop minQuery 0 8192) s) as [[o1 t1] tr1] eqn:Hlow.
  destruct (exec h (upperBoundLoop maxQuery 0 8192) s1) as [[o2 t2] tr2] eqn:Hup.
  simpl in Hlo, Hhi. subst o1 o2.
  destruct (lowerBoundLoop_any h _ 10 0 8192 0 s _ _ _ eq_refl eq_refl Hlow) as (_ & _ & ? & _).
  destruct (upperBoundLoop_any h _ 10 0 8192 0 s1 _ _ _ eq_refl eq_refl Hup) as (_ & ? & _ & _).
  unfold yield. simpl. do 2 f_equal.
  - case_decide; [lia|]. f_equal. apply (Z.div_unique v 8 i (v - 8 * i)); lia.
  - case_decide; [lia|]. f_equal. apply (Z.div_unique (v + 7) 8 i' (v + 7 - 8 * i')); lia.
Qed.
End Monotone.

(** For a host whose [min-] and [max-] queries are answered from a
    true value [v] in [0, 8192], the range is [v] rounded down and up
    to a multiple of 8: the value itself, twice, when it is a multiple
    of 8, and an interval of width 8 around it otherwise.  The two
    ends of the probed range are the exceptions: 0 gives [0, 8] and
    8192 gives [8184, 8192]. *)
Theorem detectDimensionRange_exact {S} (h : host mediaE S) (dim : dimension)
    (v : Z) (s : S) :
  (0 ≤ v ≤ 8192)%Z →
  (∀ m s', (0 ≤ m ≤ 8192)%Z →
     (h _ (MatchMedia (pxQuery (match dim with width => "min-width" | height => "min-height" end) m)) s').1
     = Normal (bool_decide (m ≤ v)%Z)) →
  (∀ m s', (0 ≤ m ≤ 8192)%Z →
     (h _ (MatchMedia (pxQuery (match dim with width => "max-width" | height => "max-height" end) m)) s').1
     = Normal (bool_decide (v ≤ m)%Z)) →
  yield h (detectDimensionRange dim) s
  = Normal (if decide (v = 8192) then 8184 else 8 * (v `div` 8),
            if decide (v = 0) then 8 else 8 * ((v + 7) `div` 8))%Z.
Proof.
  intros Hv Hmin Hmax. unfold detectDimensionRange. cbv zeta.
  by apply probe_exact.
Qed.

(** An inconsistent host gets an inverted range. *)
Example inverted_range :
  yield Browsers.yesBrowser (detectDimensionRange width) tt = Normal (8184, 8)%Z.
Proof. vm_compute. reflexivity. Qed.

(** ** The tables probed from the top *)

Section ProbeDown.
Context {S A K : Type} (h : host mediaE S) (query : A → string) (key : A → K)
  (le : K → K → Prop) `{!RelDecision le, !Reflexive le} (actual : K).

(** On a table given from its largest key down, with a query per
    entry that matches exactly when the key is at most [actual],
    [probeDown] returns the entry with the largest key at most
    [actual], and nothing when every key is above it. *)
Lemma probeDown_largest (fromTop : list A) (s : S) :
  (∀ x s', x ∈ fromTop →
     (h _ (MatchMedia (query x)) s').1 = Normal (bool_decide (le (key x) actual))) →
  StronglySorted (λ x y, le (key y) (key x)) fromTop →
  ∃ found, yield h (probeDown query fromTop) s = Normal found
    ∧ match found with
      | Some x => x ∈ fromTop ∧ le (key x) actual
                  ∧ ∀ y, y ∈ fromTop → le (key y) actual → le (key y) (key x)
      | None => ∀ y, y ∈ fromTop → ¬ le (key y) actual
      end.
Proof.
  revert s. induction fromTop as [|x rest IH]; intros s Hq Hsorted.
  - exists None. split; [done|]. by intros y ?%elem_of_nil.
  - apply StronglySorted_inv in Hsorted as [Hrest Hx].
    cbn [probeDown]. unfold matchMedia. unfold_monad.
    rewrite yield_bind, yield_call, final_call.
    rewrite Hq by left. case_bool_decide as Hle.
    + exists (Some x). split; [done|]. split_and!; [left|done|].
      intros y [->|Hy]%elem_of_cons _; [done|].
      by apply (Forall_forall (λ y, le (key y) (key x)) rest).
    + destruct (IH (h _ (MatchMedia (query x)) s).2) as (found & Hfound & Hspec);
        [intros; apply Hq; by right|done|].
      exists found. split; [done|]. destruct found as [z|].
      * destruct Hspec as (? & ? & Hmax). split_and!; [by right|done|].
        intros y [->|Hy]%elem_of_cons ?; [done|by apply Hmax].
      * intros y [->|Hy]%elem_of_cons; [done|by apply Hspec].
Qed.
End ProbeDown.

(** For a host whose [(min-color: d)] matches exactly when [d] is at
    most the color depth [bits] of the screen, [detectColorBits]
    returns the largest of the eight depths of the table not above
    [bits], and 0 when [bits] is below 1. *)
Theorem detectColorBits_largest {S} (h : host mediaE S) (bits : Z) (s : S) :
  (∀ d s', d ∈ depths →
     (h _ (MatchMedia ("(min-color: " +:+ pretty d +:+ ")")) s').1
     = Normal (bool_decide (d ≤ bits)%Z)) →
  ∃ r, yield h detectColorBits s = Normal r
    ∧ (bits < 1 → r = 0)%Z
    ∧ (1 ≤ bits → r ∈ depths ∧ r ≤ bits ∧ ∀ d, d ∈ depths → d ≤ bits → d ≤ r)%Z.
Proof.
  intros Hq. unfold detectColorBits. unfold_monad. rewrite yield_bind.
  destruct (probeDown_largest h (λ d, "(min-color: " +:+ pretty d +:+ ")") id Z.le bits
              (reverse depths) s) as (found & -> & Hspec).
  { intros d s' Hd%elem_of_reverse. by apply Hq. }
  { vm_compute reverse. repeat (constructor; [|repeat constructor; unfold id; lia]). constructor. }
  destruct found as [d|]; simpl.
  - destruct Hspec as (Hd%elem_of_reverse & Hle & Hmax). exists d. split; [done|].
    unfold id in *. split.
    + intros Hbits. unfold depths in Hd. set_unfold in Hd. lia.
    + intros _. split_and!; [done..|]. intros d' Hd'. apply Hmax. by apply elem_of_reverse.
  - exists 0%Z. split; [done|]. split; [done|]. intros Hbits.
    destruct (Hspec 1%Z); [vm_compute reverse; set_solver|unfold id; lia].
Qed.

Lemma ratios_from_half (r : Qcanon.Qc * string) :
  r ∈ ratios → Qcanon.Qcle (ratio 1 2) r.1.
Proof.
  unfold ratios. rewrite !elem_of_cons, elem_of_nil.
  intros H. repeat (destruct H as [-> | H]; [by vm_compute|]). done.
Qed.

(** For a host whose [(min-resolution: r dppx)] matches exactly when
    [r] is at most the pixel ratio [actual] of the screen:
    from 0.5 on, [detectPixelRatio] returns the largest of the
    thirteen ratios of the table not above [actual] (4 for every
    ratio above 4), without reading [window.devicePixelRatio]; below
    0.5 it returns [window.devicePixelRatio], or 1 when that is
    [undefined], [NaN] or 0. *)
Theorem detectPixelRatio_largest {S} (h : host mediaE S) (actual : Qcanon.Qc)
    (dpr : option Qcanon.Qc) (s : S) :
  (∀ r s', r ∈ ratios →
     (h _ (MatchMedia ("(min-resolution: " +:+ r.2 +:+ "dppx)")) s').1
     = Normal (bool_decide (Qcanon.Qcle r.1 actual))) →
  (∀ s', (h _ DevicePixelRatio s').1 = Normal dpr) →
  ∃ q, yield h detectPixelRatio s = Normal q
    ∧ (Qcanon.Qclt actual (ratio 1 2) → q = ratioOrOne dpr)
    ∧ (Qcanon.Qcle (ratio 1 2) actual →
         (∃ printed, (q, printed) ∈ ratios) ∧ Qcanon.Qcle q actual
         ∧ (∀ r, r ∈ ratios → Qcanon.Qcle r.1 actual → Qcanon.Qcle r.1 q)
         ∧ trace h detectPixelRatio s
           = trace h (probeDown (λ r, "(min-resolution: " +:+ r.2 +:+ "dppx)")
                        (reverse ratios)) s).
Proof.
  intros Hq Hdpr. unfold detectPixelRatio, trace. unfold_monad.
  rewrite yield_bind. unfold yield at 2, final. rewrite exec_bind.
  destruct (probeDown_largest h (λ r : Qcanon.Qc * string, "(min-resolution: " +:+ r.2 +:+ "dppx)")
              fst Qcanon.Qcle actual (reverse ratios) s) as (found & Hfound & Hspec).
  { intros r s' Hr%elem_of_reverse. by apply Hq. }
  { vm_compute reverse.
    repeat (constructor; [|repeat (constructor; [by vm_compute|]); constructor]). constructor. }
  rewrite Hfound. unfold yield in Hfound.
  destruct (exec h (probeDown _ (reverse ratios)) s) as [[o s1] tr]. simpl in Hfound. subst o.
  destruct found as [[q t]|]; simpl.
  - destruct Hspec as (Hin & Hle & Hmax). rewrite elem_of_reverse in Hin.
    exists q. split; [done|]. cbn [fst] in *. split.
    + intros Hlow. apply ratios_from_half in Hin. cbn [fst] in Hin.
      exfalso. apply (Qcanon.Qclt_not_le _ _ Hlow). by apply (Qcanon.Qcle_trans _ q).
    + intros _. split_and!; [by exists t|done| |by rewrite app_nil_r].
      intros r Hr ?. apply Hmax; [|done]. by rewrite elem_of_reverse.
  - unfold yield. simpl. specialize (Hdpr s1).
    destruct (h _ DevicePixelRatio s1) as [o s2]. simpl in Hdpr. subst o. simpl.
    eexists. split; [done|]. split; [done|].
    intros Hhalf. destruct (Hspec (ratio 1 2, "0.5")); [vm_compute reverse; set_solver|done].
Qed.

(** ** The number of queries *)

Lemma within_probeDown {S A} (h : host mediaE S) (query : A → string) (x : A) (rest : list A) :
  within h 1 (1 + length rest) (probeDown query (x :: rest)).
Proof.
  revert x. induction rest as [|y rest IH]; intros x; cbn [probeDown];
    unfold matchMedia; unfold_monad.
  - apply (within_bind h _ _ 1 1 0 0); [apply within_call|]. intros []; apply within_ret.
  - apply (within_bind h _ _ 1 1 0 (1 + length rest)); [apply within_call|]. intros [].
    + apply (within_weaken h _ 0 0); [apply within_ret|lia..].
    + apply (within_weaken h _ 1 (1 + length rest)); [apply IH|lia..].
Qed.

Lemma within_firstMatch {S} (h : host mediaE S) (feature x : string) (rest : list string) :
  within h 1 (1 + length rest) (firstMatch feature (x :: rest)).
Proof.
  revert x. induction rest as [|y rest IH]; intros x; cbn [firstMatch];
    unfold matchMedia; unfold_monad.
  - apply (within_bind h _ _ 1 1 0 0); [apply within_call|]. intros []; apply within_ret.
  - apply (within_bind h _ _ 1 1 0 (1 + length rest)); [apply within_call|]. intros [].
    + apply (within_weaken h _ 0 0); [apply within_ret|lia..].
    + apply (within_weaken h _ 1 (1 + length rest)); [apply IH|lia..].
Qed.

Lemma within_detectDimensionRange {S} (h : host mediaE S) (dim : dimension) :
  within h 20 20 (detectDimensionRange dim).
Proof.
  intros s. destruct (yield h (detectDimensionRange dim) s) as [[lo hi]|e] eqn:Hrun; [|done].
  cut (length (trace h (detectDimensionRange dim) s) = 20); [lia|].
  unfold yield, trace, detectDimensionRange in *. cbv zeta in *. unfold_monad.
  rewrite exec_bind in *.
  destruct (exec h (lowerBoundLoop _ 0 8192) s) as [[[lo'|e] s1] tr1] eqn:Hlow; [|done].
  destruct (lowerBoundLoop_any h _ 10 0 8192 0 s _ _ _ eq_refl eq_refl Hlow) as (_ & _ & _ & Hlen1).
  rewrite exec_bind in *.
  destruct (exec h (upperBoundLoop _ 0 8192) s1) as [[[hi'|e] s2] tr2] eqn:Hup; [|done].
  destruct (upperBoundLoop_any h _ 10 0 8192 0 s1 _ _ _ eq_refl eq_refl Hup) as (_ & _ & _ & Hlen2).
  simpl. rewrite !length_app, Hlen1, Hlen2. done.
Qed.

(** A call of [getScreenMediaQueries] that returns has made at least
    52 and at most 89 host calls: forty queries for the two
    dimensions, one to thirteen for the pixel ratio and one read of
    [devicePixelRatio] when none matched, one to eight for the color
    depth, and for each of the ten features one query per value until
    the first match. *)
Theorem getScreenMediaQueries_cost {S} (h : host mediaE S) (s : S) (r : ScreenMediaQueries) :
  yield h getScreenMediaQueries s = Normal r →
  52 ≤ length (trace h getScreenMediaQueries s) ≤ 89.
Proof.
  intros Hrun.
  assert (within h 52 89 getScreenMediaQueries) as Hcost.
  { unfold getScreenMediaQueries, detectPixelRatio, detectColorBits, detectOrientation,
      detectDisplayMode, detectPointer, detectHover, detectAnyPointer, detectAnyHover,
      detectOverflowBlock, detectOverflowInline, detectUpdate, detectScripting.
    unfold_monad.
    eapply within_weaken.
    { do 2 (eapply within_bind; [apply within_detectDimensionRange|intros ?]).
      eapply within_bind.
      { eapply within_bind; [vm_compute reverse; apply within_probeDown|].
        intros [?|].
        - apply (within_weaken h _ 0 0 0 1); [apply within_ret|lia..].
        - apply (within_weaken h _ (1 + 0) (1 + 0) 0 1); [|lia..].
          apply within_bind; [apply within_call|intros ?; apply within_ret]. }
      intros ?. eapply within_bind.
      { eapply within_bind; [vm_compute reverse; apply within_probeDown|].
        intros ?. apply within_ret. }
      intros ?.
      do 10 (eapply within_bind; [apply within_firstMatch|intros ?]).
      apply within_ret. }
    all: simpl; lia. }
  specialize (Hcost s). by rewrite Hrun in Hcost.
Qed.

Lemma detectDimensionRange_any_witness :
  (∃ i j, 8184 = 8 * i ∧ 8 = 8 * j ∧ 0 ≤ i ≤ 1023 ∧ 1 ≤ j ≤ 1024)%Z
  ∧ length (trace Browsers.yesBrowser (detectDimensionRange width) tt) = 20.
Proof.
  apply (detectDimensionRange_any Browsers.yesBrowser width tt 8184 8).
  vm_compute. reflexivity.
Defined.

Lemma detectDimensionRange_exact_witness :
  yield (Browsers.mediaBrowser Browsers.laptop) (detectDimensionRange width) tt
  = Normal (if decide (1280 = 8192) then 8184 else 8 * (1280 `div` 8),
            if decide (1280 = 0) then 8 else 8 * ((1280 + 7) `div` 8))%Z.
Proof.
  apply (detectDimensionRange_exact (Browsers.mediaBrowser Browsers.laptop) width 1280 tt).
  - lia.
  - intros m s' Hm. by apply laptop_min_width.
  - intros m s' Hm. by apply laptop_max_width.
Defined.

Lemma detectColorBits_largest_witness :
  ∃ r, yield (Browsers.mediaBrowser Browsers.desktop) detectColorBits tt = Normal r
    ∧ (8 < 1 → r = 0)%Z
    ∧ (1 ≤ 8 → r ∈ depths ∧ r ≤ 8 ∧ ∀ d, d ∈ depths → d ≤ 8 → d ≤ r)%Z.
Proof.
  apply (detectColorBits_largest (Browsers.mediaBrowser Browsers.desktop) 8 tt).
  intros d s'. unfold depths. rewrite !elem_of_cons, elem_of_nil.
  intros H. repeat (destruct H as [-> | H]; [vm_compute; reflexivity|]). destruct H.
Defined.

Lemma detectPixelRatio_largest_witness :
  ∃ q, yield (Browsers.mediaBrowser Browsers.desktop) detectPixelRatio tt = Normal q
    ∧ (Qcanon.Qclt (ratio 2 1) (ratio 1 2) → q = ratioOrOne (Some (ratio 2 1)))
    ∧ (Qcanon.Qcle (ratio 1 2) (ratio 2 1) →
         (∃ printed, (q, printed) ∈ ratios) ∧ Qcanon.Qcle q (ratio 2 1)
         ∧ (∀ r, r ∈ ratios → Qcanon.Qcle r.1 (ratio 2 1) → Qcanon.Qcle r.1 q)
         ∧ trace (Browsers.mediaBrowser Browsers.desktop) detectPixelRatio tt
           = trace (Browsers.mediaBrowser Browsers.desktop)
               (probeDown (λ r, "(min-resolution: " +:+ r.2 +:+ "dppx)") (reverse ratios)) tt).
Proof.
  apply (detectPixelRatio_largest (Browsers.mediaBrowser Browsers.desktop) (ratio 2 1)
           (Some (ratio 2 1)) tt).
  - intros r s'. unfold ratios. rewrite !elem_of_cons, elem_of_nil.
    intros H. repeat (destruct H as [-> | H]; [vm_compute; reflexivity|]). destruct H.
  - intros s'. reflexivity.
Defined.

Lemma getScreenMediaQueries_cost_witness :
  52 ≤ length (trace (Browsers.mediaBrowser Browsers.desktop) getScreenMediaQueries tt) ≤ 89.
Proof.
  eapply (getScreenMediaQueries_cost (Browsers.mediaBrowser Browsers.desktop) tt).
  unfold yield. vm_compute. reflexivity.
Defined.

End ScreenMediaQueriesFacts.

(** * Repeated calls *)

(** [getCanvasFingerprint] at other handles: it goes the same way and
    returns the same record as long as the answers have the same
    values.  Function by function. *)
Module RepeatedCalls.
Import Canvas.

Ltac answer_tac :=
  repeat match goal with
         | u : unit |- _ => destruct u
         | H : valueOf _ _ _ = valueOf _ _ _ |- _ => simpl in H
         | H : ABoolean _ = ABoolean _ |- _ => injection H as ->
         | H : ANumber _ = ANumber _ |- _ => injection H as ->
         | H : AString _ = AString _ |- _ => injection H as ->
         | H : ABytes _ = ABytes _ |- _ => injection H as ->
         | H : match ?x with Some _ => _ | None => _ end = _ |- _ => destruct x
         | H : _ = match ?x with Some _ => _ | None => _ end |- _ => destruct x
         | H : AObject = ANull |- _ => discriminate H
         | H : ANull = AObject |- _ => discriminate H
         end.

(** Both sides make a call, or branch on a value they share, or
    return. *)
Ltac aligned_tac :=
  unfold_monad;
  repeat first
    [ apply aligned_Ret; first [done | reflexivity]
    | apply aligned_bind_call; intros ? ? ?; answer_tac; cbv beta
    | apply aligned_call; intros ? ? ?; answer_tac; first [done | reflexivity]
    | match goal with
      | |- aligned _ _ (if ?b then _ else _) (if ?b then _ else _) => destruct b
      end ].

Lemma makeCanvasContext_aligned :
  aligned valueOf (λ a b, bothOrNeither a.2 b.2) makeCanvasContext makeCanvasContext.
Proof. unfold makeCanvasContext. aligned_tac. Qed.

Lemma isSupported_aligned c1 c2 (o1 o2 : option CanvasRenderingContext2D) :
  bothOrNeither o1 o2 →
  aligned valueOf bothOrNeither (isSupported c1 o1) (isSupported c2 o2).
Proof.
  unfold isSupported. destruct o1, o2; try done; intros _; unfold_monad.
  - apply aligned_bind_call. intros has ? [= <-]. by destruct has; constructor.
  - by constructor.
Qed.

Lemma doesSupportWinding_aligned x1 x2 :
  aligned valueOf eq (doesSupportWinding x1) (doesSupportWinding x2).
Proof. unfold doesSupportWinding. aligned_tac. Qed.

Lemma renderTextImage_aligned c1 x1 c2 x2 :
  aligned valueOf (λ _ _, True) (renderTextImage c1 x1) (renderTextImage c2 x2).
Proof. unfold renderTextImage. aligned_tac. Qed.

Lemma renderGeometryImage_aligned c1 x1 c2 x2 :
  aligned valueOf (λ _ _, True) (renderGeometryImage c1 x1) (renderGeometryImage c2 x2).
Proof.
  unfold renderGeometryImage. unfold_monad.
  do 3 (apply aligned_bind_call; intros ? ? ?; answer_tac; cbv beta).
  apply (aligned_bind _ (λ _ _, True)).
  - apply aligned_forEach. intros [[color x] y]. aligned_tac.
  - intros _ _ _. aligned_tac.
Qed.

Lemma renderImages_aligned c1 x1 c2 x2 :
  aligned valueOf eq (renderImages c1 x1) (renderImages c2 x2).
Proof.
  unfold renderImages, canvasToString. unfold_monad.
  apply (aligned_bind _ (λ _ _, True)); [apply renderTextImage_aligned|]. intros _ _ _.
  do 2 (apply aligned_bind_call; intros ? ? ?; answer_tac; cbv beta).
  match goal with |- context [bool_decide ?P] => destruct (bool_decide P) end; cbn [negb];
    [|aligned_tac].
  apply (aligned_bind _ (λ _ _, True)); [apply renderGeometryImage_aligned|]. intros _ _ _.
  aligned_tac.
Qed.

Lemma extractCenterPixels_aligned sc1 sc2 data W H :
  aligned valueOf eq (extractCenterPixels sc1 data W H) (extractCenterPixels sc2 data W H).
Proof.
  unfold extractCenterPixels. apply aligned_forRange; [|done].
  intros y a ? <-. apply aligned_forRange; [|done].
  intros x a' ? <-. unfold denoisePixel. aligned_tac.
Qed.

Lemma getDenoisedCanvasData_aligned c1 x1 c2 x2 renderFn :
  (∀ c1 x1 c2 x2, aligned valueOf (λ _ _, True) (renderFn c1 x1) (renderFn c2 x2)) →
  aligned valueOf eq (getDenoisedCanvasData c1 x1 renderFn)
    (getDenoisedCanvasData c2 x2 renderFn).
Proof.
  intros Hrender. unfold getDenoisedCanvasData. unfold_monad.
  apply (aligned_bind _ (λ _ _, True)); [apply Hrender|]. intros _ _ _.
  do 6 (apply aligned_bind_call; intros ? ? ?; answer_tac; cbv beta); [|aligned_tac].
  do 7 (apply aligned_bind_call; intros ? ? ?; answer_tac; cbv beta).
  apply (aligned_bind _ eq); [apply extractCenterPixels_aligned|]. intros data ? <-.
  do 4 (apply aligned_bind_call; intros ? ? ?; answer_tac; cbv beta); aligned_tac.
Qed.

Lemma getUnstableCanvasFingerprint_aligned skipImages :
  aligned valueOf eq (getUnstableCanvasFingerprint skipImages)
    (getUnstableCanvasFingerprint skipImages).
Proof.
  unfold getUnstableCanvasFingerprint. unfold_monad.
  apply (aligned_bind _ _ _ _ _ _ _ makeCanvasContext_aligned).
  intros [c1 o1] [c2 o2] Ho. cbn [snd] in Ho.
  apply (aligned_bind _ _ _ _ _ _ _ (isSupported_aligned c1 c2 o1 o2 Ho)).
  intros [x1|] [x2|] Hx; try done; [|by constructor].
  apply (aligned_bind _ _ _ _ _ _ _ (doesSupportWinding_aligned x1 x2)). intros winding ? <-.
  destruct skipImages; [by constructor|].
  apply (aligned_bind _ _ _ _ _ _ _ (renderImages_aligned c1 x1 c2 x2)).
  intros [g t] ? <-. by constructor.
Qed.

Lemma getNoiseResistantCanvasFingerprint_aligned :
  aligned valueOf eq getNoiseResistantCanvasFingerprint getNoiseResistantCanvasFingerprint.
Proof.
  unfold getNoiseResistantCanvasFingerprint. unfold_monad.
  apply (aligned_bind _ _ _ _ _ _ _ makeCanvasContext_aligned).
  intros [c1 o1] [c2 o2] Ho. cbn [snd] in Ho.
  apply (aligned_bind _ _ _ _ _ _ _ (isSupported_aligned c1 c2 o1 o2 Ho)).
  intros [x1|] [x2|] Hx; try done; [|by constructor].
  apply (aligned_bind _ _ _ _ _ _ _ (doesSupportWinding_aligned x1 x2)). intros winding ? <-.
  apply (aligned_bind _ eq);
    [apply getDenoisedCanvasData_aligned, renderGeometryImage_aligned|]. intros g ? <-.
  apply (aligned_bind _ eq);
    [apply getDenoisedCanvasData_aligned, renderTextImage_aligned|]. intros t ? <-.
  by constructor.
Qed.

Lemma doesBrowserPerformAntifingerprinting_aligned :
  aligned valueOf eq doesBrowserPerformAntifingerprinting doesBrowserPerformAntifingerprinting.
Proof. unfold doesBrowserPerformAntifingerprinting. aligned_tac. Qed.

Lemma getCanvasFingerprint_aligned :
  aligned valueOf eq getCanvasFingerprint getCanvasFingerprint.
Proof.
  unfold getCanvasFingerprint. unfold_monad.
  apply (aligned_bind _ _ _ _ _ _ _ doesBrowserPerformAntifingerprinting_aligned).
  intros [] ? <-.
  - apply getNoiseResistantCanvasFingerprint_aligned.
  - apply getUnstableCanvasFingerprint_aligned.
Qed.

End RepeatedCalls.

(** C3: when the host answers the calls of the second invocation as
    it answered those of the first, with the same values, whichever
    canvases, contexts and images the page made for them,
    [getCanvasFingerprint] has the same outcome both times, on the
    denoise path of Safari 17+ as on the other, and so has
    [getScreenMediaQueries].  [first] and [second] are the states of
    the page at the two invocations; the state the first invocation
    leaves is one such [second]. *)
Theorem repeated_calls_agree {S1 S2} (page : host Canvas.canvasE S1)
    (screen : host ScreenMediaQueries.mediaE S2) (first second : S1) (first' second' : S2) :
  let getCanvasFingerprint := Canvas.getCanvasFingerprint in
  let getScreenMediaQueries := ScreenMediaQueries.getScreenMediaQueries in
  answers Canvas.valueOf (trace page getCanvasFingerprint first)
  = answers Canvas.valueOf (trace page getCanvasFingerprint second) →
  answers ScreenMediaQueries.valueOf (trace screen getScreenMediaQueries first')
  = answers ScreenMediaQueries.valueOf (trace screen getScreenMediaQueries second') →
  yield page getCanvasFingerprint first = yield page getCanvasFingerprint second
  ∧ yield screen getScreenMediaQueries first' = yield screen getScreenMediaQueries second'.
Proof.
  cbv zeta. intros Hpage Hscreen. split; apply outcomes_agree.
  - apply (aligned_yield Canvas.valueOf page page eq); [|done].
    apply RepeatedCalls.getCanvasFingerprint_aligned.
  - apply (aligned_yield ScreenMediaQueries.valueOf screen screen eq); [|done].
    apply aligned_refl. intros X ev x y. destruct ev; simpl; congruence.
Qed.

(** C3 for two invocations in a row on a Safari 17 page, where the
    denoise path is taken and the second invocation gets canvases of
    its own, and on a laptop viewport. *)
Lemma repeated_calls_agree_witness :
  let page := Browsers.steady Browsers.safari in
  let screen := Browsers.mediaBrowser Browsers.laptop in
  yield page Canvas.getCanvasFingerprint Browsers.emptyDom
  = yield page Canvas.getCanvasFingerprint
      (final page Canvas.getCanvasFingerprint Browsers.emptyDom)
  ∧ yield screen ScreenMediaQueries.getScreenMediaQueries tt
    = yield screen ScreenMediaQueries.getScreenMediaQueries
        (final screen ScreenMediaQueries.getScreenMediaQueries tt).
Proof.
  apply (repeated_calls_agree (Browsers.steady Browsers.safari)
           (Browsers.mediaBrowser Browsers.laptop)).
  - vm_compute. reflexivity.
  - vm_compute. reflexivity.
Defined.

(** The second invocation on that page: its canvases are others than
    those of the first, the denoise path is taken again, and the
    record is the same. *)
Example second_invocation_on_safari :
  let page := Browsers.steady Browsers.safari in
  let later := final page Canvas.getCanvasFingerprint Browsers.emptyDom in
  let made tr :=
    omap (λ en, match en with
                | @Entry _ X ev o =>
                    match ev in Canvas.canvasE X return outcome X → option nat with
                    | Canvas.CreateCanvas =>
                        λ o, match o with
                             | Normal (Canvas.CanvasRef id) => Some id
                             | Thrown _ => None
                             end
                    | _ => λ _, None
                    end o
                end) tr in
  made (trace page Canvas.getCanvasFingerprint Browsers.emptyDom) = [0; 1; 2; 3; 4]
  ∧ made (trace page Canvas.getCanvasFingerprint later) = [5; 6; 7; 8; 9]
  ∧ yield page Canvas.getCanvasFingerprint later
    = Normal {| Canvas.winding := true;
                Canvas.geometry := "data:image/png;base64,2x2";
                Canvas.text := "data:image/png;base64,2x2" |}.
Proof. vm_compute. done. Qed.

Example safari_denoise_path_taken :
  yield (Browsers.browser Browsers.safari) Canvas.getCanvasFingerprint Browsers.emptyDom
  = Normal {| Canvas.winding := true;
              Canvas.geometry := "data:image/png;base64,2/2";
              Canvas.text := "data:image/png;base64,4/2" |}
  ∧ existsb (λ en, match en with Entry (Canvas.GetImageData _ _ _ _ _) _ => true | _ => false end)
      (trace (Browsers.browser Browsers.safari) Canvas.getCanvasFingerprint Browsers.emptyDom)
    = true.
Proof. vm_compute. done. Qed.

(** * tls_fingerprint.ts: facts *)
Module TLSFacts.
Import TLS.

(** C10: [configureTLSFingerprint(options)] leaves a configuration
    that holds, for every field, the value [options] gives it when it
    has the field and the default otherwise, whatever was configured
    before; so after [{timeout: 5000}] and then [{endpoint: e}] the
    timeout is 3000 again. *)
Theorem configureTLSFingerprint_resets (options : gmap string jsval) (st : module_state) :
  (∀ name,
     configuredOptions (configureTLSFingerprint options st) !! name
     = match options !! name with
       | Some v => Some v
       | None => defaultOptions !! name
       end)
  ∧ (∀ e,
       let st1 := configureTLSFingerprint {[ "timeout" := VNum 5000 ]} st in
       let st2 := configureTLSFingerprint {[ "endpoint" := VStr e ]} st1 in
       field (configuredOptions st1) "timeout" = VNum 5000
       ∧ field (configuredOptions st2) "timeout" = VNum 3000
       ∧ field (configuredOptions st2) "endpoint" = VStr e).
Proof.
  split.
  - intros name. unfold configureTLSFingerprint, spread. simpl.
    rewrite lookup_union. by destruct (options !! name), (defaultOptions !! name).
  - intros e. unfold configureTLSFingerprint, spread, field, defaultOptions. simpl.
    rewrite !lookup_union, !lookup_insert, !lookup_singleton. simpl.
    repeat case_decide; done.
Qed.

(** ** [getTLSFingerprint] *)

Local Arguments firstTruthyProp : simpl never.

(** On a value that has properties, the reads of [a.x || a.y || ...]
    make no host call and give the first truthy field. *)
Lemma exec_firstTruthyProp {S} (h : host tlsE S) (data : jsval) (names : list string) (s : S) :
  data ≠ VNull → data ≠ VUndefined →
  exec h (firstTruthyProp data names) s = (Normal (fieldUnion data names), s, []).
Proof.
  intros Hnull Hundef. unfold fieldUnion.
  induction names as [|name names IH]; [done|].
  unfold firstTruthyProp; fold firstTruthyProp. unfold_monad.
  assert (getProp (E := tlsE) data name = Ret (propOf data name)) as ->
    by by destruct data.
  simpl. destruct (truthy (propOf data name)); [done|]. apply IH.
Qed.

Lemma exec_firstTruthyProp_null {S} (h : host tlsE S) (name : string) (names : list string)
    (s : S) :
  exec h (firstTruthyProp VNull (name :: names)) s
  = (Thrown (JsError ("Cannot read properties of null (reading '" +:+ name +:+ "')")), s, []).
Proof. done. Qed.

Lemma exec_firstTruthyProp_undefined {S} (h : host tlsE S) (name : string)
    (names : list string) (s : S) :
  exec h (firstTruthyProp VUndefined (name :: names)) s
  = (Thrown (JsError ("Cannot read properties of undefined (reading '" +:+ name +:+ "')")),
     s, []).
Proof. done. Qed.

(** [run_step] on the run held by the one equation whose right-hand
    side waits for an answer of [h]. *)
Ltac run_on h :=
  match goal with
  | Hrun : _ = ?rhs |- _ =>
      match rhs with
      | context [h ?X ?ev ?s] => destruct (h X ev s) as [[?|?] ?]; simpl in Hrun
      end
  end.

(** Runs [tac] where a run is still being followed. *)
Ltac live tac :=
  match goal with
  | Hrun : ?x = _ |- _ => is_var x; tac
  | _ => idtac
  end.

(** Follows [getTLSFingerprint] down each of its paths; each goal is
    left with the run replaced by the triple of its path: outcome,
    final state and calls. *)
Ltac tls_paths h x :=
  remember (exec h (getTLSFingerprint _) _) as x eqn:Hrun; revert Hrun;
  unfold getTLSFingerprint; cbv zeta;
  destruct (truthy (field (configuredOptions _) "endpoint")) eqn:Hendpoint; simpl;
  [unfold_monad; simpl; intros Hrun|intros ->];
  do 4 (live ltac:(idtac; run_on h; [|subst x; simpl]));
  live ltac:(idtac; match goal with r : Response |- _ => destruct (ok r) eqn:Hok end;
             simpl in Hrun; [|subst x; simpl]);
  live ltac:(idtac; run_on h; [|subst x; simpl]);
  live ltac:(idtac; match goal with d : jsval |- _ =>
               let Hcases := fresh in
               assert (d = VNull ∨ d = VUndefined ∨ (d ≠ VNull ∧ d ≠ VUndefined))
                 as Hcases by (destruct d; eauto);
               destruct Hcases as [-> | [-> | [Hnull Hundef]]];
               [ rewrite exec_try_catch, exec_bind, exec_firstTruthyProp_null in Hrun
               | rewrite exec_try_catch, exec_bind, exec_firstTruthyProp_undefined in Hrun
               | rewrite exec_try_catch, !exec_bind, !exec_firstTruthyProp in Hrun by done;
                 rewrite !exec_bind, !exec_firstTruthyProp in Hrun by done;
                 rewrite !exec_bind, !exec_firstTruthyProp in Hrun by done ];
               simpl in Hrun; subst x; simpl
             end).




(** The servers of [tls_runs] answer the request: the cases of C8
    arise. *)
Example tls_fetch_answers :
  let configured :=
    configureTLSFingerprint {[ "endpoint" := VStr "https://tls.example/fp" ]} initial_state in
  fetchAnswers (Browsers.tlsBrowser Browsers.ja3Server) configured tt
    (Normal {| ok := true; status := 200; body := 0 |}) (TimeoutRef 0) tt
  ∧ fetchAnswers (Browsers.tlsBrowser Browsers.missingServer) configured tt
      (Normal {| ok := false; status := 404; body := 0 |}) (TimeoutRef 0) tt
  ∧ fetchAnswers (Browsers.tlsBrowser {| Browsers.response := None; Browsers.json := None |})
      configured tt (Thrown (JsError "Failed to fetch")) (TimeoutRef 0) tt.
Proof. cbv zeta. split_and!; by exists (AbortControllerRef 0), tt, tt. Qed.

Example tls_runs :
  let configured :=
    configureTLSFingerprint {[ "endpoint" := VStr "https://tls.example/fp" ]} initial_state in
  yield (Browsers.tlsBrowser Browsers.ja3Server) (getTLSFingerprint initial_state) tt
  = Normal (failure "No TLS fingerprint endpoint configured")
  ∧ yield (Browsers.tlsBrowser Browsers.ja3Server) (getTLSFingerprint configured) tt
    = Normal {| ja3 := VStr "cd08e314"; ja3Full := VUndefined; ja4 := VStr "t13d1517h2";
                success := true; error := None |}
  ∧ yield (Browsers.tlsBrowser Browsers.missingServer) (getTLSFingerprint configured) tt
    = Normal (failure "HTTP 404").
Proof. vm_compute. done. Qed.

(** ** Every run, path by path *)

Lemma fieldUnion_truthy (data : jsval) (names : list string) :
  fieldUnion data names = VUndefined ∨ truthy (fieldUnion data names) = true.
Proof.
  unfold fieldUnion.
  destruct (head (List.filter truthy (propOf data <$> names))) as [v|] eqn:Hhead; [|by left].
  right. simpl. apply head_Some_elem_of in Hhead.
  apply list_elem_of_In, filter_In in Hhead. tauto.
Qed.

(** Every record [getTLSFingerprint] resolves with is one of two
    kinds: a success without an error, or a failure with an error and
    the three fingerprints [undefined].  A fingerprint is never a
    falsy value other than [undefined]: an empty string, 0, [null] or
    [false] sent by the server is reported as [undefined]. *)
Theorem getTLSFingerprint_record {S} (h : host tlsE S) (st : module_state) (s : S) :
  ∃ r, yield h (getTLSFingerprint st) s = Normal r
    ∧ (success r = true ↔ error r = None)
    ∧ (success r = false →
         ja3 r = VUndefined ∧ ja3Full r = VUndefined ∧ ja4 r = VUndefined)
    ∧ Forall (λ v, v = VUndefined ∨ truthy v = true) [ja3 r; ja3Full r; ja4 r].
Proof.
  unfold yield. tls_paths h x.
  all: eexists; split; [reflexivity|]; simpl.
  all: try (split; [done|]; split; [done|]; repeat constructor; by left).
  split; [done|]. split; [done|].
  rewrite !Forall_cons, Forall_nil. split_and!; [apply fieldUnion_truthy..|done].
Qed.

(** At most one request is made, and only with a truthy endpoint: a
    [GET] of the configured endpoint that sends no credentials and
    bypasses the cache, under the signal of the one controller made,
    which a timer armed before the request aborts after [timeout]
    milliseconds, or after 3000 when [timeout] is falsy. *)
Theorem getTLSFingerprint_request {S} (h : host tlsE S) (st : module_state) (s : S) :
  let endpoint := field (configuredOptions st) "endpoint" in
  let timeout := field (configuredOptions st) "timeout" in
  let tr := trace h (getTLSFingerprint st) s in
  fetchCalls tr = []
  ∨ ∃ controller id,
      truthy endpoint = true
      ∧ controllersMade tr = [controller]
      ∧ timersSet tr = [(controller, jsor timeout (VNum 3000), id)]
      ∧ fetchCalls tr = [(endpoint, {| method := "GET"; signal := controller;
                                       credentials := "omit"; cache := "no-store" |})].
Proof.
  cbv zeta. unfold trace. tls_paths h x.
  all: first [by left | right; eexists _, _; by split_and!].
Qed.

(** The abort timer is cleared exactly in the runs where [fetch]
    resolved, whatever the status of the response and whatever
    happens afterwards; when [fetch] is rejected (the network failed,
    or the timer itself aborted the request) nothing clears it. *)
Theorem getTLSFingerprint_timer {S} (h : host tlsE S) (st : module_state) (s : S) :
  let tr := trace h (getTLSFingerprint st) s in
  match fetched tr with
  | Some _ => ∃ controller delay id,
                timersSet tr = [(controller, delay, id)] ∧ timersCleared tr = [id]
  | None => timersCleared tr = []
  end.
Proof.
  cbv zeta. unfold trace. tls_paths h x.
  all: first [done | by eexists _, _, _].
Qed.

Lemma field_configured (options : gmap string jsval) (st : module_state) (name : string) :
  field (configuredOptions (configureTLSFingerprint options st)) name
  = match options !! name with
    | Some v => v
    | None => field defaultOptions name
    end.
Proof.
  unfold configureTLSFingerprint, spread, field. simpl.
  rewrite lookup_union. by destruct (options !! name), (defaultOptions !! name).
Qed.

(** A run after [configureTLSFingerprint(options)] is set by
    [options] alone: it makes no call exactly when [options.endpoint]
    is missing or falsy; otherwise its request goes to
    [options.endpoint], and its timer has the delay [options.timeout]
    when that is truthy and 3000 when it is missing, [undefined] or
    0. *)
Theorem configured_run {S} (h : host tlsE S) (options : gmap string jsval)
    (st0 : module_state) (s : S) :
  let tr := trace h (getTLSFingerprint (configureTLSFingerprint options st0)) s in
  (tr = [] ↔ truthy (option_ options "endpoint") = false)
  ∧ Forall (λ request, request.1 = option_ options "endpoint") (fetchCalls tr)
  ∧ Forall (λ timer, timer.1.2 = jsor (option_ options "timeout") (VNum 3000)
                     ∧ truthy timer.1.2 = true) (timersSet tr).
Proof.
  cbv zeta. unfold trace.
  assert (field (configuredOptions (configureTLSFingerprint options st0)) "endpoint"
          = option_ options "endpoint") as Hend.
  { rewrite field_configured. unfold option_. by destruct (options !! "endpoint"). }
  assert (jsor (field (configuredOptions (configureTLSFingerprint options st0)) "timeout")
            (VNum 3000) = jsor (option_ options "timeout") (VNum 3000)
          ∧ truthy (jsor (option_ options "timeout") (VNum 3000)) = true) as [Htime Htruthy].
  { rewrite field_configured. unfold option_, jsor.
    destruct (options !! "timeout") as [v|]; simpl; [|done].
    by destruct (truthy v) eqn:Hv. }
  revert Hend Htime. generalize (configureTLSFingerprint options st0). intros st Hend Htime.
  tls_paths h x.
  all: rewrite ?Hend in *; rewrite ?Htime.
  all: split; [split; intros ?; first [done|congruence]|].
  all: split; repeat (constructor; simpl); done.
Qed.

End TLSFacts.

(** * webrtc_ips.ts: facts *)
Module WebRTCFacts.
Import WebRTC.

Example inPrivateRange_examples :
  inPrivateRange "10.1.2.3" = true ∧ inPrivateRange "172.16.0.1" = true
  ∧ inPrivateRange "172.31.255.255" = true ∧ inPrivateRange "172.32.0.1" = false
  ∧ inPrivateRange "192.168.1.5" = true ∧ inPrivateRange "169.254.10.10" = true
  ∧ inPrivateRange "8.8.8.8" = false ∧ inPrivateRange "10.999.1.1" = false
  ∧ isPrivateIPv4 "10.999.1.1" = true ∧ isPrivateIPv4 "192.168.1.5" = true
  ∧ isPrivateIPv4 "8.8.8.8" = false ∧ isPrivateIPv4 "172.32.0.1" = false.
Proof. vm_compute. done. Qed.

Local Arguments regexMatch : simpl never.
Local Arguments isPrivateIPv4 : simpl never.
Local Arguments isLinkLocalIPv6 : simpl never.
Local Arguments endsWith : simpl never.
Local Arguments includes : simpl never.

(** ** What [isPrivateIPv4] accepts *)

Lemma isPrivateIPv4_fields ip : isPrivateIPv4 ip = true → fieldsPrivate ip.
Proof.
  unfold isPrivateIPv4, fieldsPrivate, selectsPrivateRange. cbv zeta.
  destruct (split "." ip) as [|a [|b [|c [|d [|e rest]]]]] eqn:Hsplit;
    try (simpl; discriminate).
  intros Hip. exists a, b, c, d. split; [done|].
  cbn [fmap list_fmap length lookup list_lookup mjoin option_join bool_decide negb] in Hip.
  simpl in Hip.
  repeat match type of Hip with
  | (if ?b then _ else _) = true => destruct b eqn:?
  end; try discriminate.
  all: repeat match goal with
  | H : _ && _ = true |- _ => apply andb_prop in H as [? ?]
  | H : bool_decide _ = true |- _ => apply bool_decide_eq_true_1 in H
  end.
  - by left.
  - right; left. split; [done|]. destruct (Number b) as [n|]; [|done].
    exists n. split; [done|]. simpl in *.
    repeat match goal with
    | H : bool_decide _ = true |- _ => apply bool_decide_eq_true_1 in H
    end. lia.
  - right; right; left. done.
  - right; right; right. done.
Qed.

(** An address that [ipRegex] found in a candidate line, that holds no
    colon and that [isPrivateIPv4] accepts. *)
Lemma collected_ipv4 candidate ip :
  regexMatch ipRegex candidate = Some ip → includes ip ":" = false →
  isPrivateIPv4 ip = true → loosePrivateQuad ip.
Proof.
  intros Hmatch Hcolon Hprivate.
  destruct (regexMatch_ipv4 _ _ Hmatch Hcolon) as (a & b & c & d & -> & Ha & Hb & Hc & Hd).
  apply isPrivateIPv4_fields in Hprivate as (a' & b' & c' & d' & Hsplit & Hrange).
  rewrite split_fourDigitGroups in Hsplit by done. injection Hsplit as <- <- <- <-.
  by exists a, b, c, d.
Qed.

(** ** The guard and the addresses, kept by every callback *)

Lemma addressesOk_push4 v4 v6 (seen : gset string) ip :
  NoDup (v4 ++ v6) → (∀ x, x ∈ v4 ++ v6 → x ∈ seen) → ip ∉ seen →
  NoDup ((v4 ++ [ip]) ++ v6) ∧ (∀ x, x ∈ (v4 ++ [ip]) ++ v6 → x ∈ {[ ip ]} ∪ seen).
Proof.
  intros Hnd Hseen Hip.
  assert (ip ∉ v4 ++ v6) as Hfresh by (intros Hin; by apply Hip, Hseen).
  split.
  - apply NoDup_app in Hnd as (Hv4 & Hdisj & Hv6).
    rewrite <-(assoc_L (++)). apply NoDup_app. split_and!; [done| |].
    + intros x Hx [->%list_elem_of_singleton|Hx6]%elem_of_app.
      * apply Hfresh, elem_of_app. by left.
      * by apply (Hdisj x).
    + simpl. apply NoDup_cons. split; [|done].
      intros Hin. apply Hfresh, elem_of_app. by right.
  - intros x. rewrite !elem_of_app, list_elem_of_singleton.
    intros [[?| ->]|?]; [|set_solver|]; apply elem_of_union_r, Hseen, elem_of_app; eauto.
Qed.

Lemma addressesOk_push6 v4 v6 (seen : gset string) ip :
  NoDup (v4 ++ v6) → (∀ x, x ∈ v4 ++ v6 → x ∈ seen) → ip ∉ seen →
  NoDup (v4 ++ (v6 ++ [ip])) ∧ (∀ x, x ∈ v4 ++ (v6 ++ [ip]) → x ∈ {[ ip ]} ∪ seen).
Proof.
  intros Hnd Hseen Hip.
  assert (ip ∉ v4 ++ v6) as Hfresh by (intros Hin; by apply Hip, Hseen).
  split.
  - rewrite (assoc_L (++)). apply NoDup_app. split_and!; [done| |apply NoDup_singleton].
    intros x Hx ->%list_elem_of_singleton. done.
  - intros x. rewrite (assoc_L (++)), elem_of_app, list_elem_of_singleton.
    intros [?| ->]; [|set_solver]. by apply elem_of_union_r, Hseen.
Qed.

Ltac invariant_tac :=
  unfold invariant, guarded, addressesOk, dormant, collected in *; simpl in *.

Ltac guard_tac :=
  match goal with
  | Hinv : _ ∧ _ |- _ ∧ _ =>
      destruct Hinv as [Hguard Haddr]; split; [|first [exact Haddr|idtac]]
  end;
  [intuition (congruence || lia)|..].

Lemma deliver_invariant {S} (h : host hostE S) (a : asyncEvent) (w : local * S) :
  invariant w.1 → invariant (deliver h a w).1.
Proof.
  destruct w as [l s]. intros Hinv. unfold deliver.
  destruct (callbackOf a (l, s).1) as [[callback l']|] eqn:Hcb; [|done].
  destruct a; simpl in Hcb.
  - (* the timer *)
    destruct (timerArmed l) eqn:Harmed; [|done]. injection Hcb as <- <-.
    unfold final, finish. unfold_monad. simpl.
    destruct (resolved l) eqn:Hres; simpl; invariant_tac; rewrite ?Hres; guard_tac.
  - (* a candidate *)
    destruct (onicecandidateOf l) as [pc|] eqn:Hpc; [|done]. injection Hcb as <- <-.
    unfold final, onicecandidate. destruct candidate as [candidate|].
    + destruct (regexMatch ipRegex candidate) as [ip|] eqn:Hmatch; [|done].
      unfold_monad. simpl. case_bool_decide as Hseen; simpl; [done|].
      destruct (endsWith ip ".local"); simpl.
      { invariant_tac. guard_tac. destruct Haddr as (? & Hin & ? & ?).
        split_and!; [done| |done..]. intros x Hx. apply elem_of_union_r. by apply Hin. }
      destruct (includes ip ":") eqn:Hcolon; simpl.
      * destruct (isLinkLocalIPv6 ip) eqn:Hlocal; simpl.
        { invariant_tac. guard_tac. destruct Haddr as (? & Hin & ? & ?).
          split_and!; [done| |done..]. intros x Hx. apply elem_of_union_r. by apply Hin. }
        invariant_tac. guard_tac. destruct Haddr as (Hnd & Hin & ? & H6).
        destruct (addressesOk_push6 _ _ _ ip Hnd Hin Hseen) as [? ?].
        split_and!; [done..|]. apply Forall_app. split; [done|].
        by apply Forall_singleton.
      * destruct (isPrivateIPv4 ip) eqn:Hprivate; simpl.
        2: { invariant_tac. guard_tac. destruct Haddr as (? & Hin & ? & ?).
             split_and!; [done| |done..]. intros x Hx. apply elem_of_union_r. by apply Hin. }
        invariant_tac. guard_tac. destruct Haddr as (Hnd & Hin & H4 & ?).
        destruct (addressesOk_push4 _ _ _ ip Hnd Hin Hseen) as [? ?].
        split_and!; [done..| |done]. apply Forall_app. split; [done|].
        by apply Forall_singleton, (collected_ipv4 candidate).
    + (* the end of the candidates *)
      unfold finish. unfold_monad. simpl.
      destruct (h _ (Close pc) s) as [[[]|e] s']; simpl.
      * destruct (resolved l) eqn:Hres; simpl; invariant_tac; rewrite ?Hres; guard_tac.
      * invariant_tac. guard_tac.
  - (* a change of the gathering state *)
    destruct (onicegatheringstatechangeOf l) as [pc|] eqn:Hpc; [|done].
    injection Hcb as <- <-.
    unfold final, onicegatheringstatechange, finish. unfold_monad. simpl.
    destruct (h _ (IceGatheringState pc) s) as [[state|e] s']; simpl; [|done].
    case_bool_decide; simpl; [|done].
    destruct (h _ (Close pc) s') as [[[]|e] s'']; simpl.
    + destruct (resolved l) eqn:Hres; simpl; invariant_tac; rewrite ?Hres; guard_tac.
    + invariant_tac. guard_tac.
  - (* the offer is there *)
    destruct (chain l) as [|pc|pc] eqn:Hpc; [done| |done]. injection Hcb as <- <-.
    unfold final, offerThen, offerCatch, finish. unfold_monad. simpl.
    destruct (h _ (SetLocalDescription pc) s) as [[[]|e] s']; simpl.
    + invariant_tac. guard_tac.
    + destruct (resolved l) eqn:Hres; simpl; invariant_tac; rewrite ?Hres; guard_tac.
  - (* the local description is set *)
    destruct (chain l) as [|pc|pc] eqn:Hpc; [done..|]. injection Hcb as <- <-.
    unfold final. unfold_monad. simpl. invariant_tac. guard_tac.
  - (* the offer chain failed *)
    assert (callback = offerCatch ∧ l' = setChain NoChain l ∧ chain l ≠ NoChain)
      as (-> & -> & Hpc) by (destruct (chain l); naive_solver).
    unfold final, offerCatch, finish. unfold_monad. simpl.
    destruct (resolved l) eqn:Hres; simpl; invariant_tac; rewrite ?Hres; guard_tac.
Qed.

(** ** The executor *)

Lemma getWebRTCIPs_exec {S} (h : host hostE S) (window : WindowWithRTC) (s : S)
    (x : outcome unit * (local * S) * list (entry rtcE)) :
  x = exec (handle h) (getWebRTCIPs window) (initial, s) →
  x.1.1 = Normal tt
  ∧ invariant x.1.2.1
  ∧ localIPv4 (result x.1.2.1) = [] ∧ localIPv6 (result x.1.2.1) = []
  ∧ (noPeerConnection window →
       settledWith x.1.2.1
       = Some {| localIPv4 := []; localIPv6 := []; supported := false |}
       ∧ resolveCalls x.1.2.1 = 1)
  ∧ (¬ noPeerConnection window →
       supported (result x.1.2.1) = true
       ∧ (omap thrown_of x.2 ≠ [] →
            settledWith x.1.2.1
            = Some {| localIPv4 := []; localIPv6 := []; supported := true |}
            ∧ resolveCalls x.1.2.1 = 1)).
Proof.
  unfold getWebRTCIPs, noPeerConnection, finish. cbv zeta.
  assert (∀ l : local,
            localIPv4 (result l) = [] → localIPv6 (result l) = [] →
            resolved l = true ∧ resolveCalls l = 1 ∨ resolved l = false ∧ resolveCalls l = 0 →
            invariant l) as Hempty.
  { intros l H4 H6 Hguard. invariant_tac. rewrite H4, H6.
    split; [tauto|]. split_and!; [constructor|set_solver|done..]. }
  destruct window as [[c|] [c'|] [c''|]]; simpl.
  8: { intros ->. simpl. split; [done|]. split.
       - invariant_tac. split; [by right; right|].
         split_and!; [constructor|set_solver|done..].
       - split_and!; [done..|]. by intros []. }
  all: unfold_monad; simpl; intros Hrun.
  all: do 3 (run_step h Hrun;
    [|subst x; simpl; split; [done|]; split; [apply Hempty; simpl; tauto|];
      split_and!; [done..|by intros (? & ? & ?)|]; intros _; by split]).
  all: subst x; simpl; split; [done|]; split; [apply Hempty; simpl; tauto|];
    split_and!; [done..|by intros (? & ? & ?)|]; intros _; by split.
Qed.

Lemma afterEvents_invariant {S} (h : host hostE S) (window : WindowWithRTC) (s : S)
    (events : list asyncEvent) :
  invariant (afterEvents h window s events).1.
Proof.
  unfold afterEvents.
  assert (invariant (afterCall h window s).1) as Hcall
    by apply (getWebRTCIPs_exec h window s _ eq_refl).
  revert Hcall. generalize (afterCall h window s).
  induction events as [|a events IH]; intros w Hw; [done|].
  simpl. apply IH. by apply deliver_invariant.
Qed.

(** C6: the promise of [getWebRTCIPs] is never rejected.  When no
    constructor is found under the three names, it is resolved by the
    call itself, with [{supported: false, localIPv4: [], localIPv6:
    []}].  When one is found and a host call of the setup throws, it
    is resolved by the call itself, with [{supported: true,
    localIPv4: [], localIPv6: []}].  Whatever the event loop delivers
    afterwards (the timer, candidates, the end of the candidates,
    changes of the gathering state, the offer or its failure, in any
    order and number), [resolve] is called at most once. *)
Theorem getWebRTCIPs_resolution {S} (h : host hostE S) (window : WindowWithRTC) (s : S) :
  promiseRejected h window s = false
  ∧ (noPeerConnection window →
       settledWith (afterCall h window s).1
       = Some {| localIPv4 := []; localIPv6 := []; supported := false |})
  ∧ (¬ noPeerConnection window →
       host_throws (handle h) (getWebRTCIPs window) (initial, s) ≠ [] →
       settledWith (afterCall h window s).1
       = Some {| localIPv4 := []; localIPv6 := []; supported := true |})
  ∧ (∀ events, resolveCalls (afterEvents h window s events).1 ≤ 1).
Proof.
  destruct (getWebRTCIPs_exec h window s _ eq_refl) as (Hyield & _ & _ & _ & Hnone & Hsome).
  split_and!.
  - unfold promiseRejected, yield. by rewrite Hyield.
  - intros Hno. by apply Hnone.
  - intros Hctor Hthrows. by apply Hsome.
  - intros events. destruct (afterEvents_invariant h window s events) as [Hguard _].
    unfold guarded in Hguard. intuition lia.
Qed.

(** C7 (as amended): at every moment after the call, the two lists of
    the result hold no address twice, within or across them; every
    element of [localIPv4] is four groups of one to three decimal
    digits with dots between them, of which the first reads 10, or
    the first two read 172 and 16 to 31, 192 and 168, or 169 and 254
    (no group is checked to be at most 255); no element of
    [localIPv6] starts with [fe80:] in any letter case. *)
Theorem collected_addresses {S} (h : host hostE S) (window : WindowWithRTC) (s : S)
    (events : list asyncEvent) :
  let r := result (afterEvents h window s events).1 in
  NoDup (localIPv4 r ++ localIPv6 r)
  ∧ Forall loosePrivateQuad (localIPv4 r)
  ∧ Forall (λ ip, startsWith (toLowerCase ip) "fe80:" = false) (localIPv6 r).
Proof.
  destruct (afterEvents_invariant h window s events) as [_ (Hnd & _ & H4 & H6)].
  by split_and!.
Qed.

(** C7 fails as stated: a candidate line that holds [10.999.1.1] puts
    it in [localIPv4] of the resolved result, and [10.999.1.1] is no
    dotted quad, so it lies in none of the four blocks. *)
Lemma collected_addresses_not_octets :
  let w := afterEvents (Browsers.rtcBrowser Browsers.webrtcOk) Browsers.chromeWindow tt
             [ IceCandidate (Some "candidate:1 1 udp 2122260223 10.999.1.1 54400 typ host");
               IceCandidate None ] in
  settledWith w.1
  = Some {| localIPv4 := ["10.999.1.1"]; localIPv6 := []; supported := true |}
  ∧ result w.1 = {| localIPv4 := ["10.999.1.1"]; localIPv6 := []; supported := true |}
  ∧ octets "10.999.1.1" = None
  ∧ ¬ Forall (λ ip, inPrivateRange ip = true) (localIPv4 (result w.1)).
Proof.
  assert (afterEvents (Browsers.rtcBrowser Browsers.webrtcOk) Browsers.chromeWindow tt
            [ IceCandidate (Some "candidate:1 1 udp 2122260223 10.999.1.1 54400 typ host");
              IceCandidate None ]
          = ({| result := {| localIPv4 := ["10.999.1.1"]; localIPv6 := []; supported := true |};
                seenIPs := {[ "10.999.1.1" ]} ∪ ∅; resolved := true; timerArmed := false;
                onicecandidateOf := Some (PeerConnectionRef 0);
                onicegatheringstatechangeOf := Some (PeerConnectionRef 0);
                chain := AwaitingOffer (PeerConnectionRef 0); resolveCalls := 1;
                settledWith := Some {| localIPv4 := ["10.999.1.1"]; localIPv6 := [];
                                       supported := true |} |}, tt)) as ->.
  { vm_compute. reflexivity. }
  cbv zeta. simpl. split_and!; [done..|].
  intros Hall. apply Forall_cons in Hall as [Hin _]. vm_compute in Hin. discriminate.
Qed.

Example gathering_run :
  let w := afterEvents (Browsers.rtcBrowser Browsers.webrtcOk) Browsers.chromeWindow tt
             [ IceCandidate (Some "candidate:1 1 udp 2122260223 192.168.1.5 54400 typ host");
               IceCandidate (Some "candidate:2 1 udp 1686052607 203.0.113.7 54400 typ srflx");
               IceCandidate (Some "candidate:3 1 udp 2122260223 192.168.1.5 54401 typ host");
               IceCandidate (Some "candidate:4 1 udp 1 fe80:0:0:0:0:0:0:1 9 typ host");
               IceCandidate (Some "candidate:5 1 udp 1 2001:db8:0:0:0:0:0:1 9 typ host");
               IceCandidate (Some "candidate:6 1 udp 1 abcd1234.local 9 typ host");
               IceCandidate None; TimerFired; IceGatheringStateChange ] in
  result w.1 = {| localIPv4 := ["192.168.1.5"]; localIPv6 := ["2001:db8:0:0:0:0:0:1"];
                  supported := true |}
  ∧ resolveCalls w.1 = 1 ∧ timerArmed w.1 = false.
Proof. vm_compute. done. Qed.

End WebRTCFacts.

(** * webrtc_ips.ts: addresses and the event loop *)
Module WebRTCEventFacts.
Import WebRTC.
Import WebRTCFacts.

(** ** [isPrivateIPv4] on dotted quads *)

(** On an address written as four octets, [isPrivateIPv4] decides
    the four blocks 10.0.0.0/8, 172.16.0.0/12, 192.168.0.0/16 and
    169.254.0.0/16: it looks at the first octet, and at the second
    where the block is longer than 8 bits. *)
Theorem isPrivateIPv4_dotted (a b c d : Z) :
  (0 ≤ a ≤ 255)%Z → (0 ≤ b ≤ 255)%Z → (0 ≤ c ≤ 255)%Z → (0 ≤ d ≤ 255)%Z →
  isPrivateIPv4 (dottedQuad a b c d)
  = bool_decide (a = 10 ∨ (a = 172 ∧ 16 ≤ b ≤ 31) ∨ (a = 192 ∧ b = 168)
                 ∨ (a = 169 ∧ b = 254))%Z
  ∧ isPrivateIPv4 (dottedQuad a b c d) = inPrivateRange (dottedQuad a b c d).
Proof.
  intros Ha Hb Hc Hd.
  assert (isPrivateIPv4 (dottedQuad a b c d)
          = bool_decide (a = 10 ∨ (a = 172 ∧ 16 ≤ b ≤ 31) ∨ (a = 192 ∧ b = 168)
                         ∨ (a = 169 ∧ b = 254))%Z) as Hcode.
  { unfold isPrivateIPv4. cbv zeta. rewrite split_dottedQuad by lia.
    cbn [fmap list_fmap length lookup list_lookup mjoin option_join].
    rewrite !Number_pretty by lia. simpl.
    repeat case_bool_decide; simpl;
      repeat match goal with
      | H : Some _ = Some _ |- _ => injection H as H
      | H : Some ?x ≠ Some ?y |- _ => assert (x ≠ y) by congruence; clear H
      end; first [done|lia]. }
  split; [done|]. rewrite Hcode.
  unfold inPrivateRange, inBlock, octets. rewrite split_dottedQuad by lia.
  assert (∀ n, (0 ≤ n)%Z →
            negb (bool_decide (pretty n = ""))
            && forallb isDigit (String.list_ascii_of_string (pretty n)) = true) as Hgroup.
  { intros n Hn. rewrite digits_pretty by done.
    by rewrite (bool_decide_eq_false_2 _ (pretty_nonempty n Hn)). }
  cbn [forallb]. rewrite !Hgroup by lia. cbn [andb].
  rewrite !Number_pretty by lia.
  rewrite !(bool_decide_eq_true_2 (_ ≤ 255)%Z) by lia. cbn [andb].
  unfold address.
  change (2 ^ (32 - 8))%Z with 16777216%Z. change (2 ^ (32 - 12))%Z with 1048576%Z.
  change (2 ^ (32 - 16))%Z with 65536%Z.
  rewrite <-(Z.div_unique (((a * 256 + b) * 256 + c) * 256 + d) 16777216 a
             ((b * 256 + c) * 256 + d)) by lia.
  rewrite <-(Z.div_unique (((a * 256 + b) * 256 + c) * 256 + d) 65536 (a * 256 + b)
             (c * 256 + d)) by lia.
  pose proof (Z.div_mod b 16 ltac:(lia)) as Hb16.
  pose proof (Z.mod_pos_bound b 16 ltac:(lia)) as Hb16'.
  rewrite <-(Z.div_unique (((a * 256 + b) * 256 + c) * 256 + d) 1048576 (a * 16 + b `div` 16)
             (((b `mod` 16) * 256 + c) * 256 + d)) by lia.
  change ((((10 * 256 + 0) * 256 + 0) * 256 + 0) `div` 16777216)%Z with 10%Z.
  change ((((172 * 256 + 16) * 256 + 0) * 256 + 0) `div` 1048576)%Z with 2753%Z.
  change ((((192 * 256 + 168) * 256 + 0) * 256 + 0) `div` 65536)%Z with 49320%Z.
  change ((((169 * 256 + 254) * 256 + 0) * 256 + 0) `div` 65536)%Z with 43518%Z.
  repeat case_bool_decide; simpl; try done; lia.
Qed.

(** ** What the expression can capture *)

(** What [ipRegex] captures ends with a decimal or hexadecimal digit,
    so it never ends with [.local]: the test that skips mDNS names in
    [onicecandidate] cannot succeed.  A candidate with an mDNS name
    is dropped earlier or not at all, by what the expression finds in
    its line. *)
Theorem mdns_test_unreachable (candidate ip : string) :
  regexMatch ipRegex candidate = Some ip → endsWith ip ".local" = false.
Proof.
  intros Hm%regexMatch_sound.
  assert (∃ c, lastChar ip = Some c ∧ isHexDigit c = true) as (c & Hc & Hhex).
  { unfold ipRegex in Hm. inversion Hm as [| |? ? ? H4|? ? ? H6| |]; subst.
    - apply lastChar_address in H4 as (c & Hc & Hdigit). exists c. split; [done|].
      unfold isHexDigit. by rewrite Hdigit.
    - by apply lastChar_address in H6. }
  destruct (endsWith ip ".local") eqn:Hlocal; [|done].
  apply lastChar_endsWith in Hlocal; [|done]. rewrite Hc in Hlocal.
  injection Hlocal as ->. by vm_compute in Hhex.
Qed.

(** ** One turn of the event loop *)

Ltac step_tac :=
  unfold settles in *; simpl in *;
  split_and!; try done; try (by apply prefix_app_r);
  try (intros Hclose [(? & Hnone & ?) | (? & [? Hsome])];
       first [ congruence
             | by left
             | right; split; [done|]; rewrite ?Hnone, ?Hsome; by eauto ]).

(** Every callback leaves the two lists as they are or with one more
    address at the end, never touches [supported] or the handlers,
    and, when [close()] does not throw, leaves the promise pending
    with the timer armed or settled with the timer gone. *)
Lemma deliver_step {S} (h : host hostE S) (a : asyncEvent) (w : local * S) :
  localIPv4 (result w.1) `prefix_of` localIPv4 (result (deliver h a w).1)
  ∧ localIPv6 (result w.1) `prefix_of` localIPv6 (result (deliver h a w).1)
  ∧ supported (result (deliver h a w).1) = supported (result w.1)
  ∧ onicecandidateOf (deliver h a w).1 = onicecandidateOf w.1
  ∧ onicegatheringstatechangeOf (deliver h a w).1 = onicegatheringstatechangeOf w.1
  ∧ ((∀ pc s', (h _ (Close pc) s').1 = Normal tt) → settles w.1 → settles (deliver h a w).1).
Proof.
  destruct w as [l s]. unfold deliver.
  destruct (callbackOf a (l, s).1) as [[callback l']|] eqn:Hcb; [|done].
  destruct a; simpl in Hcb.
  - (* the timer *)
    destruct (timerArmed l) eqn:Harmed; [|done]. injection Hcb as <- <-.
    unfold final, finish. unfold_monad. simpl.
    destruct (resolved l) eqn:Hres; simpl; step_tac.
  - (* a candidate *)
    destruct (onicecandidateOf l) as [pc|] eqn:Hpc; [|done]. injection Hcb as <- <-.
    unfold final, onicecandidate. destruct candidate as [candidate|].
    + destruct (regexMatch ipRegex candidate) as [ip|] eqn:Hmatch; [|done].
      unfold_monad. simpl. case_bool_decide as Hseen; simpl; [done|].
      destruct (endsWith ip ".local"); simpl; [step_tac|].
      destruct (includes ip ":") eqn:Hcolon; simpl.
      * destruct (isLinkLocalIPv6 ip) eqn:Hlocal; simpl; step_tac.
      * destruct (isPrivateIPv4 ip) eqn:Hprivate; simpl; step_tac.
    + unfold finish. unfold_monad. simpl.
      destruct (h _ (Close pc) s) as [[[]|e] s'] eqn:Hc; simpl.
      * destruct (resolved l) eqn:Hres; simpl; step_tac.
      * split_and!; try done. intros Hclose. specialize (Hclose pc s).
        rewrite Hc in Hclose. discriminate.
  - (* a change of the gathering state *)
    destruct (onicegatheringstatechangeOf l) as [pc|] eqn:Hpc; [|done].
    injection Hcb as <- <-.
    unfold final, onicegatheringstatechange, finish. unfold_monad. simpl.
    destruct (h _ (IceGatheringState pc) s) as [[state|e] s']; simpl; [|done].
    case_bool_decide; simpl; [|done].
    destruct (h _ (Close pc) s') as [[[]|e] s''] eqn:Hc; simpl.
    + destruct (resolved l) eqn:Hres; simpl; step_tac.
    + split_and!; try done. intros Hclose. specialize (Hclose pc s').
      rewrite Hc in Hclose. discriminate.
  - (* the offer is there *)
    destruct (chain l) as [|pc|pc] eqn:Hpc; [done| |done]. injection Hcb as <- <-.
    unfold final, offerThen, offerCatch, finish. unfold_monad. simpl.
    destruct (h _ (SetLocalDescription pc) s) as [[[]|e] s']; simpl.
    + step_tac.
    + destruct (resolved l) eqn:Hres; simpl; step_tac.
  - (* the local description is set *)
    destruct (chain l) as [|pc|pc] eqn:Hpc; [done..|]. injection Hcb as <- <-.
    unfold final. unfold_monad. simpl. step_tac.
  - (* the offer chain failed *)
    assert (callback = offerCatch ∧ l' = setChain NoChain l) as (-> & ->)
      by (destruct (chain l); [discriminate|by injection Hcb as <- <-..]).
    unfold final, offerCatch, finish. unfold_monad. simpl.
    destruct (resolved l) eqn:Hres; simpl; step_tac.
Qed.

Lemma afterCall_settles {S} (h : host hostE S) (window : WindowWithRTC) (s : S) :
  settles (afterCall h window s).1.
Proof.
  unfold afterCall, final.
  remember (exec (handle h) (getWebRTCIPs window) (initial, s)) as x eqn:Hrun. revert Hrun.
  unfold getWebRTCIPs, finish, settles. cbv zeta.
  destruct window as [[c|] [c'|] [c''|]]; simpl.
  8: { intros ->. simpl. right. eauto. }
  all: unfold_monad; simpl; intros Hrun.
  all: do 3 (run_step h Hrun; [|subst x; simpl; right; eauto]).
  all: subst x; simpl; by left.
Qed.

Lemma afterEvents_app {S} (h : host hostE S) (window : WindowWithRTC) (s : S)
    (events1 events2 : list asyncEvent) :
  afterEvents h window s (events1 ++ events2)
  = foldl (λ w a, deliver h a w) (afterEvents h window s events1) events2.
Proof. unfold afterEvents. by rewrite foldl_app. Qed.

(** When [close()] does not throw, the promise is pending exactly
    while the one-second timer is armed; so it is settled at the
    latest when the timer fires, whatever came before. *)
Theorem settled_when_timer_fires {S} (h : host hostE S) (window : WindowWithRTC) (s : S)
    (events : list asyncEvent) :
  (∀ pc s', (h _ (Close pc) s').1 = Normal tt) →
  let l := (afterEvents h window s events).1 in
  ((timerArmed l = true ∧ settledWith l = None)
   ∨ (timerArmed l = false ∧ is_Some (settledWith l)))
  ∧ is_Some (settledWith (afterEvents h window s (events ++ [TimerFired])).1).
Proof.
  intros Hclose.
  assert (∀ events, settles (afterEvents h window s events).1) as Hsettles.
  { clear events. intros events. unfold afterEvents.
    generalize (afterCall_settles h window s). generalize (afterCall h window s).
    induction events as [|a events IH]; intros w Hw; [done|].
    simpl. apply IH. by apply deliver_step. }
  cbv zeta. split.
  - destruct (Hsettles events) as [(? & ? & ?) | (? & ?)]; [by left|by right].
  - destruct (Hsettles (events ++ [TimerFired])) as [(Harmed & _) | (_ & ?)]; [|done].
    rewrite afterEvents_app in Harmed. simpl in Harmed. unfold deliver in Harmed.
    destruct (afterEvents h window s events) as [l s1]. simpl in Harmed.
    destruct (timerArmed l) eqn:Hl; simpl in Harmed; [|congruence].
    revert Harmed. unfold final, finish. unfold_monad. simpl.
    by destruct (resolved l).
Qed.

(** The lists of the result only grow, at their ends: what they hold
    at some moment is a prefix of what they hold at any later moment,
    [supported] does not change after the call, and the two handlers
    stay assigned.  This holds after the promise is settled as well:
    the object it was resolved with is [result] itself, and later
    candidates are still pushed to it. *)
Theorem result_append_only {S} (h : host hostE S) (window : WindowWithRTC) (s : S)
    (events later : list asyncEvent) :
  let before := (afterEvents h window s events).1 in
  let after := (afterEvents h window s (events ++ later)).1 in
  localIPv4 (result before) `prefix_of` localIPv4 (result after)
  ∧ localIPv6 (result before) `prefix_of` localIPv6 (result after)
  ∧ supported (result after) = supported (result before)
  ∧ onicecandidateOf after = onicecandidateOf before
  ∧ onicegatheringstatechangeOf after = onicegatheringstatechangeOf before.
Proof.
  cbv zeta. rewrite afterEvents_app. generalize (afterEvents h window s events).
  induction later as [|a later IH]; intros w; [done|].
  simpl. destruct (IH (deliver h a w)) as (H4 & H6 & Hs & Hc & Hg).
  destruct (deliver_step h a w) as (H4' & H6' & Hs' & Hc' & Hg' & _).
  split_and!; [by etrans|by etrans|congruence..].
Qed.

(** The handlers still run after the timer has settled the promise. *)
Example result_grows_after_resolution :
  let early := afterEvents (Browsers.rtcBrowser Browsers.webrtcOk) Browsers.chromeWindow tt
                 [TimerFired] in
  let late := afterEvents (Browsers.rtcBrowser Browsers.webrtcOk) Browsers.chromeWindow tt
                [TimerFired;
                 IceCandidate (Some "candidate:1 1 udp 2122260223 192.168.1.5 54400 typ host")] in
  settledWith early.1 = Some {| localIPv4 := []; localIPv6 := []; supported := true |}
  ∧ result late.1 = {| localIPv4 := ["192.168.1.5"]; localIPv6 := []; supported := true |}
  ∧ resolveCalls late.1 = 1.
Proof. vm_compute. done. Qed.

(** With a [close()] that throws, the end of the candidates clears
    the timer and never reaches [finish]: the promise stays
    pending. *)
Example close_throw_leaves_pending :
  let w := afterEvents Browsers.closeThrows Browsers.chromeWindow tt
             [IceCandidate None; TimerFired; IceGatheringStateChange] in
  settledWith w.1 = None ∧ timerArmed w.1 = false ∧ resolveCalls w.1 = 0.
Proof. vm_compute. done. Qed.

(** ** Which callbacks close the connection *)

(** The call itself closes nothing, whether the setup succeeds or
    throws. *)
Lemma getWebRTCIPs_closes_nothing {S} (h : host hostE S) (window : WindowWithRTC) (s : S) :
  closes (trace (handle h) (getWebRTCIPs window) (initial, s)) = [].
Proof.
  unfold trace.
  remember (exec (handle h) (getWebRTCIPs window) (initial, s)) as x eqn:Hrun. revert Hrun.
  unfold getWebRTCIPs, finish. cbv zeta.
  destruct window as [[c|] [c'|] [c''|]]; simpl.
  8: { by intros ->. }
  all: unfold_monad; simpl; intros Hrun.
  all: do 3 (run_step h Hrun; [|by subst x]).
  all: by subst x.
Qed.

(** [pc.close()] is called by the two callbacks that see the
    gathering complete, [onicecandidate] with a null candidate and
    [onicegatheringstatechange] in the state [complete], and by
    nothing else: not by the call itself, not on the timeout, and
    not when the setup or the offer fails.  On those paths the
    connection is left open. *)
Theorem close_only_on_completion {S} (h : host hostE S) (window : WindowWithRTC) (s0 : S)
    (a : asyncEvent) (l l' : local) (s : S) (callback : prog rtcE unit) :
  callbackOf a l = Some (callback, l') →
  let closed := closes (trace (handle h) callback (l', s)) in
  closes (trace (handle h) (getWebRTCIPs window) (initial, s0)) = []
  ∧ match a with
    | IceCandidate None => closed = option_list (onicecandidateOf l)
    | IceGatheringStateChange =>
        closed = [] ∨ closed = option_list (onicegatheringstatechangeOf l)
    | _ => closed = []
    end.
Proof.
  intros Hcb. cbv zeta. split; [apply getWebRTCIPs_closes_nothing|]. unfold trace.
  destruct a; simpl in Hcb.
  - destruct (timerArmed l); [|done]. injection Hcb as <- <-.
    unfold finish. unfold_monad. simpl. by destruct (resolved l).
  - destruct (onicecandidateOf l) as [pc|] eqn:Hpc; [|done]. injection Hcb as <- <-.
    unfold onicecandidate. destruct candidate as [candidate|].
    + destruct (regexMatch ipRegex candidate) as [ip|]; [|done].
      unfold_monad. simpl. case_bool_decide; simpl; [done|].
      destruct (endsWith ip ".local"); simpl; [done|].
      destruct (includes ip ":"); simpl.
      * by destruct (isLinkLocalIPv6 ip).
      * by destruct (isPrivateIPv4 ip).
    + unfold finish. unfold_monad. simpl.
      destruct (h _ (Close pc) s) as [[[]|e] s1]; simpl; [|done].
      by destruct (resolved l).
  - destruct (onicegatheringstatechangeOf l) as [pc|] eqn:Hpc; [|done].
    injection Hcb as <- <-.
    unfold onicegatheringstatechange, finish. unfold_monad. simpl.
    destruct (h _ (IceGatheringState pc) s) as [[state|e] s1]; simpl; [|by left].
    case_bool_decide; simpl; [|by left]. right.
    destruct (h _ (Close pc) s1) as [[[]|e] s2]; simpl; [|done].
    by destruct (resolved l).
  - destruct (chain l) as [|pc|pc]; [done| |done]. injection Hcb as <- <-.
    unfold offerThen, offerCatch, finish. unfold_monad. simpl.
    destruct (h _ (SetLocalDescription pc) s) as [[[]|e] s1]; simpl; [done|].
    by destruct (resolved l).
  - destruct (chain l) as [|pc|pc]; [done..|]. by injection Hcb as <- <-.
  - assert (callback = offerCatch ∧ l' = setChain NoChain l) as (-> & ->)
      by (destruct (chain l); [discriminate|by injection Hcb as <- <-..]).
    unfold offerCatch, finish. unfold_monad. simpl. by destruct (resolved l).
Qed.

(** ** An address is handled once *)

(** No callback takes an address out of [seenIPs]. *)
Lemma deliver_seenIPs {S} (h : host hostE S) (a : asyncEvent) (w : local * S) :
  seenIPs w.1 ⊆ seenIPs (deliver h a w).1.
Proof.
  destruct w as [l s]. unfold deliver.
  destruct (callbackOf a (l, s).1) as [[callback l']|] eqn:Hcb; [|done].
  destruct a; simpl in Hcb.
  - destruct (timerArmed l) eqn:Harmed; [|done]. injection Hcb as <- <-.
    unfold final, finish. unfold_monad. simpl. by destruct (resolved l).
  - destruct (onicecandidateOf l) as [pc|] eqn:Hpc; [|done]. injection Hcb as <- <-.
    unfold final, onicecandidate. destruct candidate as [candidate|].
    + destruct (regexMatch ipRegex candidate) as [ip|] eqn:Hmatch; [|done].
      unfold_monad. simpl. case_bool_decide as Hseen; simpl; [done|].
      destruct (endsWith ip ".local"); simpl; [set_solver|].
      destruct (includes ip ":") eqn:Hcolon; simpl.
      * destruct (isLinkLocalIPv6 ip) eqn:Hlocal; simpl; set_solver.
      * destruct (isPrivateIPv4 ip) eqn:Hprivate; simpl; set_solver.
    + unfold finish. unfold_monad. simpl.
      destruct (h _ (Close pc) s) as [[[]|e] s'] eqn:Hc; simpl; [|done].
      by destruct (resolved l).
  - destruct (onicegatheringstatechangeOf l) as [pc|] eqn:Hpc; [|done].
    injection Hcb as <- <-.
    unfold final, onicegatheringstatechange, finish. unfold_monad. simpl.
    destruct (h _ (IceGatheringState pc) s) as [[state|e] s']; simpl; [|done].
    case_bool_decide; simpl; [|done].
    destruct (h _ (Close pc) s') as [[[]|e] s''] eqn:Hc; simpl; [|done].
    by destruct (resolved l).
  - destruct (chain l) as [|pc|pc] eqn:Hpc; [done| |done]. injection Hcb as <- <-.
    unfold final, offerThen, offerCatch, finish. unfold_monad. simpl.
    destruct (h _ (SetLocalDescription pc) s) as [[[]|e] s']; simpl; [done|].
    by destruct (resolved l).
  - destruct (chain l) as [|pc|pc] eqn:Hpc; [done..|]. by injection Hcb as <- <-.
  - assert (callback = offerCatch ∧ l' = setChain NoChain l) as (-> & ->)
      by (destruct (chain l); [discriminate|by injection Hcb as <- <-..]).
    unfold final, offerCatch, finish. unfold_monad. simpl. by destruct (resolved l).
Qed.

(** Once its handler has run on a line that yields [ip], the address
    is in [seenIPs], if the handler is assigned at all. *)
Lemma deliver_candidate_seen {S} (h : host hostE S) (candidate ip : string) (w : local * S) :
  regexMatch ipRegex candidate = Some ip →
  onicecandidateOf w.1 = None ∨ ip ∈ seenIPs (deliver h (IceCandidate (Some candidate)) w).1.
Proof.
  intros Hmatch. destruct w as [l s]. unfold deliver. simpl.
  destruct (onicecandidateOf l) as [pc|] eqn:Hpc; [right|by left]. simpl.
  unfold final, onicecandidate. rewrite Hmatch. unfold_monad. simpl.
  case_bool_decide as Hseen; simpl; [done|].
  destruct (endsWith ip ".local"); simpl; [set_solver|].
  destruct (includes ip ":"); simpl.
  - destruct (isLinkLocalIPv6 ip); simpl; set_solver.
  - destruct (isPrivateIPv4 ip); simpl; set_solver.
Qed.

(** A candidate whose line yields an address that an earlier
    candidate yielded changes nothing, neither the lists nor
    [seenIPs] nor the browser, whatever was delivered before the
    earlier candidate and between the two.  An address that was
    rejected the first time, a public one or a link-local one, is
    therefore never looked at again. *)
Theorem address_handled_once {S} (h : host hostE S) (window : WindowWithRTC) (s : S)
    (before between : list asyncEvent) (first second ip : string) :
  regexMatch ipRegex first = Some ip → regexMatch ipRegex second = Some ip →
  let w := afterEvents h window s (before ++ IceCandidate (Some first) :: between) in
  deliver h (IceCandidate (Some second)) w = w.
Proof.
  intros Hfirst Hsecond. cbv zeta. rewrite afterEvents_app. simpl.
  generalize (afterEvents h window s before). intros w0.
  pose proof (deliver_candidate_seen h first ip w0 Hfirst) as Hseen.
  assert (onicecandidateOf (deliver h (IceCandidate (Some first)) w0).1 = onicecandidateOf w0.1)
    as Hhandler by apply deliver_step.
  revert Hseen Hhandler. generalize (deliver h (IceCandidate (Some first)) w0). intros w1.
  intros Hseen Hhandler.
  assert (onicecandidateOf w1.1 = None ∨ ip ∈ seenIPs w1.1) as Hw1.
  { destruct Hseen as [Hnone|?]; [left; congruence|by right]. }
  clear Hseen Hhandler w0. revert w1 Hw1.
  induction between as [|a between IH]; intros w1 Hw1; simpl.
  - destruct w1 as [l s1]. unfold deliver. simpl in *.
    destruct Hw1 as [Hnone|Hseen]; [by rewrite Hnone|].
    destruct (onicecandidateOf l) as [pc|]; [|done]. simpl.
    unfold final, onicecandidate. rewrite Hsecond. unfold_monad. simpl.
    by rewrite (bool_decide_eq_true_2 _ Hseen).
  - apply IH. destruct Hw1 as [Hnone|Hseen].
    + left. destruct (deliver_step h a w1) as (_ & _ & _ & -> & _). done.
    + right. by apply (deliver_seenIPs h a w1).
Qed.

(** ** The theorems at work *)

Lemma isPrivateIPv4_dotted_witness :
  isPrivateIPv4 (dottedQuad 172 20 1 5)
  = bool_decide (172 = 10 ∨ (172 = 172 ∧ 16 ≤ 20 ≤ 31) ∨ (172 = 192 ∧ 20 = 168)
                 ∨ (172 = 169 ∧ 20 = 254))%Z
  ∧ isPrivateIPv4 (dottedQuad 172 20 1 5) = inPrivateRange (dottedQuad 172 20 1 5).
Proof. apply (isPrivateIPv4_dotted 172 20 1 5); lia. Defined.

Lemma mdns_test_unreachable_witness : endsWith "192.168.1.5" ".local" = false.
Proof.
  apply (mdns_test_unreachable
           "candidate:842163049 1 udp 1677729535 192.168.1.5 54400 typ host").
  vm_compute. reflexivity.
Defined.

Lemma settled_when_timer_fires_witness :
  let events := [IceCandidate (Some "candidate:1 1 udp 2122260223 10.0.0.7 54400 typ host")] in
  let l := (afterEvents (Browsers.rtcBrowser Browsers.webrtcOk) Browsers.chromeWindow tt
              events).1 in
  ((timerArmed l = true ∧ settledWith l = None)
   ∨ (timerArmed l = false ∧ is_Some (settledWith l)))
  ∧ is_Some (settledWith
               (afterEvents (Browsers.rtcBrowser Browsers.webrtcOk) Browsers.chromeWindow tt
                  (events ++ [TimerFired])).1).
Proof.
  apply (settled_when_timer_fires (Browsers.rtcBrowser Browsers.webrtcOk)
           Browsers.chromeWindow tt).
  intros pc s'. reflexivity.
Defined.

Lemma close_only_on_completion_witness :
  let l := (afterCall (Browsers.rtcBrowser Browsers.webrtcOk) Browsers.chromeWindow tt).1 in
  closes (trace (handle (Browsers.rtcBrowser Browsers.webrtcOk))
            (getWebRTCIPs Browsers.chromeWindow) (initial, tt)) = []
  ∧ closes (trace (handle (Browsers.rtcBrowser Browsers.webrtcOk))
              (onicecandidate (PeerConnectionRef 0) None) (l, tt))
    = option_list (onicecandidateOf l).
Proof.
  apply (close_only_on_completion (Browsers.rtcBrowser Browsers.webrtcOk)
           Browsers.chromeWindow tt (IceCandidate None)).
  vm_compute. reflexivity.
Defined.

Lemma address_handled_once_witness :
  let w := afterEvents (Browsers.rtcBrowser Browsers.webrtcOk) Browsers.chromeWindow tt
             ([IceGatheringStateChange]
              ++ IceCandidate (Some "candidate:1 1 udp 2122260223 203.0.113.7 54400 typ host")
              :: [TimerFired;
                  IceCandidate (Some "candidate:3 1 udp 2122260223 192.168.1.5 54400 typ host")]) in
  deliver (Browsers.rtcBrowser Browsers.webrtcOk)
    (IceCandidate (Some "candidate:2 1 tcp 1518280447 203.0.113.7 9 typ host tcptype active")) w
  = w.
Proof.
  apply (address_handled_once (Browsers.rtcBrowser Browsers.webrtcOk) Browsers.chromeWindow tt
           _ _ _ _ "203.0.113.7").
  - vm_compute. reflexivity.
  - vm_compute. reflexivity.
Defined.

End WebRTCEventFacts.

(** * Numbers, battery and network: facts *)

Lemma forallb_seqZ (P : Z → bool) (n : Z) :
  forallb P (seqZ 0 n) = true → ∀ m, (0 ≤ m < n)%Z → P m = true.
Proof.
  intros Hall m Hm. rewrite forallb_forall in Hall. apply Hall.
  apply list_elem_of_In, elem_of_seqZ. lia.
Qed.

Example Math_round_examples :
  let half (n : Z) := Float64.div (Float64.ofZ n) (Float64.ofZ 2) in
  Math.round (half 5%Z) = Float64.ofZ 3 ∧ Math.round (half (-5)%Z) = Float64.ofZ (-2)
  ∧ Math.round (half 1%Z) = Float64.ofZ 1 ∧ Math.round (half (-1)%Z) = S754_zero true
  ∧ Math.round (Float64.div (Float64.ofZ 1) (Float64.ofZ 4)) = S754_zero false
  ∧ Math.round (Float64.ofZ 7) = Float64.ofZ 7
  ∧ Math.round Float64.NaN = Float64.NaN
  ∧ Math.round Float64.NEGATIVE_INFINITY = Float64.NEGATIVE_INFINITY.
Proof. vm_compute. done. Qed.

(** * battery.ts: facts *)
Module BatteryFacts.
Import Battery.


(** A time that is [NaN] or infinite, as the API reports for a
    battery that is not charging or not discharging, becomes
    [undefined]; every finite time is kept.  A whole number of
    seconds up to three hours becomes the nearest whole minute, in
    seconds, half minutes going up; so the normalized times are
    fixed points. *)
Theorem normalizeTime_minutes :
  (∀ time, normalizeTime time = None ↔ isFinite time = false)
  ∧ (∀ n, (0 ≤ n ≤ 10800)%Z →
       normalizeTime (Float64.ofZ n) = Some (Float64.ofZ (60 * ((n + 30) `div` 60))))
  ∧ (∀ n t, (0 ≤ n ≤ 10800)%Z → normalizeTime (Float64.ofZ n) = Some t →
       normalizeTime t = Some t).
Proof.
  assert (∀ n, (0 ≤ n ≤ 10800)%Z →
            normalizeTime (Float64.ofZ n) = Some (Float64.ofZ (60 * ((n + 30) `div` 60)))) as Hmin.
  { intros n Hn.
    apply (bool_decide_eq_true_1
             (normalizeTime (Float64.ofZ n) = Some (Float64.ofZ (60 * ((n + 30) `div` 60))))).
    revert n Hn.
    cut (forallb (λ n, bool_decide (normalizeTime (Float64.ofZ n)
           = Some (Float64.ofZ (60 * ((n + 30) `div` 60))))) (seqZ 0 10801) = true).
    { intros Hall n Hn. apply (forallb_seqZ _ _ Hall). lia. }
    vm_compute. reflexivity. }
  split_and!; [|done|].
  - intros time. unfold normalizeTime. by destruct time as [| | |[] ? ?].
  - intros n t Hn. rewrite Hmin by done. intros [= <-].
    pose proof (Z.div_mod (n + 30) 60 ltac:(lia)).
    pose proof (Z.mod_pos_bound (n + 30) 60 ltac:(lia)).
    rewrite Hmin by lia. do 3 f_equal.
    symmetry. apply (Z.div_unique _ 60 _ 30); lia.
Qed.

(** A level given in thousandths, from 0 to 1, is rounded to the
    nearest twentieth, halves going up: the result is one of the 21
    levels 0, 0.05, ..., 1. *)
Theorem roundBatteryLevel_twentieths (k : Z) :
  (0 ≤ k ≤ 1000)%Z →
  roundBatteryLevel (Float64.div (Float64.ofZ k) (Float64.ofZ 1000))
  = Float64.div (Float64.ofZ ((k + 25) `div` 50)) (Float64.ofZ 20).
Proof.
  intros Hk.
  apply (bool_decide_eq_true_1
           (roundBatteryLevel (Float64.div (Float64.ofZ k) (Float64.ofZ 1000))
            = Float64.div (Float64.ofZ ((k + 25) `div` 50)) (Float64.ofZ 20))).
  revert k Hk.
  cut (forallb (λ k, bool_decide (roundBatteryLevel (Float64.div (Float64.ofZ k) (Float64.ofZ 1000))
         = Float64.div (Float64.ofZ ((k + 25) `div` 50)) (Float64.ofZ 20))) (seqZ 0 1001) = true).
  { intros Hall k Hk. apply (forallb_seqZ _ _ Hall). lia. }
  vm_compute. reflexivity.
Qed.

Lemma roundBatteryLevel_twentieths_witness :
  roundBatteryLevel (Float64.div (Float64.ofZ 874) (Float64.ofZ 1000))
  = Float64.div (Float64.ofZ ((874 + 25) `div` 50)) (Float64.ofZ 20).
Proof. apply (roundBatteryLevel_twentieths 874). lia. Defined.

(** A phone on its charger: a level of 0.874, 3725 seconds to go, and
    no discharging time. *)
Example battery_run :
  let phone :=
    {| BatteryManager.charging := true;
       BatteryManager.level := Float64.div (Float64.ofZ 874) (Float64.ofZ 1000);
       BatteryManager.chargingTime := Float64.ofZ 3725;
       BatteryManager.dischargingTime := Float64.POSITIVE_INFINITY |} in
  yield (Browsers.batteryBrowser (Some phone))
    (getBatteryInfo {| getBattery := Some (GetBatteryRef 0) |}) tt
  = Normal {| charging := Some true;
              level := Some (Float64.div (Float64.ofZ 17) (Float64.ofZ 20));
              chargingTime := Some (Float64.ofZ 3720);
              dischargingTime := None |}
  ∧ yield (Browsers.batteryBrowser None)
      (getBatteryInfo {| getBattery := Some (GetBatteryRef 0) |}) tt
    = Normal unavailable
  ∧ yield (Browsers.batteryBrowser (Some phone)) (getBatteryInfo {| getBattery := None |}) tt
    = Normal unavailable.
Proof. vm_compute. done. Qed.

End BatteryFacts.

(** * The Network Information source: facts *)
Module NetworkFacts.
Import Network.

(** The connection object read is [navigator.connection], else
    [mozConnection], else [webkitConnection]; without any of them
    every field is [undefined].  With one, five fields are passed on
    as they are, and a round trip time that is a whole number of
    milliseconds up to 3000 is replaced by the nearest multiple of
    25. *)
Theorem getNetworkInformation_rtt (nav : NavigatorNetworkInfo) (c : NetworkConnectionInfo)
    (n : Z) :
  connection nav = Some c
  ∨ (connection nav = None ∧ mozConnection nav = Some c)
  ∨ (connection nav = None ∧ mozConnection nav = None ∧ webkitConnection nav = Some c) →
  rtt c = Some (Float64.ofZ n) → (0 ≤ n ≤ 3000)%Z →
  getNetworkInformation nav
  = {| type := type c; effectiveType := effectiveType c; downlink := downlink c;
       downlinkMax := downlinkMax c;
       rtt := Some (Float64.ofZ (25 * ((2 * n + 25) `div` 50)));
       saveData := saveData c |}.
Proof.
  intros Hc Hrtt Hn. unfold getNetworkInformation. cbv zeta.
  assert (match connection nav with
          | Some c => Some c
          | None => match mozConnection nav with
                    | Some c => Some c
                    | None => webkitConnection nav
                    end
          end = Some c) as ->.
  { destruct Hc as [-> | [[-> ->] | (-> & -> & ->)]]; done. }
  f_equal. rewrite Hrtt. unfold roundRtt.
  apply (bool_decide_eq_true_1
           (Some (Float64.mul (Math.round (Float64.div (Float64.ofZ n) (Float64.ofZ 25)))
                    (Float64.ofZ 25))
            = Some (Float64.ofZ (25 * ((2 * n + 25) `div` 50))))).
  clear Hrtt Hc. revert n Hn.
  cut (forallb (λ n, bool_decide
         (Some (Float64.mul (Math.round (Float64.div (Float64.ofZ n) (Float64.ofZ 25)))
                  (Float64.ofZ 25))
          = Some (Float64.ofZ (25 * ((2 * n + 25) `div` 50))))) (seqZ 0 3001) = true).
  { intros Hall n Hn. apply (forallb_seqZ _ _ Hall). lia. }
  vm_compute. reflexivity.
Qed.

(** A connection found under [mozConnection], with a round trip time
    of 140 milliseconds. *)
Lemma getNetworkInformation_rtt_witness :
  let c := {| type := Some "wifi"; effectiveType := Some "4g";
              downlink := Some (Float64.ofZ 10); downlinkMax := None;
              rtt := Some (Float64.ofZ 140); saveData := Some false |} in
  getNetworkInformation {| connection := None; mozConnection := Some c;
                           webkitConnection := None |}
  = {| type := Some "wifi"; effectiveType := Some "4g";
       downlink := Some (Float64.ofZ 10); downlinkMax := None;
       rtt := Some (Float64.ofZ (25 * ((2 * 140 + 25) `div` 50)));
       saveData := Some false |}.
Proof.
  apply (getNetworkInformation_rtt
           {| connection := None;
              mozConnection := Some {| type := Some "wifi"; effectiveType := Some "4g";
                                       downlink := Some (Float64.ofZ 10); downlinkMax := None;
                                       rtt := Some (Float64.ofZ 140); saveData := Some false |};
              webkitConnection := None |}
           {| type := Some "wifi"; effectiveType := Some "4g";
              downlink := Some (Float64.ofZ 10); downlinkMax := None;
              rtt := Some (Float64.ofZ 140); saveData := Some false |} 140).
  - right. left. split; reflexivity.
  - reflexivity.
  - lia.
Defined.


(** Without a connection object under any of the three names, every
    field is [undefined]; an [rtt] that is [undefined] stays so. *)
Lemma getNetworkInformation_absent (nav : NavigatorNetworkInfo) :
  connection nav = None → mozConnection nav = None → webkitConnection nav = None →
  getNetworkInformation nav
  = {| type := None; effectiveType := None; downlink := None; downlinkMax := None;
       rtt := None; saveData := None |}.
Proof. unfold getNetworkInformation. by intros -> -> ->. Qed.

End NetworkFacts.
